(** * ShapesDemo: a shallow embedding of [ShapesDemo/main.cpp]

    The program reads [shapes.txt], builds one shape per line, sorts the
    shapes by area, accumulates three statistics in one pass and prints
    the type names and a four-line summary.

    Modelling choices.
    - [double] is Rocq's primitive binary64 [float]; every arithmetic
      expression keeps the association order of the C++ text.
    - [unsigned] is a [Z] reduced modulo [2^32] after each increment.
    - Objects are records holding the data members of their class, base
      class sub-object included; the dynamic type is the constructor of
      [Shape].
    - Streams are explicit: an input string stream is the unread text
      and a fail flag, an output stream is the list of inserted items.
    - [exit] is an early-termination outcome.
    - The contents of uninitialised locals are not fixed by the program
      text; they are a parameter of the model.
    - [std::sort] is the library's, not the program's: [main] takes it
      as a parameter, and the sort of the GNU C++ library is
      transcribed from its headers to be passed for it. *)

From Stdlib Require Import QArith Qabs Lqa Qpower.
From Stdlib Require Import ZArith List String Ascii Bool Lia Permutation Sorted.
From Stdlib Require Import Floats Uint63 Zpower.
Import ListNotations.

Set Warnings "-inexact-float".

Local Open Scope string_scope.
Local Open Scope list_scope.
Local Open Scope Z_scope.

(** ** Numbers *)

(** Conversion of a non-negative integer below [2^63] to [double]
    (the conversions [int -> double] and [unsigned -> double]). *)
Definition double_of_Z (z : Z) : float := PrimFloat.of_uint63 (Uint63.of_Z z).

(** [unsigned] arithmetic: 32 bits, wrapping. *)
Definition UINT_WIDTH : Z := 32.
Definition unsigned_wrap (z : Z) : Z := z mod 2 ^ UINT_WIDTH.
Definition unsigned_incr (u : Z) : Z := unsigned_wrap (u + 1).

(** ** The class hierarchy *)

(** [class Circle : public Shape { double radius; }] *)
Record CircleObj : Set := { radius : float }.

(** [class Polygon : public Shape { int nSides{ 0 }; }] *)
Record PolygonObj : Set := { nSides : Z }.

(** [class Rectangle : public Polygon { double length, width; }] *)
Record RectangleObj : Set :=
  { Rectangle_base : PolygonObj; length : float; width : float }.

(** [class Triangle : public Polygon { double sides[3]; }] *)
Record TriangleObj : Set :=
  { Triangle_base : PolygonObj; sides0 : float; sides1 : float; sides2 : float }.

(** A [ShapePtr] points to an object of one of the four concrete
    classes.  [Square] adds no member to [Rectangle]; only the dynamic
    type differs. *)
Inductive Shape : Set :=
| IsCircle (o : CircleObj)
| IsRectangle (o : RectangleObj)
| IsSquare (o : RectangleObj)
| IsTriangle (o : TriangleObj).

(** Default member initialiser of [Polygon], and the assignment
    [nSides = n] made in the body of a derived constructor. *)
Definition Polygon_ctor : PolygonObj := {| nSides := 0 |}.
Definition set_nSides (n : Z) (this : PolygonObj) : PolygonObj := {| nSides := n |}.

(** Constructors: base sub-object, member initialisers, then the body. *)
Definition Circle_ctor (r : float) : CircleObj := {| radius := r |}.

Definition Rectangle_ctor (l w : float) : RectangleObj :=
  {| Rectangle_base := set_nSides 4 Polygon_ctor; length := l; width := w |}.

Definition Square_ctor (side : float) : RectangleObj := Rectangle_ctor side side.

Definition Triangle_ctor (a b c : float) : TriangleObj :=
  {| Triangle_base := set_nSides 3 Polygon_ctor; sides0 := a; sides1 := b; sides2 := c |}.

(** [make_shared<T>(...)] converted to [ShapePtr]. *)
Definition Circle (r : float) : Shape := IsCircle (Circle_ctor r).
Definition Rectangle (l w : float) : Shape := IsRectangle (Rectangle_ctor l w).
Definition Square (side : float) : Shape := IsSquare (Square_ctor side).
Definition Triangle (a b c : float) : Shape := IsTriangle (Triangle_ctor a b c).

(** The overriders. *)
Definition Circle_area (this : CircleObj) : float :=
  (3.14159 * radius this * radius this)%float.
Definition Circle_perimeter (this : CircleObj) : float :=
  (2 * 3.14159 * radius this)%float.

Definition Rectangle_area (this : RectangleObj) : float :=
  (length this * width this)%float.
Definition Rectangle_perimeter (this : RectangleObj) : float :=
  (2 * (length this + width this))%float.

Definition Triangle_area (this : TriangleObj) : float :=
  let a := sides0 this in
  let b := sides1 this in
  let c := sides2 this in
  (0.25 * PrimFloat.sqrt ((a + b + c) * (- a + b + c) * (a - b + c) * (a + b - c)))%float.
Definition Triangle_perimeter (this : TriangleObj) : float :=
  (sides0 this + sides1 this + sides2 this)%float.

(** Virtual dispatch on the dynamic type; [Square] inherits the
    overriders of [Rectangle]. *)
Definition area (s : Shape) : float :=
  match s with
  | IsCircle o => Circle_area o
  | IsRectangle o => Rectangle_area o
  | IsSquare o => Rectangle_area o
  | IsTriangle o => Triangle_area o
  end.

Definition perimeter (s : Shape) : float :=
  match s with
  | IsCircle o => Circle_perimeter o
  | IsRectangle o => Rectangle_perimeter o
  | IsSquare o => Rectangle_perimeter o
  | IsTriangle o => Triangle_perimeter o
  end.

(** [dynamic_pointer_cast<Polygon>(shape)]: the [Polygon] sub-object
    when the dynamic type derives from [Polygon], a null pointer for a
    [Circle]. *)
Definition as_Polygon (s : Shape) : option PolygonObj :=
  match s with
  | IsCircle _ => None
  | IsRectangle o => Some (Rectangle_base o)
  | IsSquare o => Some (Rectangle_base o)
  | IsTriangle o => Some (Triangle_base o)
  end.

(** ** Streams *)

(** What [operator<<] inserts into an output stream, in order.  A
    [double] is recorded as the value inserted, not as its text. *)
Inductive out_item : Set :=
| OStr (s : string)
| OChar (ch : ascii)
| ODouble (x : float)
| OUnsigned (u : Z)
| OSize (n : Z)
| OEndl.

Definition ostream : Set := list out_item.

(** A [stringstream] that is only read: the characters not yet
    extracted, and whether [failbit] is set. *)
Record istringstream : Set := { unread : string; failbit : bool }.

Definition stringstream (line : string) : istringstream :=
  {| unread := line; failbit := false |}.

(** [isspace] in the "C" locale: space, and [\t \n \v \f \r]. *)
Definition isspace (ch : ascii) : bool :=
  let n := N_of_ascii ch in
  (N.eqb n 32 || (N.leb 9 n && N.leb n 13))%bool.

Fixpoint skipws (s : string) : string :=
  match s with
  | String ch rest => if isspace ch then skipws rest else s
  | EmptyString => EmptyString
  end.

(** [ss >> x] for a [char]: a failed stream is left alone; otherwise
    white space is skipped, and either the input is exhausted (the
    stream fails, [x] keeps its value) or the next character is stored. *)
Definition get_char (ss : istringstream) (x : ascii) : istringstream * ascii :=
  if failbit ss then (ss, x)
  else match skipws (unread ss) with
       | EmptyString => ({| unread := EmptyString; failbit := true |}, x)
       | String ch rest => ({| unread := rest; failbit := false |}, ch)
       end.

(** *** Decimal numerals *)

Definition digit_val (ch : ascii) : option Z :=
  let n := Z.of_N (N_of_ascii ch) in
  if ((48 <=? n) && (n <=? 57))%bool then Some (n - 48) else None.

(** Scans a run of digits: the number read so far, how many digits
    were taken, and the text left. *)
Fixpoint scan_digits (s : string) (acc count : Z) : Z * Z * string :=
  match s with
  | String ch rest =>
      match digit_val ch with
      | Some d => scan_digits rest (10 * acc + d) (count + 1)
      | None => (acc, count, s)
      end
  | EmptyString => (acc, count, s)
  end.

Definition scan_sign (s : string) : bool * string :=
  match s with
  | String ch rest =>
      if Ascii.eqb ch "-" then (true, rest)
      else if Ascii.eqb ch "+" then (false, rest)
      else (false, s)
  | EmptyString => (false, s)
  end.

(** A scanned numeral stands for [(-1)^neg * mant * 10^exp10]. *)
Record numeral : Set := { num_neg : bool; num_mant : Z; num_exp10 : Z }.

(** The longest prefix made of an optional sign, digits, an optional
    point followed by digits, and an optional exponent (the letter e in
    either case, an optional sign, one digit or more), with one mantissa
    digit at least; [None] when there is no mantissa digit or when an
    exponent marker is not followed by a digit. *)
Definition scan_numeral (s : string) : option (numeral * string) :=
  let '(neg, s1) := scan_sign s in
  let '(ip, ni, s2) := scan_digits s1 0 0 in
  let '(m, nf, s3) :=
    match s2 with
    | String ch rest => if Ascii.eqb ch "." then scan_digits rest ip 0 else (ip, 0, s2)
    | EmptyString => (ip, 0, s2)
    end in
  if ni + nf =? 0 then None
  else
    let plain := Some ({| num_neg := neg; num_mant := m; num_exp10 := - nf |}, s3) in
    match s3 with
    | String ch rest =>
        if (Ascii.eqb ch "e" || Ascii.eqb ch "E")%bool then
          let '(eneg, s4) := scan_sign rest in
          let '(ev, ne, s5) := scan_digits s4 0 0 in
          if ne =? 0 then None
          else Some ({| num_neg := neg; num_mant := m;
                        num_exp10 := (if eneg then - ev else ev) - nf |}, s5)
        else plain
    | EmptyString => plain
    end.

(** The binary64 value nearest to the numeral (ties to even): an
    integer is rounded by [binary_normalize], a proper fraction by the
    correctly rounded division of the digits by a power of ten. *)
Definition SF_of_numeral (n : numeral) : spec_float :=
  match num_mant n with
  | Zpos m =>
      if 0 <=? num_exp10 n then
        binary_normalize prec emax
          (cond_Zopp (num_neg n) (Zpos m * 10 ^ num_exp10 n)) 0 false
      else
        SFdiv prec emax (S754_finite (num_neg n) m 0)
                        (S754_finite false (Z.to_pos (10 ^ (- num_exp10 n))) 0)
  | _ => S754_zero (num_neg n)
  end.

Definition double_of_numeral (n : numeral) : float := SF2Prim (SF_of_numeral n).

Definition DBL_MAX : float := 0x1.fffffffffffffp+1023%float.

(** [ss >> x] for a [double] (C++11 rules): a failed stream is left
    alone; otherwise white space is skipped; exhausted input fails the
    stream and leaves [x]; text that is no numeral fails the stream and
    stores zero; a numeral out of range fails the stream and stores the
    largest finite value of its sign; any other numeral is stored. *)
Definition get_double (ss : istringstream) (x : float) : istringstream * float :=
  if failbit ss then (ss, x)
  else match skipws (unread ss) with
       | EmptyString => ({| unread := EmptyString; failbit := true |}, x)
       | String ch rest =>
           match scan_numeral (String ch rest) with
           | None => ({| unread := String ch rest; failbit := true |}, 0%float)
           | Some (n, rest') =>
               let v := double_of_numeral n in
               if PrimFloat.is_infinity v
               then ({| unread := rest'; failbit := true |},
                     if num_neg n then (- DBL_MAX)%float else DBL_MAX)
               else ({| unread := rest'; failbit := false |}, v)
           end
       end.

(** ** The environment of the process *)

(** The files that can be opened for reading, by path, with the text
    the stream delivers. *)
Definition filesystem : Set := string -> option string.

(** A call either returns or ends the process through [exit]. *)
Inductive outcome (A : Type) : Type :=
| Returned (x : A)
| Exited (status : Z).
Arguments Returned {A} x.
Arguments Exited {A} status.

Definition EXIT_FAILURE : Z := 1.

(** What the process leaves behind. *)
Record process : Set := { exit_status : Z; cout : ostream; cerr : ostream }.

Definition newline : ascii := "010"%char.

(** The lines successive calls of [getline] deliver until one fails: the
    text is cut at each newline, and text after the last newline is a
    line only when it is not empty. *)
Fixpoint getlines (text : string) : list string :=
  match text with
  | EmptyString => []
  | String ch rest =>
      if Ascii.eqb ch newline then EmptyString :: getlines rest
      else match getlines rest with
           | [] => [String ch EmptyString]
           | line :: more => String ch line :: more
           end
  end.

(** The locals declared without initialiser in the body of the loop. *)
Record Locals : Set :=
  { l_shapeType : ascii; l_a : float; l_b : float; l_c : float }.

(** The comparison handed to the sort. *)
Definition comp (a b : Shape) : bool := (area a <? area b)%float.

(** The counters of [main]. *)
Record Totals : Set :=
  { totalPolygons : Z; totalPolygonSides : float; totalPerimeter : float }.

Definition Totals_init : Totals :=
  {| totalPolygons := 0; totalPolygonSides := 0%float; totalPerimeter := 0%float |}.

(** Body of the aggregation loop. *)
Definition accumulate (t : Totals) (shape : Shape) : Totals :=
  let totalPerimeter' := (totalPerimeter t + perimeter shape)%float in
  match as_Polygon shape with
  | Some polygon =>
      {| totalPolygons := unsigned_incr (totalPolygons t);
         totalPolygonSides := (totalPolygonSides t + double_of_Z (nSides polygon))%float;
         totalPerimeter := totalPerimeter' |}
  | None =>
      {| totalPolygons := totalPolygons t;
         totalPolygonSides := totalPolygonSides t;
         totalPerimeter := totalPerimeter' |}
  end.

(** [typeid( *shape ).name()] as the compiler the offset 6 is written
    for spells it: the keyword [class], a space, the class name. *)
Definition typeid_name (s : Shape) : string :=
  match s with
  | IsCircle _ => "class Circle"
  | IsRectangle _ => "class Rectangle"
  | IsSquare _ => "class Square"
  | IsTriangle _ => "class Triangle"
  end.

(** Pointer arithmetic on a C string. *)
Fixpoint cstr_plus (s : string) (n : nat) : string :=
  match n, s with
  | S k, String _ rest => cstr_plus rest k
  | _, _ => s
  end.

(** [operator<<(ostream&, const ShapePtr&)] *)
Definition print_shape (os : ostream) (shape : Shape) : ostream :=
  os ++ [OStr (cstr_plus (typeid_name shape) 6); OEndl].

Section Program.

(** [std::sort] with a comparison: the implementation is the
    library's, not the program's. *)
Variable std_sort : (Shape -> Shape -> bool) -> list Shape -> list Shape.

(** What the uninitialised locals hold when the body of the read loop
    is entered for the line of a given number (from 0). *)
Variable uninit : nat -> Locals.

Variable fs : filesystem.

(** One pass through the body of [while (getline(infile, line))]. *)
Definition loadList_body (u : Locals) (line : string)
    (shapes : list Shape) (err : ostream) : list Shape * ostream :=
  let ss := stringstream line in
  let '(ss, shapeType) := get_char ss (l_shapeType u) in
  if Ascii.eqb shapeType "C" then
    let '(ss, a) := get_double ss (l_a u) in
    (shapes ++ [Circle a], err)
  else if Ascii.eqb shapeType "T" then
    let '(ss, a) := get_double ss (l_a u) in
    let '(ss, b) := get_double ss (l_b u) in
    let '(ss, c) := get_double ss (l_c u) in
    (shapes ++ [Triangle a b c], err)
  else if Ascii.eqb shapeType "R" then
    let '(ss, a) := get_double ss (l_a u) in
    let '(ss, b) := get_double ss (l_b u) in
    (shapes ++ [Rectangle a b], err)
  else if Ascii.eqb shapeType "S" then
    let '(ss, a) := get_double ss (l_a u) in
    (shapes ++ [Square a], err)
  else
    (shapes, err ++ [OStr "Unknown shape: "; OChar shapeType; OEndl]).

Fixpoint loadList_loop (i : nat) (lines : list string)
    (shapes : list Shape) (err : ostream) : list Shape * ostream :=
  match lines with
  | [] => (shapes, err)
  | line :: more =>
      let '(shapes', err') := loadList_body (uninit i) line shapes err in
      loadList_loop (S i) more shapes' err'
  end.

(** [loadList]: the vector is passed by reference, so the call returns
    its new contents, with what was written to [cerr]. *)
Definition loadList (filename : string) (shapes : list Shape)
    : outcome (list Shape * ostream) :=
  match fs filename with
  | None => Exited EXIT_FAILURE
  | Some text => Returned (loadList_loop 0 (getlines text) shapes [])
  end.

(** The four summary lines. *)
Definition summary (shapes : list Shape) (t : Totals) : ostream :=
  [ OStr (String newline "Total Shapes: "); OSize (Z.of_nat (List.length shapes)); OEndl;
    OStr "Total Perimeter of all shapes: "; ODouble (totalPerimeter t); OEndl;
    OStr "Total Polygons: "; OUnsigned (totalPolygons t); OEndl;
    OStr "Average Polygon Sides: ";
    ODouble (totalPolygonSides t / double_of_Z (totalPolygons t))%float; OEndl ].

Definition main : process :=
  let filename := "shapes.txt" in
  match loadList filename [] with
  | Exited status => {| exit_status := status; cout := []; cerr := [] |}
  | Returned (shapes, err) =>
      let shapes := std_sort comp shapes in
      let t := fold_left accumulate shapes Totals_init in
      let out := fold_left print_shape shapes [] in
      {| exit_status := 0; cout := out ++ summary shapes t; cerr := err |}
  end.

End Program.

(** ** An insertion sort *)

(** Insertion sort that puts an element after the elements equivalent
    to it. *)
Fixpoint insert_after (cmp : Shape -> Shape -> bool) (x : Shape) (l : list Shape)
    : list Shape :=
  match l with
  | [] => [x]
  | y :: ys => if cmp x y then x :: l else y :: insert_after cmp x ys
  end.

Definition insertion_sort (cmp : Shape -> Shape -> bool) (l : list Shape) : list Shape :=
  fold_left (fun acc x => insert_after cmp x acc) l [].

(** ** The library sort *)

(** [std::sort] as the GNU C++ library implements it ([bits/stl_algo.h]
    and [bits/stl_heap.h]): a quicksort on the median of three elements
    that leaves ranges of at most sixteen elements alone and falls back
    to a heap sort when its depth limit is used up, followed by one
    pass of insertion sort over the whole array.

    An array is the list of its elements and an iterator is an index.
    A function that works on a range [first, last) and on nothing else
    takes and returns the elements of that range.  The scans of the
    library are not bounded by the range: they stop on an element,
    which exists when the comparison is a strict weak ordering.  A scan
    that leaves the range has no defined result; this is [None]. *)
Module libstdcxx.

Section LibrarySort.

Local Open Scope nat_scope.

Context {T : Type}.
Variable cmp : T -> T -> bool.

(** [*(first + i) = x] *)
Fixpoint store (v : list T) (i : nat) (x : T) : list T :=
  match v, i with
  | [], _ => []
  | _ :: t, O => x :: t
  | y :: t, S k => y :: store t k x
  end.

Definition iter_swap (v : list T) (i j : nat) : option (list T) :=
  match nth_error v i, nth_error v j with
  | Some x, Some y => Some (store (store v i y) j x)
  | _, _ => None
  end.

(** [__move_median_to_first(result, a, b, c, comp)] *)
Definition move_median_to_first (v : list T) (result a b c : nat) : option (list T) :=
  match nth_error v a, nth_error v b, nth_error v c with
  | Some va, Some vb, Some vc =>
      if cmp va vb then
        if cmp vb vc then iter_swap v result b
        else if cmp va vc then iter_swap v result c
        else iter_swap v result a
      else if cmp va vc then iter_swap v result a
      else if cmp vb vc then iter_swap v result c
      else iter_swap v result b
  | _, _, _ => None
  end.

(** [while (comp(first, pivot)) ++first;] over the elements from
    [first] on: the index the scan stops at. *)
Fixpoint scan_up (pivot : T) (from_first : list T) (first : nat) : option nat :=
  match from_first with
  | [] => None
  | x :: rest => if cmp x pivot then scan_up pivot rest (S first) else Some first
  end.

(** [while (comp(pivot, last)) --last;] *)
Fixpoint scan_down (v : list T) (pivot : T) (last : nat) : option nat :=
  match nth_error v last with
  | None => None
  | Some y =>
      if cmp pivot y then
        match last with
        | O => None
        | S l => scan_down v pivot l
        end
      else Some last
  end.

(** [__unguarded_partition(first, last, pivot, comp)]; each turn of
    its loop moves [first] up, so as many turns as the array has
    elements are enough. *)
Fixpoint unguarded_partition (fuel : nat) (v : list T) (first last pivot : nat)
    : option (nat * list T) :=
  match fuel with
  | O => None
  | S fuel' =>
      match nth_error v pivot with
      | None => None
      | Some p =>
          match scan_up p (skipn first v) first with
          | None => None
          | Some first =>
              match last with
              | O => None
              | S last =>
                  match scan_down v p last with
                  | None => None
                  | Some last =>
                      if negb (first <? last)%nat then Some (first, v)
                      else
                        match iter_swap v first last with
                        | None => None
                        | Some v => unguarded_partition fuel' v (S first) last pivot
                        end
                  end
              end
          end
      end
  end.

(** [__unguarded_partition_pivot(first, last, comp)] on the range [s]:
    the cut and the new contents of the range. *)
Definition unguarded_partition_pivot (s : list T) : option (nat * list T) :=
  let mid := (List.length s / 2)%nat in
  match move_median_to_first s 0 1 mid (List.length s - 1) with
  | None => None
  | Some s => unguarded_partition (List.length s) s 1 (List.length s) 0
  end.

(** [__push_heap(first, holeIndex, topIndex, value, comp)] *)
Fixpoint push_heap (fuel : nat) (v : list T) (holeIndex topIndex : nat) (value : T)
    : option (list T) :=
  match fuel with
  | O => None
  | S fuel' =>
      let parent := ((holeIndex - 1) / 2)%nat in
      if (topIndex <? holeIndex)%nat then
        match nth_error v parent with
        | None => None
        | Some p =>
            if cmp p value then push_heap fuel' (store v holeIndex p) parent topIndex value
            else Some (store v holeIndex value)
        end
      else Some (store v holeIndex value)
  end.

(** The first loop of [__adjust_heap]: the array, [holeIndex] and
    [secondChild] when it ends. *)
Fixpoint adjust_heap_down (fuel : nat) (v : list T) (holeIndex secondChild len : nat)
    : option (list T * nat * nat) :=
  match fuel with
  | O => None
  | S fuel' =>
      if (secondChild <? (len - 1) / 2)%nat then
        let secondChild := (2 * (secondChild + 1))%nat in
        match nth_error v secondChild, nth_error v (secondChild - 1) with
        | Some r, Some l =>
            let secondChild := if cmp r l then (secondChild - 1)%nat else secondChild in
            match nth_error v secondChild with
            | None => None
            | Some c => adjust_heap_down fuel' (store v holeIndex c) secondChild secondChild len
            end
        | _, _ => None
        end
      else Some (v, holeIndex, secondChild)
  end.

(** [__adjust_heap(first, holeIndex, len, value, comp)] *)
Definition adjust_heap (v : list T) (holeIndex len : nat) (value : T) : option (list T) :=
  let topIndex := holeIndex in
  match adjust_heap_down (S len) v holeIndex holeIndex len with
  | None => None
  | Some (v, holeIndex, secondChild) =>
      if (Nat.even len && (secondChild =? (len - 2) / 2)%nat)%bool then
        let secondChild := (2 * (secondChild + 1))%nat in
        match nth_error v (secondChild - 1) with
        | None => None
        | Some c =>
            push_heap (S len) (store v holeIndex c) (secondChild - 1) topIndex value
        end
      else push_heap (S len) v holeIndex topIndex value
  end.

(** [__pop_heap(first, last, result, comp)], the range starting the
    array *)
Definition pop_heap (v : list T) (last result : nat) : option (list T) :=
  match nth_error v result, nth_error v 0 with
  | Some value, Some top => adjust_heap (store v result top) 0 last value
  | _, _ => None
  end.

(** The loop of [__make_heap], from [parent] down to the root. *)
Fixpoint make_heap_loop (v : list T) (len parent : nat) : option (list T) :=
  match nth_error v parent with
  | None => None
  | Some value =>
      match adjust_heap v parent len value with
      | None => None
      | Some v =>
          match parent with
          | O => Some v
          | S parent' => make_heap_loop v len parent'
          end
      end
  end.

Definition make_heap (v : list T) (last : nat) : option (list T) :=
  if (last <? 2)%nat then Some v
  else make_heap_loop v last ((last - 2) / 2).

(** [__sort_heap(first, last, comp)] *)
Fixpoint sort_heap (v : list T) (last : nat) : option (list T) :=
  match last with
  | O => Some v
  | S last' =>
      if (1 <? last)%nat then
        match pop_heap v last' last' with
        | None => None
        | Some v => sort_heap v last'
        end
      else Some v
  end.

(** [__partial_sort(first, last, last, comp)]: with the middle at the
    end the loop of [__heap_select] has nothing to go through. *)
Definition partial_sort (s : list T) : option (list T) :=
  match make_heap s (List.length s) with
  | None => None
  | Some s => sort_heap s (List.length s)
  end.

Definition S_threshold : nat := 16%nat.

(** [__introsort_loop(first, last, depth_limit, comp)] on the range
    [s].  The call on [cut, last) and the further turns of the loop on
    [first, cut) work on ranges that do not meet. *)
Fixpoint introsort_loop (depth_limit : nat) (s : list T) : option (list T) :=
  if (S_threshold <? List.length s)%nat then
    match depth_limit with
    | O => partial_sort s
    | S depth_limit =>
        match unguarded_partition_pivot s with
        | None => None
        | Some (cut, s) =>
            match introsort_loop depth_limit (skipn cut s) with
            | None => None
            | Some upper =>
                match introsort_loop depth_limit (firstn cut s) with
                | None => None
                | Some lower => Some (lower ++ upper)
                end
            end
        end
    end
  else Some s.

(** [__unguarded_linear_insert(last, comp)], with the value taken out
    of [*last] *)
Fixpoint unguarded_linear_insert (v : list T) (last : nat) (val : T) : option (list T) :=
  match last with
  | O => None
  | S next =>
      match nth_error v next with
      | None => None
      | Some y =>
          if cmp val y then unguarded_linear_insert (store v last y) next val
          else Some (store v last val)
      end
  end.

(** The body of the loop of [__insertion_sort] at [i], for a range
    that starts the array. *)
Definition insertion_sort_step (v : list T) (i : nat) : option (list T) :=
  match nth_error v i, nth_error v 0 with
  | Some val, Some f =>
      if cmp val f then Some (val :: firstn i v ++ skipn (S i) v)
      else unguarded_linear_insert v i val
  | _, _ => None
  end.

Fixpoint insertion_sort_loop (count : nat) (v : list T) (i : nat) : option (list T) :=
  match count with
  | O => Some v
  | S count' =>
      match insertion_sort_step v i with
      | None => None
      | Some v => insertion_sort_loop count' v (S i)
      end
  end.

(** [__insertion_sort(first, last, comp)] with [first] the start of
    the array *)
Definition insertion_sort (v : list T) (last : nat) : option (list T) :=
  match last with
  | O => Some v
  | S n => insertion_sort_loop n v 1
  end.

(** [__unguarded_insertion_sort(first, last, comp)], [count] elements
    from [i] on *)
Fixpoint unguarded_insertion_sort_loop (count : nat) (v : list T) (i : nat) : option (list T) :=
  match count with
  | O => Some v
  | S count' =>
      match nth_error v i with
      | None => None
      | Some val =>
          match unguarded_linear_insert v i val with
          | None => None
          | Some v => unguarded_insertion_sort_loop count' v (S i)
          end
      end
  end.

(** [__final_insertion_sort(first, last, comp)] *)
Definition final_insertion_sort (v : list T) : option (list T) :=
  if (S_threshold <? List.length v)%nat then
    match insertion_sort v S_threshold with
    | None => None
    | Some v => unguarded_insertion_sort_loop (List.length v - S_threshold) v S_threshold
    end
  else insertion_sort v (List.length v).

(** [__lg(n)] *)
Definition lg (n : nat) : nat := Nat.log2 n.

(** [__sort(first, last, comp)] *)
Definition sort (v : list T) : option (list T) :=
  match v with
  | [] => Some v
  | _ =>
      match introsort_loop (lg (List.length v) * 2)%nat v with
      | None => None
      | Some v => final_insertion_sort v
      end
  end.

End LibrarySort.

End libstdcxx.

(** [std::sort] of the GNU library as [main] calls it; where the
    library's behaviour is not defined the vector is left as it was. *)
Definition libstdcxx_sort (cmp : Shape -> Shape -> bool) (l : list Shape) : list Shape :=
  match libstdcxx.sort cmp l with
  | Some sorted => sorted
  | None => l
  end.

(** ** Vocabulary of the statements *)

(** A range is sorted with respect to [cmp] when no element compares
    less than an earlier one. *)
Definition sorted_wrt (cmp : Shape -> Shape -> bool) (l : list Shape) : Prop :=
  forall i j x y, (i < j)%nat -> nth_error l i = Some x -> nth_error l j = Some y ->
                  cmp y x = false.

(** The same, as a relation between an element and a later one. *)
Definition not_after (cmp : Shape -> Shape -> bool) (x y : Shape) : Prop := cmp y x = false.

(** Ascending areas: each shape's area is at most that of any later one. *)
Definition ascending_area (l : list Shape) : Prop :=
  forall i j x y, (i < j)%nat -> nth_error l i = Some x -> nth_error l j = Some y ->
                  (area x <=? area y)%float = true.

(** What [std::sort] promises about its result. *)
Definition std_sort_post (cmp : Shape -> Shape -> bool) (l l' : list Shape) : Prop :=
  Permutation l l' /\ sorted_wrt cmp l'.

(** [comp] is a strict weak ordering on shapes whose area is a number;
    the promise of the library holds for such inputs. *)
Definition nan_free (l : list Shape) : Prop :=
  Forall (fun s => PrimFloat.is_nan (area s) = false) l.

Definition conforming (srt : (Shape -> Shape -> bool) -> list Shape -> list Shape) : Prop :=
  forall l, nan_free l -> std_sort_post comp l (srt comp l).

(** Stability: the shapes equivalent to a given one (neither compares
    less than the other) come out in the order they went in. *)
Definition equiv (cmp : Shape -> Shape -> bool) (x y : Shape) : bool :=
  (negb (cmp x y) && negb (cmp y x))%bool.

Definition stable (cmp : Shape -> Shape -> bool) (l l' : list Shape) : Prop :=
  forall x, filter (equiv cmp x) l' = filter (equiv cmp x) l.

(** Objects as the program makes them. *)
Inductive constructed : Shape -> Prop :=
| constructed_Circle r : constructed (Circle r)
| constructed_Rectangle l w : constructed (Rectangle l w)
| constructed_Square side : constructed (Square side)
| constructed_Triangle a b c : constructed (Triangle a b c).

(** Counting by dynamic type. *)
Definition is_Rectangle (s : Shape) : bool := match s with IsRectangle _ => true | _ => false end.
Definition is_Square (s : Shape) : bool := match s with IsSquare _ => true | _ => false end.
Definition is_Triangle (s : Shape) : bool := match s with IsTriangle _ => true | _ => false end.
Definition is_Polygon (s : Shape) : bool := match as_Polygon s with Some _ => true | None => false end.

Definition count (p : Shape -> bool) (l : list Shape) : Z := Z.of_nat (List.length (filter p l)).

(** The aggregation pass and the running sum of the perimeters. *)
Definition aggregate (shapes : list Shape) : Totals := fold_left accumulate shapes Totals_init.

Definition sum_perimeters (shapes : list Shape) : float :=
  fold_left (fun acc s => (acc + perimeter s)%float) shapes 0%float.

(** The type codes of the loader and what each one builds from the
    three parameter variables. *)
Definition known_code (ch : ascii) : bool :=
  (Ascii.eqb ch "C" || Ascii.eqb ch "T" || Ascii.eqb ch "R" || Ascii.eqb ch "S")%bool.

Definition required (code : ascii) : nat :=
  if Ascii.eqb code "C" then 1
  else if Ascii.eqb code "T" then 3
  else if Ascii.eqb code "R" then 2
  else if Ascii.eqb code "S" then 1
  else 0.

Definition construct (code : ascii) (a b c : float) : Shape :=
  if Ascii.eqb code "C" then Circle a
  else if Ascii.eqb code "T" then Triangle a b c
  else if Ascii.eqb code "R" then Rectangle a b
  else Square a.

Definition unknown_warning (ch : ascii) : ostream :=
  [OStr "Unknown shape: "; OChar ch; OEndl].

(** [carries ss vs]: successive extractions of a [double] from [ss]
    deliver exactly the values [vs], after which only white space is
    left. *)
Inductive carries : istringstream -> list float -> Prop :=
| carries_end ss :
    failbit ss = false -> skipws (unread ss) = EmptyString -> carries ss []
| carries_more ss ss' v vs :
    failbit ss = false -> failbit ss' = false ->
    (forall x, get_double ss x = (ss', v)) ->
    carries ss' vs -> carries ss (v :: vs).

(** The state of a stream while the parameters of a line are read:
    either it still carries values, or it has failed. *)
Definition pending (ss : istringstream) (vs : list float) : Prop :=
  carries ss vs \/ (failbit ss = true /\ vs = []).

(** The value of the [k]-th parameter variable after a line that
    carries [vs]: the value read when there is one, else what the
    variable held. *)
Definition param_after (vs : list float) (k : nat) (held : float) : float :=
  nth k vs held.

(** The constant of [<cmath>] for pi, and closeness within a relative
    tolerance. *)
Definition M_PI : float := 3.14159265358979323846%float.

Definition within_tolerance (tol x y : float) : bool :=
  (PrimFloat.abs (x - y) <=? tol * PrimFloat.abs y)%float.

(** The input files of the end-to-end scenarios, a file system that
    holds [shapes.txt] and nothing else, and one possible content of the
    uninitialised locals. *)
Definition scenario1_text : string := "C 2" ++ String newline "S 3".
Definition scenario2_text : string := "X 1 2".

(** A file of [n] lines [S 1]. *)
Fixpoint squares_text (n : nat) : string :=
  match n with
  | O => EmptyString
  | S k => "S 1" ++ String newline (squares_text k)
  end.

Definition only_shapes_txt (text : string) : filesystem :=
  fun path => if String.eqb path "shapes.txt" then Some text else None.

Definition no_file : filesystem := fun _ => None.

Definition stale_locals : nat -> Locals :=
  fun _ => {| l_shapeType := "000"%char; l_a := 7%float; l_b := 8%float; l_c := 9%float |}.

(** The order of binary64 numbers. *)

(** A key that orders the numbers as [SFcompare] does: class first
    (the infinities outermost, zero in the middle), then exponent, then
    mantissa, both negated for negative numbers. *)
Definition SF_key (f : spec_float) : Z * Z * Z :=
  match f with
  | S754_nan => (0, 0, 0)
  | S754_zero _ => (0, 0, 0)
  | S754_infinity s => (if s then -2 else 2, 0, 0)
  | S754_finite s m e => if s then (-1, - e, - Zpos m) else (1, e, Zpos m)
  end.

Definition key_lt (k k' : Z * Z * Z) : Prop :=
  let '(a, b, c) := k in
  let '(a', b', c') := k' in
  a < a' \/ (a = a' /\ (b < b' \/ (b = b' /\ c < c'))).

(** Vocabulary of the further properties. *)

(** A number that is not negative: not-a-number, a zero of either
    sign, or a positive number. *)
Definition SF_not_negative (x : spec_float) : Prop :=
  match x with
  | S754_nan | S754_zero _ => True
  | S754_infinity s | S754_finite s _ _ => s = false
  end.

(** A number with a given sign bit, or not-a-number. *)
Definition SF_signed (s : bool) (x : spec_float) : Prop :=
  match x with
  | S754_nan => True
  | S754_zero s' | S754_infinity s' | S754_finite s' _ _ => s' = s
  end.

(** [delivers ss vs]: successive extractions of a [double] from [ss]
    store the values [vs]; what follows them is not constrained. *)
Inductive delivers : istringstream -> list float -> Prop :=
| delivers_nil ss : delivers ss []
| delivers_cons ss ss' v vs :
    (forall x, get_double ss x = (ss', v)) ->
    delivers ss' vs -> delivers ss (v :: vs).

(** What each line adds to the vector and to [cerr] when the body of
    the read loop runs on it alone. *)
Fixpoint loaded_from (uninit : nat -> Locals) (i : nat) (lines : list string) : list Shape :=
  match lines with
  | [] => []
  | line :: more =>
      fst (loadList_body (uninit i) line [] []) ++ loaded_from uninit (S i) more
  end.

Fixpoint warned_from (uninit : nat -> Locals) (i : nat) (lines : list string) : ostream :=
  match lines with
  | [] => []
  | line :: more =>
      snd (loadList_body (uninit i) line [] []) ++ warned_from uninit (S i) more
  end.

(** Lines written back as text, each followed by a newline, and a text
    with a final newline added when its last line lacks one. *)
Fixpoint unlines (lines : list string) : string :=
  match lines with
  | [] => EmptyString
  | line :: more => line ++ String newline (unlines more)
  end.

Fixpoint terminate (text : string) : string :=
  match text with
  | EmptyString => EmptyString
  | String ch EmptyString =>
      if Ascii.eqb ch newline then text else String ch (String newline EmptyString)
  | String ch rest => String ch (terminate rest)
  end.

Fixpoint has_newline (s : string) : bool :=
  match s with
  | EmptyString => false
  | String ch rest => (Ascii.eqb ch newline || has_newline rest)%bool
  end.

(** A file of seventeen lines: a 1 by 1 rectangle, then sixteen squares
    of side 1. *)
Definition seventeen_text : string := "R 1 1" ++ String newline (squares_text 16).

(** Vocabulary of the library sort. *)

Section LibrarySortVocabulary.

Local Open Scope nat_scope.

Context {T : Type}.
Variable cmp : T -> T -> bool.

(** A range is in order when no element compares less than an
    earlier one. *)
Definition in_order (v : list T) : Prop :=
  forall i j x y, i < j -> nth_error v i = Some x -> nth_error v j = Some y ->
                  cmp y x = false.

(** Insertion of [val] into a prefix given from its last element
    backwards, as [__unguarded_linear_insert] scans it: [None] when the
    scan runs off the front. *)
Fixpoint insert_from_right (rp : list T) (val : T) : option (list T) :=
  match rp with
  | [] => None
  | y :: t =>
      if cmp val y then option_map (cons y) (insert_from_right t val)
      else Some (val :: rp)
  end.

(** In order, read backwards. *)
Definition descending (rp : list T) : Prop :=
  StronglySorted (fun x y => cmp x y = false) rp.

(** What the partitioning leaves for the final pass: every element
    from position [k] on has an element before it that is not greater. *)
Definition guarded_from (k : nat) (v : list T) : Prop :=
  forall i x, k <= i -> nth_error v i = Some x ->
              exists y, In y (firstn i v) /\ cmp x y = false.

(** The array while the elements before [i] have been inserted: an
    arrangement in order of the first [i] elements of [v0], followed by
    the others as they were. *)
Definition inserted (v0 : list T) (i : nat) (v : list T) : Prop :=
  exists rp, v = rev rp ++ skipn i v0 /\ List.length rp = i /\
             descending rp /\ Permutation rp (firstn i v0).

(** The nodes below [top] in the implicit binary tree of a heap. *)
Inductive below (top : nat) : nat -> Prop :=
| below_top : below top top
| below_left h : below top h -> below top (2 * h + 1)
| below_right h : below top h -> below top (2 * h + 2).

(** Among the first [len] elements no node from [k] on is less than
    one of its children. *)
Definition heap_from (k len : nat) (v : list T) : Prop :=
  forall c pv cv, 1 <= c < len -> k <= (c - 1) / 2 ->
                  nth_error v ((c - 1) / 2) = Some pv -> nth_error v c = Some cv ->
                  cmp pv cv = false.

(** The same, but for the links that touch the hole [h]; and the node
    above the hole is not less than the nodes below it. *)
Definition heap_around (top len h : nat) (u : list T) : Prop :=
  (forall c pv cv, 1 <= c < len -> top <= (c - 1) / 2 ->
                   c <> h -> (c - 1) / 2 <> h ->
                   nth_error u ((c - 1) / 2) = Some pv -> nth_error u c = Some cv ->
                   cmp pv cv = false) /\
  (top < h ->
   forall c pv cv, c < len -> (c - 1) / 2 = h -> 1 <= c ->
                   nth_error u ((h - 1) / 2) = Some pv -> nth_error u c = Some cv ->
                   cmp pv cv = false).

(** The state of [__adjust_heap] and [__push_heap] while the hole is
    at [h]: the hole is below [top]; with any value in the hole the
    array holds the elements of [v] with that value at [top]; the heap
    is in order but for the links at the hole; nothing outside the
    nodes from [top] to [len] has changed. *)
Definition hole_state (v : list T) (top len h : nat) (u : list T) : Prop :=
  List.length u = List.length v /\ below top h /\ h < len /\
  (forall x, Permutation (libstdcxx.store u h x) (libstdcxx.store v top x)) /\
  heap_around top len h u /\
  (forall i, i < top \/ len <= i -> nth_error u i = nth_error v i).

(** [value] is not less than the nodes below the hole. *)
Definition above_children (len h : nat) (u : list T) (value : T) : Prop :=
  forall c cv, 1 <= c < len -> (c - 1) / 2 = h ->
               nth_error u c = Some cv -> cmp value cv = false.

(** No element after the first [last] is less than one of them. *)
Definition tail_not_less (last : nat) (v : list T) : Prop :=
  forall x y, In x (firstn last v) -> In y (skipn last v) -> cmp y x = false.

End LibrarySortVocabulary.

(** Vocabulary of the short lines. *)

(** How the extraction of a [double] can fail on a stream that has not
    failed yet: nothing but white space is left; the next token is no
    numeral; the numeral is too large for a [double]. *)
Inductive stop : Set :=
| AtEnd
| NotANumber
| OutOfRange (negative : bool).

(** What the failing extraction leaves in its variable (C++11): the
    value held at the end of the input, zero after a token that is no
    numeral, the largest finite value of the sign when out of range. *)
Definition stored (s : stop) (held : float) : float :=
  match s with
  | AtEnd => held
  | NotANumber => 0%float
  | OutOfRange negative => if negative then (- DBL_MAX)%float else DBL_MAX
  end.

(** The next number of a stream that has not failed, with the stream
    after it, or the way the extraction fails. *)
Definition next_number (ss : istringstream) : istringstream * float + stop :=
  match skipws (unread ss) with
  | EmptyString => inr AtEnd
  | String ch rest =>
      match scan_numeral (String ch rest) with
      | None => inr NotANumber
      | Some (n, rest') =>
          if PrimFloat.is_infinity (double_of_numeral n)
          then inr (OutOfRange (num_neg n))
          else inl ({| unread := rest'; failbit := false |}, double_of_numeral n)
      end
  end.

(** The numbers a stream carries, up to [n] of them, and how the
    extraction after the last of them fails when there are fewer. *)
Fixpoint numbers (n : nat) (ss : istringstream) : list float * option stop :=
  match n with
  | O => ([], None)
  | S k =>
      match next_number ss with
      | inl (ss', v) => let '(vs, s) := numbers k ss' in (v :: vs, s)
      | inr s => ([], Some s)
      end
  end.

(** The value of the [k]-th parameter variable after a line that
    carries the numbers [vs] and then stops as [s] says. *)
Definition param_short (vs : list float) (s : stop) (k : nat) (held : float) : float :=
  if (k <? List.length vs)%nat then nth k vs held
  else if (k =? List.length vs)%nat then stored s held
  else held.

(** The state of the stream before the [i]-th parameter of a short
    line is read: still delivering the numbers from the [i]-th on, or
    failed by an earlier extraction. *)
Definition short_state (vs : list float) (s : stop) (i m : nat) (ss : istringstream) : Prop :=
  (failbit ss = false /\ numbers m ss = (skipn i vs, Some s) /\ (i <= List.length vs)%nat) \/
  (failbit ss = true /\ (List.length vs < i)%nat).

(** Vocabulary of the rounding errors. *)

(** What [k] right shifts leave of [m]: the quotient by [2^k], the bit
    below it, and whether anything lies below that bit. *)
Definition shr_inv (m k : Z) (mrs : shr_record) : Prop :=
  exists low,
    0 <= low < 2 ^ (k - 1) /\
    m = shr_m mrs * 2 ^ k + Z.b2z (shr_r mrs) * 2 ^ (k - 1) + low /\
    shr_s mrs = negb (low =? 0) /\
    0 <= shr_m mrs.

(** The rational number a binary64 number stands for (zero for the
    infinities and not-a-number). *)
Definition SF2Q (f : spec_float) : Q :=
  match f with
  | S754_finite s m e =>
      ((if s then - inject_Z (Zpos m) else inject_Z (Zpos m)) * 2 ^ e)%Q
  | _ => 0%Q
  end.

Definition exact (x : float) : Q := SF2Q (Prim2SF x).

(** A positive normal number whose exponent lies between two bounds. *)
Definition normal_between (lo hi : Z) (x : float) : Prop :=
  exists m e, Prim2SF x = S754_finite false m e /\
              Zpos (digits2_pos m) = 53 /\ lo <= e <= hi.

(** * Properties *)

(** ** The loader *)

Lemma get_char_first line ch rest x :
  skipws line = String ch rest ->
  get_char (stringstream line) x = ({| unread := rest; failbit := false |}, ch).
Proof.
  intros E. unfold get_char, stringstream. simpl. now rewrite E.
Qed.

Lemma get_double_failed ss x : failbit ss = true -> get_double ss x = (ss, x).
Proof.
  intros E. unfold get_double. now rewrite E.
Qed.

Lemma get_double_exhausted ss x :
  failbit ss = false -> skipws (unread ss) = EmptyString ->
  get_double ss x = ({| unread := EmptyString; failbit := true |}, x).
Proof.
  intros E1 E2. unfold get_double. now rewrite E1, E2.
Qed.

Lemma get_double_pending ss vs x :
  pending ss vs ->
  exists ss', get_double ss x = (ss', nth 0 vs x) /\ pending ss' (tl vs).
Proof.
  intros [C | [F ->]].
  - destruct C as [ss F W | ss ss' v vs F F' G C].
    + eexists. split.
      * now apply get_double_exhausted.
      * right. now split.
    + exists ss'. split.
      * apply G.
      * now left.
  - exists ss. split.
    + now apply get_double_failed.
    + right. now split.
Qed.

Lemma nth_tl (vs : list float) k x : nth k (tl vs) x = nth (S k) vs x.
Proof.
  destruct vs as [| v vs]; simpl; [now destruct k | reflexivity].
Qed.

Section Loader.

Variable uninit : nat -> Locals.

Lemma known_code_false ch :
  known_code ch = false ->
  Ascii.eqb ch "C" = false /\ Ascii.eqb ch "T" = false /\
  Ascii.eqb ch "R" = false /\ Ascii.eqb ch "S" = false.
Proof.
  unfold known_code. intros H.
  repeat (apply orb_false_elim in H; destruct H as [H ?]). now repeat split.
Qed.

(** A line whose first character after white space is no type code
    adds nothing to the vector and one warning to [cerr]. *)
Lemma loadList_body_unknown u line ch rest shapes err :
  skipws line = String ch rest -> known_code ch = false ->
  loadList_body u line shapes err = (shapes, err ++ unknown_warning ch).
Proof.
  intros E K. apply known_code_false in K. destruct K as (KC & KT & KR & KS).
  unfold loadList_body. rewrite (get_char_first _ _ _ _ E).
  now rewrite KC, KT, KR, KS.
Qed.

(** A line with a type code, whatever follows it, appends one shape
    and writes nothing to [cerr]. *)
Lemma loadList_body_known u line code rest vs shapes err :
  skipws line = String code rest -> known_code code = true ->
  pending {| unread := rest; failbit := false |} vs ->
  loadList_body u line shapes err =
    (shapes ++ [construct code (param_after vs 0 (l_a u)) (param_after vs 1 (l_b u))
                               (param_after vs 2 (l_c u))], err).
Proof.
  intros E K P. unfold loadList_body, construct, param_after.
  rewrite (get_char_first _ _ _ _ E).
  destruct (get_double_pending _ _ (l_a u) P) as (ss1 & G1 & P1).
  destruct (get_double_pending _ _ (l_b u) P1) as (ss2 & G2 & P2).
  destruct (get_double_pending _ _ (l_c u) P2) as (ss3 & G3 & P3).
  rewrite !nth_tl in *.
  unfold known_code in K.
  destruct (Ascii.eqb code "C"); [now rewrite G1 |].
  destruct (Ascii.eqb code "T"); [now rewrite G1, G2, G3 |].
  destruct (Ascii.eqb code "R"); [now rewrite G1, G2 |].
  destruct (Ascii.eqb code "S"); [now rewrite G1 | discriminate].
Qed.

(** The loop over two stretches of lines is the loop over the first
    followed by the loop over the second. *)
Lemma loadList_loop_app i lines1 lines2 shapes err :
  loadList_loop uninit i (lines1 ++ lines2) shapes err =
    loadList_loop uninit (i + List.length lines1) lines2
      (fst (loadList_loop uninit i lines1 shapes err))
      (snd (loadList_loop uninit i lines1 shapes err)).
Proof.
  revert i shapes err.
  induction lines1 as [| line lines1 IH]; intros i shapes err; simpl.
  - now rewrite Nat.add_0_r.
  - destruct (loadList_body (uninit i) line shapes err) as [shapes' err'].
    rewrite IH. now rewrite Nat.add_succ_r.
Qed.

(** Every pass through the body keeps what the vector held and
    appends at most one object, made by a constructor. *)
Lemma loadList_body_appends u line shapes err :
  exists new, fst (loadList_body u line shapes err) = shapes ++ new /\
              Forall constructed new.
Proof.
  unfold loadList_body.
  destruct (get_char _ _) as [ss shapeType].
  destruct (get_double ss (l_a u)) as [ss1 a] eqn:G1.
  destruct (get_double ss1 (l_b u)) as [ss2 b] eqn:G2.
  destruct (get_double ss2 (l_c u)) as [ss3 c] eqn:G3.
  destruct (Ascii.eqb shapeType "C");
    [ exists [Circle a]; split; [reflexivity | repeat constructor] |].
  destruct (Ascii.eqb shapeType "T");
    [ exists [Triangle a b c]; split; [reflexivity | repeat constructor] |].
  destruct (Ascii.eqb shapeType "R");
    [ exists [Rectangle a b]; split; [reflexivity | repeat constructor] |].
  destruct (Ascii.eqb shapeType "S");
    [ exists [Square a]; split; [reflexivity | repeat constructor] |].
  exists []. split; [now rewrite app_nil_r | constructor].
Qed.

Lemma loadList_loop_constructed i lines shapes err :
  Forall constructed shapes ->
  Forall constructed (fst (loadList_loop uninit i lines shapes err)).
Proof.
  revert i shapes err.
  induction lines as [| line lines IH]; intros i shapes err H; simpl; [exact H |].
  destruct (loadList_body_appends (uninit i) line shapes err) as (new & E & C).
  destruct (loadList_body (uninit i) line shapes err) as [shapes' err'].
  simpl in E. subst shapes'. apply IH. apply Forall_app. now split.
Qed.

End Loader.

(** ** Lines that carry fewer numbers than their code requires *)

Lemma get_double_next ss x :
  failbit ss = false ->
  match next_number ss with
  | inl (ss', v) => get_double ss x = (ss', v) /\ failbit ss' = false
  | inr s => exists ss', get_double ss x = (ss', stored s x) /\ failbit ss' = true
  end.
Proof.
  intros F. unfold next_number, get_double. rewrite F.
  destruct (skipws (unread ss)) as [| ch rest].
  - eexists. split; reflexivity.
  - destruct (scan_numeral (String ch rest)) as [[n rest'] |].
    + destruct (PrimFloat.is_infinity (double_of_numeral n)).
      * eexists. split; reflexivity.
      * split; reflexivity.
    + eexists. split; reflexivity.
Qed.

Lemma numbers_length n ss vs s :
  numbers n ss = (vs, Some s) -> (List.length vs < n)%nat.
Proof.
  revert ss vs. induction n as [| n IH]; intros ss vs N; simpl in N; [discriminate |].
  destruct (next_number ss) as [[ss' v] | s'].
  - destruct (numbers n ss') as [vs' s''] eqn:N'. injection N as <- ->.
    simpl. specialize (IH _ _ N'). lia.
  - injection N as <- _. simpl. lia.
Qed.

Lemma skipn_cons_nth (vs : list float) i v vs' x :
  skipn i vs = v :: vs' ->
  nth i vs x = v /\ skipn (S i) vs = vs' /\ (i < List.length vs)%nat.
Proof.
  revert vs. induction i as [| i IH]; intros [| w vs] E; simpl in E; try discriminate.
  - injection E as -> ->. repeat split. simpl. lia.
  - destruct (IH _ E) as (A & B & C). repeat split; [exact A | exact B | simpl; lia].
Qed.

Lemma skipn_nil_length (vs : list float) i : skipn i vs = [] -> (List.length vs <= i)%nat.
Proof.
  revert vs. induction i as [| i IH]; intros [| w vs] E; simpl in *; try discriminate; try lia.
  specialize (IH _ E). lia.
Qed.

Lemma short_state_step vs s i m ss x :
  short_state vs s i m ss ->
  exists ss', get_double ss x = (ss', param_short vs s i x) /\
              short_state vs s (S i) (Nat.pred m) ss'.
Proof.
  unfold param_short. intros [(F & N & L) | (F & L)].
  - destruct m as [| m]; [discriminate N |]. simpl in N.
    pose proof (get_double_next ss x F) as G.
    destruct (next_number ss) as [[ss' v] | s'].
    + destruct G as [G F']. destruct (numbers m ss') as [vs' s''] eqn:N'.
      injection N as E ->. symmetry in E.
      destruct (skipn_cons_nth _ _ _ _ x E) as (A & B & C).
      exists ss'. split.
      * apply Nat.ltb_lt in C. now rewrite C, A.
      * left. rewrite B. repeat split; [exact F' | exact N' | lia].
    + destruct G as (ss' & G & F'). injection N as E <-. symmetry in E.
      apply skipn_nil_length in E.
      assert (i = List.length vs) as -> by lia.
      exists ss'. split.
      * now rewrite Nat.ltb_irrefl, Nat.eqb_refl.
      * right. split; [exact F' | lia].
  - exists ss. split.
    + rewrite (get_double_failed _ _ F).
      destruct (Nat.ltb_spec i (List.length vs)); [lia |].
      destruct (Nat.eqb_spec i (List.length vs)); [lia | reflexivity].
    + right. split; [exact F | lia].
Qed.

(** ** Exact binary64 arithmetic on small integers *)

Lemma digits2_pos_bounds p :
  2 ^ (Zpos (digits2_pos p) - 1) <= Zpos p < 2 ^ Zpos (digits2_pos p).
Proof.
  induction p as [p IH | p IH |]; simpl digits2_pos.
  - rewrite Pos2Z.inj_succ. replace (Z.succ (Zpos (digits2_pos p)) - 1) with (Z.succ (Zpos (digits2_pos p) - 1)) by lia.
    rewrite !Z.pow_succ_r by lia. lia.
  - rewrite Pos2Z.inj_succ. replace (Z.succ (Zpos (digits2_pos p)) - 1) with (Z.succ (Zpos (digits2_pos p) - 1)) by lia.
    rewrite !Z.pow_succ_r by lia. lia.
  - simpl. lia.
Qed.

(** The number of digits is fixed by the value: mantissas of equal
    scaled value have digit counts that differ as the exponents do. *)
Lemma digits2_pos_scaled m e m' e' :
  0 <= e -> 0 <= e' ->
  Zpos m * 2 ^ e = Zpos m' * 2 ^ e' ->
  Zpos (digits2_pos m) + e = Zpos (digits2_pos m') + e'.
Proof.
  intros He He' V.
  pose proof (digits2_pos_bounds m) as [L U].
  pose proof (digits2_pos_bounds m') as [L' U'].
  set (d := Zpos (digits2_pos m)) in *. set (d' := Zpos (digits2_pos m')) in *.
  assert (Hd : 1 <= d) by (unfold d; lia).
  assert (Hd' : 1 <= d') by (unfold d'; lia).
  assert (P : 0 < 2 ^ e) by (apply Z.pow_pos_nonneg; lia).
  assert (P' : 0 < 2 ^ e') by (apply Z.pow_pos_nonneg; lia).
  assert (A : 2 ^ (d - 1 + e) < 2 ^ (d' + e')).
  { rewrite !Z.pow_add_r by lia. nia. }
  assert (B : 2 ^ (d' - 1 + e') < 2 ^ (d + e)).
  { rewrite !Z.pow_add_r by lia. nia. }
  apply Z.pow_lt_mono_r_iff in A; [| lia | lia].
  apply Z.pow_lt_mono_r_iff in B; [| lia | lia].
  lia.
Qed.

Lemma iter_xO_value m d : Zpos (Pos.iter xO m d) = Zpos m * 2 ^ Zpos d.
Proof.
  change (Pos.iter xO m d) with (shift_pos d m).
  rewrite shift_pos_correct, Z.pow_pos_fold. lia.
Qed.

Lemma iter_pos_iter {A} (f : A -> A) n x : iter_pos f n x = Pos.iter f x n.
Proof.
  revert x. induction n as [n IH | n IH |]; intros x; simpl.
  - rewrite !IH. now rewrite <- !Pos.iter_swap.
  - now rewrite !IH.
  - reflexivity.
Qed.

Lemma shr_exact m d :
  iter_pos shr_1 d {| shr_m := Zpos (Pos.iter xO m d); shr_r := false; shr_s := false |}
  = {| shr_m := Zpos m; shr_r := false; shr_s := false |}.
Proof.
  rewrite iter_pos_iter.
  induction d as [| d IH] using Pos.peano_ind.
  - reflexivity.
  - rewrite Pos.iter_succ_r, Pos.iter_succ. simpl. exact IH.
Qed.

(** Rounding a mantissa and exponent whose value a canonical 53-bit
    mantissa represents returns that canonical float.  Values are
    compared after scaling by [2^1074], which makes them integers. *)
Lemma binary_round_exact sx m e m0 e0 :
  Zpos (digits2_pos m0) = 53 -> -1074 <= e0 <= 971 -> -1074 <= e ->
  Zpos m * 2 ^ (e + 1074) = Zpos m0 * 2 ^ (e0 + 1074) ->
  binary_round prec emax sx m e = S754_finite sx m0 e0.
Proof.
  intros D0 B0 Be V.
  assert (Dm : Zpos (digits2_pos m) + e = 53 + e0).
  { pose proof (digits2_pos_scaled m (e + 1074) m0 (e0 + 1074)) as H.
    rewrite D0 in H. specialize (H ltac:(lia) ltac:(lia) V). lia. }
  assert (Fx : fexp prec emax (53 + e0) = e0).
  { unfold fexp, SpecFloat.emin, prec, emax. lia. }
  assert (First : shl_align m e e0 = (m0, e0) \/
                  (shl_align m e e0 = (m, e) /\ e <= e0 /\ Zpos m = Zpos m0 * 2 ^ (e0 - e))).
  { unfold shl_align. destruct (e0 - e) as [| d | d] eqn:Ed.
    - right. repeat split; try lia. assert (e = e0) by lia. subst e.
      rewrite Z.pow_0_r.
      assert (P : 0 < 2 ^ (e0 + 1074)) by (apply Z.pow_pos_nonneg; lia). nia.
    - right. repeat split; try lia.
      replace (e0 + 1074) with (Z.pos d + (e + 1074)) in V by lia.
      rewrite (Z.pow_add_r 2 (Z.pos d) (e + 1074)), Z.mul_assoc in V by lia.
      assert (P : 0 < 2 ^ (e + 1074)) by (apply Z.pow_pos_nonneg; lia).
      apply (Z.mul_reg_r _ _ (2 ^ (e + 1074))); lia.
    - left. f_equal. apply Pos2Z.inj. rewrite iter_xO_value.
      replace (e + 1074) with (Z.pos d + (e0 + 1074)) in V by lia.
      rewrite (Z.pow_add_r 2 (Z.pos d) (e0 + 1074)), Z.mul_assoc in V by lia.
      assert (P : 0 < 2 ^ (e0 + 1074)) by (apply Z.pow_pos_nonneg; lia).
      apply (Z.mul_reg_r _ _ (2 ^ (e0 + 1074))); lia. }
  assert (Sh0 : shr_fexp prec emax (Zpos m0) e0 loc_Exact
                = ({| shr_m := Zpos m0; shr_r := false; shr_s := false |}, e0)).
  { unfold shr_fexp. simpl Zdigits2. now rewrite D0, Fx, Z.sub_diag. }
  assert (Canon : forall m1 e1,
             shr_fexp prec emax (Zpos m1) e1 loc_Exact
             = ({| shr_m := Zpos m0; shr_r := false; shr_s := false |}, e0) ->
             binary_round_aux prec emax sx (Zpos m1) e1 loc_Exact = S754_finite sx m0 e0).
  { intros m1 e1 Sh. unfold binary_round_aux. rewrite Sh.
    cbv beta iota zeta delta [shr_m round_nearest_even loc_of_shr_record].
    rewrite Sh0. cbv beta iota zeta delta [shr_m].
    replace (e0 <=? emax - prec) with true; [reflexivity |].
    symmetry. apply Z.leb_le. unfold emax, prec. lia. }
  unfold binary_round. rewrite Dm, Fx.
  destruct First as [-> | (-> & Le & Vm)]; [now apply Canon |].
  apply Canon.
  destruct (Z.eq_dec e e0) as [-> | Ne].
  - replace m with m0; [exact Sh0 |].
    apply Pos2Z.inj. rewrite Vm, Z.sub_diag. lia.
  - destruct (e0 - e) as [| d | d] eqn:Ed; try lia.
    assert (Em : m = Pos.iter xO m0 d).
    { apply Pos2Z.inj. rewrite iter_xO_value. exact Vm. }
    unfold shr_fexp. simpl Zdigits2. rewrite Dm, Fx, Ed.
    unfold shr. simpl shr_record_of_loc. rewrite Em, shr_exact.
    f_equal. lia.
Qed.

(** Every integer from 1 to [2^53] has a canonical 53-bit mantissa. *)
Lemma canonical_int z :
  1 <= z <= 2 ^ 53 ->
  exists m0 e0, Zpos (digits2_pos m0) = 53 /\ -52 <= e0 <= 1 /\
                z * 2 ^ 1074 = Zpos m0 * 2 ^ (e0 + 1074).
Proof.
  intros [Lo Hi]. destruct z as [| p | p]; try lia.
  pose proof (digits2_pos_bounds p) as [L U].
  set (d := Zpos (digits2_pos p)) in *.
  assert (Hd : 1 <= d) by (unfold d; lia).
  assert (Hd54 : d <= 54).
  { assert (A : 2 ^ (d - 1) < 2 ^ 54) by (change (2 ^ 54) with (2 * 2 ^ 53); lia).
    apply Z.pow_lt_mono_r_iff in A; lia. }
  destruct (Z.eq_dec d 54) as [E54 | N54]; [| destruct (Z.eq_dec d 53) as [E53 | N53]].
  - exists (Z.to_pos (2 ^ 52)), 1. rewrite E54 in L. 
    split; [reflexivity |]. split; [lia |].
    assert (Zpos p = 2 ^ 53) by (change (54 - 1) with 53 in L; lia).
    replace (Zpos p) with (2 ^ 53) by lia. reflexivity.
  - exists p, 0. split; [exact E53 |]. split; [lia |]. reflexivity.
  - destruct (53 - d) as [| j | j] eqn:Ej; try lia.
    exists (Pos.iter xO p j), (- Zpos j). split; [| split; [lia |]].
    + pose proof (digits2_pos_scaled (Pos.iter xO p j) 0 p (Zpos j)) as H.
      rewrite iter_xO_value, Z.pow_0_r, Z.mul_1_r in H.
      specialize (H ltac:(lia) ltac:(lia) eq_refl). fold d in H. lia.
    + rewrite iter_xO_value, <- Z.mul_assoc, <- Z.pow_add_r by lia.
      f_equal. f_equal. lia.
Qed.

Lemma binary_normalize_int z m0 e0 :
  1 <= z ->
  Zpos (digits2_pos m0) = 53 -> -52 <= e0 <= 1 ->
  z * 2 ^ 1074 = Zpos m0 * 2 ^ (e0 + 1074) ->
  binary_normalize prec emax z 0 false = S754_finite false m0 e0.
Proof.
  intros Lo D B V. destruct z as [| p | p]; try lia.
  unfold binary_normalize. apply binary_round_exact; lia.
Qed.

Lemma shl_align_value m e e' :
  e' <= e ->
  exists m', shl_align m e e' = (m', e') /\ Zpos m' = Zpos m * 2 ^ (e - e').
Proof.
  intros Le. unfold shl_align. destruct (e' - e) as [| d | d] eqn:Ed; try lia.
  - assert (e' = e) by lia. subst e'. exists m. split; [reflexivity |].
    rewrite Z.sub_diag. lia.
  - exists (Pos.iter xO m d). split; [reflexivity |].
    rewrite iter_xO_value. f_equal. f_equal. lia.
Qed.

(** Adding two positive integers whose sum is at most [2^53] is exact. *)
Lemma SFadd_int k c :
  1 <= k -> 1 <= c -> k + c <= 2 ^ 53 ->
  SF64add (binary_normalize prec emax k 0 false) (binary_normalize prec emax c 0 false)
  = binary_normalize prec emax (k + c) 0 false.
Proof.
  intros Hk Hc Hs.
  destruct (canonical_int k ltac:(lia)) as (mk & ek & Dk & Bk & Vk).
  destruct (canonical_int c ltac:(lia)) as (mc & ec & Dc & Bc & Vc).
  destruct (canonical_int (k + c) ltac:(lia)) as (ms & es & Ds & Bs & Vs).
  rewrite (binary_normalize_int k mk ek), (binary_normalize_int c mc ec),
          (binary_normalize_int (k + c) ms es) by (assumption || lia).
  unfold SF64add, SFadd. simpl cond_Zopp.
  destruct (shl_align_value mk ek (Z.min ek ec) ltac:(lia)) as (mk' & -> & Vk').
  destruct (shl_align_value mc ec (Z.min ek ec) ltac:(lia)) as (mc' & -> & Vc').
  simpl fst. cbv zeta.
  change (Zpos mk' + Zpos mc') with (Zpos (mk' + mc')).
  unfold binary_normalize. apply binary_round_exact; try lia.
  rewrite Pos2Z.inj_add, Z.mul_add_distr_r, Vk', Vc', <- Vs, Z.mul_add_distr_r, Vk, Vc.
  rewrite <- !Z.mul_assoc, <- !Z.pow_add_r by lia.
  f_equal; f_equal; f_equal; lia.
Qed.

Lemma double_of_Z_spec z :
  0 <= z < 2 ^ 63 -> Prim2SF (double_of_Z z) = binary_normalize prec emax z 0 false.
Proof.
  intros B. unfold double_of_Z. rewrite of_uint63_spec, Uint63.of_Z_spec.
  rewrite Z.mod_small; [reflexivity |]. exact B.
Qed.

Lemma double_of_Z_add k c :
  0 <= k -> 0 <= c -> k + c <= 2 ^ 53 ->
  (double_of_Z k + double_of_Z c)%float = double_of_Z (k + c).
Proof.
  intros Hk Hc Hs. apply Prim2SF_inj.
  rewrite FloatAxioms.add_spec, !double_of_Z_spec by lia.
  destruct (Z.eq_dec k 0) as [-> | Nk]; [| destruct (Z.eq_dec c 0) as [-> | Nc]].
  - simpl (0 + c). destruct (Z.eq_dec c 0) as [-> | Nc]; [reflexivity |].
    destruct (canonical_int c ltac:(lia)) as (mc & ec & Dc & Bc & Vc).
    rewrite (binary_normalize_int c mc ec) by (assumption || lia). reflexivity.
  - rewrite Z.add_0_r.
    destruct (canonical_int k ltac:(lia)) as (mk & ek & Dk & Bk & Vk).
    rewrite (binary_normalize_int k mk ek) by (assumption || lia). reflexivity.
  - apply SFadd_int; lia.
Qed.

(** ** The order of binary64 numbers *)

Lemma SFltb_key f g :
  f <> S754_nan -> g <> S754_nan ->
  (SFltb f g = true <-> key_lt (SF_key f) (SF_key g)).
Proof.
  intros Nf Ng. unfold SFltb, SFcompare.
  destruct f as [s | s | | s m e], g as [s' | s' | | s' m' e']; try congruence;
    try destruct s; try destruct s'; simpl; try (split; [discriminate || lia | lia || reflexivity]);
    change (Pos.compare_cont Eq m m') with (Pos.compare m m');
    destruct (Z.compare_spec e e'), (Pos.compare_spec m m'); simpl;
    split; intros; try discriminate; try reflexivity; try lia.
Qed.

Lemma SFleb_key f g :
  f <> S754_nan -> g <> S754_nan ->
  (SFleb f g = true <-> ~ key_lt (SF_key g) (SF_key f)).
Proof.
  intros Nf Ng. unfold SFleb, SFcompare.
  destruct f as [s | s | | s m e], g as [s' | s' | | s' m' e']; try congruence;
    try destruct s; try destruct s'; simpl; try (split; [discriminate || lia | lia || reflexivity]);
    change (Pos.compare_cont Eq m m') with (Pos.compare m m');
    destruct (Z.compare_spec e e'), (Pos.compare_spec m m'); simpl;
    split; intros; try discriminate; try reflexivity; try lia.
Qed.

Lemma is_nan_Prim2SF x : PrimFloat.is_nan x = false -> Prim2SF x <> S754_nan.
Proof.
  unfold PrimFloat.is_nan. rewrite FloatAxioms.eqb_spec. intros H E.
  rewrite E in H. discriminate.
Qed.

Section FloatOrder.
Variables x y z : float.
Hypothesis Nx : PrimFloat.is_nan x = false.
Hypothesis Ny : PrimFloat.is_nan y = false.
Hypothesis Nz : PrimFloat.is_nan z = false.

Lemma ltb_asym : (x <? y)%float = true -> (y <? x)%float = false.
Proof.
  rewrite !FloatAxioms.ltb_spec. intros H.
  apply SFltb_key in H; auto using is_nan_Prim2SF.
  apply not_true_is_false. intros H'.
  apply SFltb_key in H'; auto using is_nan_Prim2SF.
  unfold key_lt in *. destruct (SF_key (Prim2SF x)) as [[? ?] ?], (SF_key (Prim2SF y)) as [[? ?] ?]. lia.
Qed.

Lemma ltb_negtrans : (y <? x)%float = false -> (z <? y)%float = false -> (z <? x)%float = false.
Proof.
  rewrite !FloatAxioms.ltb_spec. intros H1 H2.
  apply not_true_is_false. intros H3.
  apply SFltb_key in H3; auto using is_nan_Prim2SF.
  apply not_true_iff_false in H1, H2.
  rewrite SFltb_key in H1, H2 by auto using is_nan_Prim2SF.
  unfold key_lt in *.
  destruct (SF_key (Prim2SF x)) as [[? ?] ?], (SF_key (Prim2SF y)) as [[? ?] ?],
           (SF_key (Prim2SF z)) as [[? ?] ?]. lia.
Qed.

Lemma leb_of_not_ltb : (y <? x)%float = false -> (x <=? y)%float = true.
Proof.
  rewrite FloatAxioms.ltb_spec, FloatAxioms.leb_spec. intros H.
  apply SFleb_key; auto using is_nan_Prim2SF.
  apply not_true_iff_false in H.
  now rewrite SFltb_key in H by auto using is_nan_Prim2SF.
Qed.
End FloatOrder.

(** ** Rounding errors of binary64 products and differences *)

Lemma shr_1_nonneg m r s :
  0 <= m ->
  shr_1 {| shr_m := m; shr_r := r; shr_s := s |}
  = {| shr_m := Z.div2 m; shr_r := Z.odd m; shr_s := r || s |}.
Proof.
  intros H. destruct m as [| [p | p |] | p]; try reflexivity; lia.
Qed.

Lemma shr_iter_inv m k :
  0 <= m ->
  shr_inv m (Zpos k) (iter_pos shr_1 k {| shr_m := m; shr_r := false; shr_s := false |}).
Proof.
  intros Hm. rewrite iter_pos_iter.
  induction k as [| k IH] using Pos.peano_ind.
  - cbn [Pos.iter]. rewrite shr_1_nonneg by exact Hm.
    exists 0. cbn [shr_m shr_r shr_s].
    change (2 ^ (1 - 1)) with 1. change (2 ^ 1) with 2.
    repeat split; try lia.
    + pose proof (Z.div2_odd m) as Q. lia.
    + rewrite Z.div2_div. apply Z.div_pos; lia.
  - rewrite Pos.iter_succ.
    destruct (Pos.iter shr_1 _ k) as [q r s].
    destruct IH as (low & Hl & E & Es & Hq). cbn [shr_m shr_r shr_s] in E, Es, Hq.
    rewrite shr_1_nonneg by exact Hq.
    exists (Z.b2z r * 2 ^ (Zpos k - 1) + low).
    cbn [shr_m shr_r shr_s].
    rewrite Pos2Z.inj_succ.
    replace (Z.succ (Zpos k) - 1) with (Zpos k) by lia.
    assert (P : 0 < 2 ^ (Zpos k - 1)) by (apply Z.pow_pos_nonneg; lia).
    assert (P2 : 2 ^ Zpos k = 2 * 2 ^ (Zpos k - 1)).
    { rewrite <- Z.pow_succ_r by lia. f_equal. lia. }
    rewrite Z.pow_succ_r by lia.
    repeat split.
    + destruct r; simpl Z.b2z; lia.
    + destruct r; simpl Z.b2z; lia.
    + rewrite E. pose proof (Z.div2_odd q) as Q.
      set (h := Z.div2 q) in *. set (o := Z.b2z (Z.odd q)) in *.
      rewrite Q. ring.
    + rewrite Es. destruct r; cbn [Z.b2z orb].
      * symmetry. apply negb_true_iff, Z.eqb_neq. lia.
      * rewrite Z.mul_0_l, Z.add_0_l. reflexivity.
    + rewrite Z.div2_div. apply Z.div_pos; lia.
Qed.

(** Rounding to nearest after [k] shifts moves the value by at most
    half a unit of the last place kept. *)
Lemma round_nearest_even_near m k mrs :
  0 < k -> shr_inv m k mrs ->
  shr_m mrs <= round_nearest_even (shr_m mrs) (loc_of_shr_record mrs) <= shr_m mrs + 1 /\
  2 * Z.abs (round_nearest_even (shr_m mrs) (loc_of_shr_record mrs) * 2 ^ k - m) <= 2 ^ k.
Proof.
  intros Hk (low & Hl & E & Es & Hq).
  assert (P : 0 < 2 ^ (k - 1)) by (apply Z.pow_pos_nonneg; lia).
  assert (P2 : 2 ^ k = 2 * 2 ^ (k - 1)).
  { rewrite <- Z.pow_succ_r by lia. f_equal. lia. }
  destruct mrs as [q r s]. cbn [shr_m shr_r shr_s] in *.
  destruct r, s; cbn [Z.b2z] in E; cbn [loc_of_shr_record round_nearest_even].
  - (* above the midpoint *)
    symmetry in Es. apply negb_true_iff, Z.eqb_neq in Es. lia.
  - (* the midpoint *)
    symmetry in Es. apply negb_false_iff, Z.eqb_eq in Es.
    destruct (Z.even q); lia.
  - symmetry in Es. apply negb_true_iff, Z.eqb_neq in Es. lia.
  - symmetry in Es. apply negb_false_iff, Z.eqb_eq in Es. lia.
Qed.

Lemma digits2_pos_unique p n :
  2 ^ (n - 1) <= Zpos p < 2 ^ n -> Zpos (digits2_pos p) = n.
Proof.
  intros [L U]. pose proof (digits2_pos_bounds p) as [L' U'].
  set (d := Zpos (digits2_pos p)) in *.
  assert (Hd : 1 <= d) by (unfold d; lia).
  assert (Hn : 1 <= n).
  { destruct (Z_lt_le_dec n 1) as [Lt | Ge]; [| exact Ge].
    assert (n <= 0) by lia.
    destruct (Z.eq_dec n 0) as [-> | Ne]; [simpl in U; lia |].
    rewrite Z.pow_neg_r in U by lia. lia. }
  assert (A : 2 ^ (d - 1) < 2 ^ n) by lia.
  assert (B : 2 ^ (n - 1) < 2 ^ d) by lia.
  apply Z.pow_lt_mono_r_iff in A; [| lia | lia].
  apply Z.pow_lt_mono_r_iff in B; [| lia | lia].
  lia.
Qed.

Lemma fexp_normal x : -1021 <= x -> fexp prec emax x = x - 53.
Proof.
  intros H. unfold fexp, SpecFloat.emin, prec, emax. lia.
Qed.

(** A mantissa of 53 digits in the range of the normal numbers is kept
    as it is. *)
Lemma shr_fexp_canonical m e :
  Zpos (digits2_pos m) = 53 -> -1074 <= e ->
  shr_fexp prec emax (Zpos m) e loc_Exact
  = ({| shr_m := Zpos m; shr_r := false; shr_s := false |}, e).
Proof.
  intros D B. unfold shr_fexp. cbn [Zdigits2]. rewrite D, fexp_normal by lia.
  replace (53 + e - 53 - e) with 0 by lia. reflexivity.
Qed.

Lemma binary_round_aux_canonical sx m e :
  Zpos (digits2_pos m) = 53 -> -1074 <= e <= 971 ->
  binary_round_aux prec emax sx (Zpos m) e loc_Exact = S754_finite sx m e.
Proof.
  intros D B. unfold binary_round_aux.
  rewrite shr_fexp_canonical by (exact D || lia).
  cbn [shr_m loc_of_shr_record round_nearest_even].
  rewrite shr_fexp_canonical by (exact D || lia).
  cbn [shr_m].
  replace (e <=? emax - prec) with true; [reflexivity |].
  symmetry. apply Z.leb_le. unfold emax, prec. lia.
Qed.

(** Rounding in the range of the normal numbers: the result is a
    normal number whose value is within a relative error of [2^-53] of
    the value rounded. *)
Lemma binary_round_aux_normal sx m e :
  53 <= Zpos (digits2_pos m) ->
  -1021 <= Zpos (digits2_pos m) + e <= 1023 ->
  exists m' e',
    binary_round_aux prec emax sx (Zpos m) e loc_Exact = S754_finite sx m' e' /\
    Zpos (digits2_pos m') = 53 /\ e <= e' /\ -1074 <= e' <= 971 /\
    Zpos (digits2_pos m) + e - 53 <= e' <= Zpos (digits2_pos m) + e - 52 /\
    2 ^ 53 * Z.abs (Zpos m' * 2 ^ (e' - e) - Zpos m) <= Zpos m.
Proof.
  intros D53 R.
  pose proof (digits2_pos_bounds m) as [L U].
  set (d := Zpos (digits2_pos m)) in *.
  destruct (Z.eq_dec d 53) as [E53 | N53].
  - exists m, e. rewrite binary_round_aux_canonical by (fold d; lia).
    repeat split; try lia.
    rewrite Z.sub_diag, Z.pow_0_r, Z.mul_1_r, Z.sub_diag. simpl. lia.
  - destruct (d - 53) as [| k | k] eqn:Ek; try lia.
    assert (Pk : 0 < 2 ^ (Zpos k - 1)) by (apply Z.pow_pos_nonneg; lia).
    assert (Pk2 : 2 ^ Zpos k = 2 * 2 ^ (Zpos k - 1)).
    { rewrite <- Z.pow_succ_r by lia. f_equal. lia. }
    assert (Pd : 2 ^ (d - 1) = 2 ^ 52 * 2 ^ Zpos k).
    { rewrite <- Z.pow_add_r by lia. f_equal. lia. }
    assert (Pd' : 2 ^ d = 2 ^ 53 * 2 ^ Zpos k).
    { rewrite <- Z.pow_add_r by lia. f_equal. lia. }
    assert (Sh : shr_fexp prec emax (Zpos m) e loc_Exact
                 = (iter_pos shr_1 k {| shr_m := Zpos m; shr_r := false; shr_s := false |},
                    e + Zpos k)).
    { unfold shr_fexp. cbn [Zdigits2]. fold d. rewrite fexp_normal by lia.
      replace (d + e - 53 - e) with (Zpos k) by lia. reflexivity. }
    pose proof (shr_iter_inv (Zpos m) k ltac:(lia)) as Inv.
    destruct (round_nearest_even_near (Zpos m) (Zpos k) _ ltac:(lia) Inv) as [Rb Rn].
    destruct Inv as (low & Hl & E & Es & Hq).
    set (mrs := iter_pos shr_1 k {| shr_m := Zpos m; shr_r := false; shr_s := false |}) in *.
    set (mr := round_nearest_even (shr_m mrs) (loc_of_shr_record mrs)) in *.
    assert (Q52 : 2 ^ 52 <= shr_m mrs < 2 ^ 53).
    { assert (B : 0 <= Z.b2z (shr_r mrs) <= 1) by (destruct (shr_r mrs); simpl; lia).
      split; nia. }
    destruct mr as [| pm | pm] eqn:Emr; try lia.
    unfold binary_round_aux. rewrite Sh. fold mr. rewrite Emr.
    destruct (Z.eq_dec (Zpos pm) (2 ^ 53)) as [Carry | NoCarry].
    + exists (Z.to_pos (2 ^ 52)), (e + Zpos k + 1).
      assert (Epm : pm = Z.to_pos (2 ^ 53)) by (apply Pos2Z.inj; rewrite Carry; reflexivity).
      assert (Sh2 : shr_fexp prec emax (Zpos pm) (e + Zpos k) loc_Exact
                    = ({| shr_m := 2 ^ 52; shr_r := false; shr_s := false |}, e + Zpos k + 1)).
      { unfold shr_fexp. cbn [Zdigits2]. rewrite Epm.
        change (Zpos (digits2_pos (Z.to_pos (2 ^ 53)))) with 54.
        rewrite fexp_normal by lia.
        replace (54 + (e + Zpos k) - 53 - (e + Zpos k)) with 1 by lia. reflexivity. }
      rewrite Sh2. cbn [shr_m]. change (2 ^ 52) with (Zpos (Z.to_pos (2 ^ 52))).
      replace (e + Zpos k + 1 <=? emax - prec) with true
        by (symmetry; apply Z.leb_le; unfold emax, prec; lia).
      repeat split; try lia.
      replace (e + Zpos k + 1 - e) with (Z.succ (Zpos k)) by lia.
      rewrite Z.pow_succ_r by lia.
      change (Zpos (Z.to_pos (2 ^ 52))) with (2 ^ 52).
      replace (2 ^ 52 * (2 * 2 ^ Zpos k)) with (Zpos pm * 2 ^ Zpos k)
        by (rewrite Carry; change (2 ^ 53) with (2 * 2 ^ 52); ring).
      change (2 ^ 53) with (2 * 2 ^ 52) at 1. nia.
    + exists pm, (e + Zpos k).
      assert (Dpm : Zpos (digits2_pos pm) = 53) by (apply digits2_pos_unique; lia).
      rewrite shr_fexp_canonical by (exact Dpm || lia). cbn [shr_m].
      replace (e + Zpos k <=? emax - prec) with true
        by (symmetry; apply Z.leb_le; unfold emax, prec; lia).
      repeat split; try lia.
      replace (e + Zpos k - e) with (Zpos k) by lia.
      change (2 ^ 53) with (2 * 2 ^ 52). nia.
Qed.

Lemma Qpower_2_pos e : (0 < 2 ^ e)%Q.
Proof.
  apply Qpower_0_lt. reflexivity.
Qed.

Lemma Qpower_2_split e e' : e <= e' -> (2 ^ e' == inject_Z (2 ^ (e' - e)) * 2 ^ e)%Q.
Proof.
  intros H. rewrite Zpower_Qpower by lia.
  rewrite <- Qpower_plus by discriminate.
  replace (e' - e + e) with e' by lia. reflexivity.
Qed.

(** From scaled integers to rationals. *)
Lemma relative_error_Q M e m' e' :
  e <= e' ->
  2 ^ 53 * Z.abs (Zpos m' * 2 ^ (e' - e) - Zpos M) <= Zpos M ->
  (Qabs (inject_Z (Zpos m') * 2 ^ e' - inject_Z (Zpos M) * 2 ^ e)
   <= (1 # 2 ^ 53) * (inject_Z (Zpos M) * 2 ^ e))%Q.
Proof.
  intros Le H.
  pose proof (Qpower_2_pos e) as T.
  pose proof (Qpower_2_split e e' Le) as S.
  set (D := Zpos m' * 2 ^ (e' - e) - Zpos M) in *.
  assert (HD : (inject_Z (Zpos m') * inject_Z (2 ^ (e' - e)) - inject_Z (Zpos M)
                == inject_Z D)%Q).
  { unfold D. rewrite <- inject_Z_mult. unfold Qminus. rewrite <- inject_Z_opp, <- inject_Z_plus.
    reflexivity. }
  assert (H1 : (inject_Z (2 ^ 53) * inject_Z D <= inject_Z (Zpos M))%Q).
  { rewrite <- inject_Z_mult, <- Zle_Qle. lia. }
  assert (H2 : (- inject_Z (Zpos M) <= inject_Z (2 ^ 53) * inject_Z D)%Q).
  { rewrite <- inject_Z_mult, <- inject_Z_opp, <- Zle_Qle. lia. }
  change (inject_Z (2 ^ 53)) with (9007199254740992 # 1)%Q in H1, H2.
  change (1 # 2 ^ 53)%Q with (1 # 9007199254740992)%Q.
  apply Qabs_Qle_condition. rewrite S.
  set (t := (2 ^ e)%Q) in *. set (a := inject_Z (Zpos m')) in *.
  set (b := inject_Z (2 ^ (e' - e))) in *. set (c := inject_Z (Zpos M)) in *.
  set (d := inject_Z D) in *.
  assert (E : (a * (b * t) - c * t == d * t)%Q).
  { rewrite <- HD. ring. }
  rewrite E. split; nra.
Qed.

Lemma digits2_pos_mul m1 m2 :
  Zpos (digits2_pos m1) = 53 -> Zpos (digits2_pos m2) = 53 ->
  105 <= Zpos (digits2_pos (m1 * m2)) <= 106.
Proof.
  intros D1 D2.
  pose proof (digits2_pos_bounds m1) as [L1 U1]. rewrite D1 in L1, U1.
  pose proof (digits2_pos_bounds m2) as [L2 U2]. rewrite D2 in L2, U2.
  pose proof (digits2_pos_bounds (m1 * m2)) as [L U].
  set (d := Zpos (digits2_pos (m1 * m2))) in *.
  assert (Hd : 1 <= d) by (unfold d; lia).
  rewrite Pos2Z.inj_mul in L, U.
  change (2 ^ (53 - 1)) with (2 ^ 52) in *.
  assert (A : 2 ^ (d - 1) < 2 ^ 106) by (change (2 ^ 106) with (2 ^ 53 * 2 ^ 53); nia).
  assert (B : 2 ^ 104 < 2 ^ d) by (change (2 ^ 104) with (2 ^ 52 * 2 ^ 52); nia).
  apply Z.pow_lt_mono_r_iff in A; [| lia | lia].
  apply Z.pow_lt_mono_r_iff in B; [| lia | lia].
  lia.
Qed.

(** The product of two positive normal numbers, when it is in the
    range of the normal numbers, is within a relative error of [2^-53]
    of the exact product. *)
Lemma mul_normal l1 h1 l2 h2 x y :
  normal_between l1 h1 x -> normal_between l2 h2 y ->
  -1074 <= l1 + l2 + 52 -> h1 + h2 + 54 <= 971 ->
  normal_between (l1 + l2 + 52) (h1 + h2 + 54) (x * y)%float /\
  (Qabs (exact (x * y)%float - exact x * exact y) <= (1 # 2 ^ 53) * (exact x * exact y))%Q.
Proof.
  intros (m1 & e1 & E1 & D1 & B1) (m2 & e2 & E2 & D2 & B2) Lo Hi.
  pose proof (digits2_pos_mul m1 m2 D1 D2) as Dm.
  destruct (binary_round_aux_normal false (m1 * m2) (e1 + e2) ltac:(lia) ltac:(lia))
    as (m' & e' & R & D' & Le & B' & Be & Err).
  assert (E : Prim2SF (x * y)%float = S754_finite false m' e').
  { rewrite FloatAxioms.mul_spec, E1, E2. exact R. }
  split.
  - exists m', e'. repeat split; [exact E | exact D' | lia | lia].
  - unfold exact. rewrite E, E1, E2. cbn [SF2Q].
    pose proof (relative_error_Q _ _ _ _ Le Err) as H.
    rewrite Pos2Z.inj_mul, inject_Z_mult in H.
    rewrite (Qpower_plus 2 e1 e2) in H by discriminate.
    set (a := (inject_Z (Zpos m') * 2 ^ e')%Q) in *.
    set (b1 := inject_Z (Zpos m1)) in *. set (b2 := inject_Z (Zpos m2)) in *.
    set (t1 := (2 ^ e1)%Q) in *. set (t2 := (2 ^ e2)%Q) in *.
    assert (X : (b1 * b2 * (t1 * t2) == b1 * t1 * (b2 * t2))%Q) by ring.
    rewrite X in H. exact H.
Qed.

(** Doubles between two powers of two are positive normal numbers. *)
Lemma normal_between_powers (r : float) :
  (0x1p-500 <=? r)%float = true -> (r <=? 0x1p+500)%float = true ->
  normal_between (-552) 448 r.
Proof.
  rewrite !FloatAxioms.leb_spec. intros Lo Hi.
  pose proof (Prim2SF_valid r) as V.
  change (Prim2SF 0x1p-500) with (S754_finite false (Z.to_pos (2 ^ 52)) (-552)) in Lo.
  change (Prim2SF 0x1p+500) with (S754_finite false (Z.to_pos (2 ^ 52)) 448) in Hi.
  destruct (Prim2SF r) as [s | s | | s m e] eqn:E; try discriminate.
  - destruct s; discriminate.
  - destruct s; [discriminate |].
    unfold SFleb, SFcompare in Lo, Hi.
    assert (Be : -552 <= e <= 448).
    { destruct (Z.compare_spec (-552) e), (Z.compare_spec e 448); try lia; discriminate. }
    exists m, e. split; [exact E |]. split; [| lia].
    unfold valid_binary, bounded, canonical_mantissa in V.
    apply andb_prop in V. destruct V as [V _]. apply Z.eqb_eq in V.
    unfold fexp, SpecFloat.emin, prec, emax in V. lia.
Qed.

Lemma normal_between_exact_pos lo hi x : normal_between lo hi x -> (0 < exact x)%Q.
Proof.
  intros (m & e & E & _). unfold exact. rewrite E. cbn [SF2Q].
  pose proof (Qpower_2_pos e) as T.
  assert (P : (0 < inject_Z (Zpos m))%Q) by reflexivity.
  nra.
Qed.

Lemma normal_between_finite lo hi x : normal_between lo hi x -> PrimFloat.is_finite x = true.
Proof.
  intros (m & e & E & _).
  unfold PrimFloat.is_finite, PrimFloat.is_nan, PrimFloat.is_infinity.
  rewrite FloatAxioms.eqb_spec, FloatAxioms.eqb_spec, FloatAxioms.abs_spec, E.
  unfold SFeqb, SFcompare. cbn [SFabs].
  change (Prim2SF infinity) with (S754_infinity false). cbn iota.
  change (Pos.compare_cont Eq m m) with (Pos.compare m m).
  now rewrite Z.compare_refl, Pos.compare_refl.
Qed.

Lemma normal_3_14159 : normal_between (-51) (-51) 3.14159%float.
Proof.
  exists 7074231776675438%positive, (-51). split; [reflexivity | split; [reflexivity | lia]].
Qed.

Lemma normal_6_28318 : normal_between (-50) (-50) (2 * 3.14159)%float.
Proof.
  exists 7074231776675438%positive, (-50). split; [reflexivity | split; [reflexivity | lia]].
Qed.

Lemma exact_3_14159 : (3.14158999999999 <= exact 3.14159%float <= 3.14159000000001)%Q.
Proof.
  split; vm_compute; discriminate.
Qed.

Lemma exact_6_28318 : (exact (2 * 3.14159)%float == 2 * exact 3.14159%float)%Q.
Proof.
  vm_compute. reflexivity.
Qed.

Lemma Qpower_2_le a b : a <= b -> (2 ^ a <= 2 ^ b)%Q.
Proof.
  intros H. rewrite (Qpower_2_split a b H).
  pose proof (Qpower_2_pos a) as T.
  assert (K : (1 <= inject_Z (2 ^ (b - a)))%Q).
  { change 1%Q with (inject_Z 1). rewrite <- Zle_Qle.
    assert (0 < 2 ^ (b - a)) by (apply Z.pow_pos_nonneg; lia). lia. }
  nra.
Qed.

Lemma Qpower_2_lt_inv a b : (2 ^ a < 2 ^ b)%Q -> a < b.
Proof.
  intros H. destruct (Z_lt_le_dec a b) as [Lt | Ge]; [exact Lt |].
  pose proof (Qpower_2_le b a Ge). lra.
Qed.

(** The value of a mantissa and an exponent lies between the powers
    of two its number of digits gives. *)
Lemma value_bounds M e :
  (2 ^ (Zpos (digits2_pos M) + e - 1) <= inject_Z (Zpos M) * 2 ^ e
   < 2 ^ (Zpos (digits2_pos M) + e))%Q.
Proof.
  pose proof (digits2_pos_bounds M) as [L U].
  set (d := Zpos (digits2_pos M)) in *.
  assert (Hd : 1 <= d) by (unfold d; lia).
  pose proof (Qpower_2_pos e) as T.
  replace (d + e - 1) with ((d - 1) + e) by lia.
  assert (E1 : (2 ^ (d - 1 + e) == inject_Z (2 ^ (d - 1)) * 2 ^ e)%Q).
  { rewrite Zpower_Qpower by lia. apply Qpower_plus. discriminate. }
  assert (E2 : (2 ^ (d + e) == inject_Z (2 ^ d) * 2 ^ e)%Q).
  { rewrite Zpower_Qpower by lia. apply Qpower_plus. discriminate. }
  rewrite E1, E2.
  rewrite Zle_Qle in L. rewrite Zlt_Qlt in U.
  split; nra.
Qed.

(** Rounding a mantissa and an exponent whose value lies in the range
    of the normal numbers, whatever the length of the mantissa. *)
Lemma binary_round_normal sx M e :
  -1021 <= Zpos (digits2_pos M) + e <= 1023 -> -1074 <= e ->
  exists m' e',
    binary_round prec emax sx M e = S754_finite sx m' e' /\
    Zpos (digits2_pos m') = 53 /\ -1074 <= e' <= 971 /\
    (Qabs (inject_Z (Zpos m') * 2 ^ e' - inject_Z (Zpos M) * 2 ^ e)
     <= (1 # 2 ^ 53) * (inject_Z (Zpos M) * 2 ^ e))%Q.
Proof.
  intros R Be.
  set (d := Zpos (digits2_pos M)) in *.
  destruct (Z_lt_le_dec d 53) as [Short | Long].
  - destruct (53 - d) as [| j | j] eqn:Ej; try lia.
    exists (Pos.iter xO M j), (e - Zpos j).
    assert (Dj : Zpos (digits2_pos (Pos.iter xO M j)) = 53).
    { pose proof (digits2_pos_scaled (Pos.iter xO M j) 0 M (Zpos j)) as H.
      rewrite iter_xO_value, Z.pow_0_r, Z.mul_1_r in H.
      specialize (H ltac:(lia) ltac:(lia) eq_refl). fold d in H. lia. }
    split; [| split; [exact Dj | split; [lia |]]].
    + apply binary_round_exact; try lia.
      rewrite iter_xO_value, <- Z.mul_assoc, <- Z.pow_add_r by lia.
      f_equal. f_equal. lia.
    + rewrite iter_xO_value, inject_Z_mult.
      rewrite (Qpower_2_split (e - Zpos j) e) by lia.
      replace (e - (e - Zpos j)) with (Zpos j) by lia.
      pose proof (Qpower_2_pos (e - Zpos j)) as T.
      set (t := (2 ^ (e - Zpos j))%Q) in *.
      set (a := inject_Z (Zpos M)) in *. set (b := inject_Z (2 ^ Zpos j)) in *.
      assert (Pa : (0 < a)%Q) by reflexivity.
      assert (Pb : (0 < b)%Q).
      { unfold b. change 0%Q with (inject_Z 0). rewrite <- Zlt_Qlt.
        apply Z.pow_pos_nonneg; lia. }
      assert (E : (a * b * t - a * (b * t) == 0)%Q) by ring.
      rewrite E. change (Qabs 0) with 0%Q.
      change (1 # 2 ^ 53)%Q with (1 # 9007199254740992)%Q.
      assert (0 < a * (b * t))%Q by (repeat apply Qmult_lt_0_compat; assumption).
      lra.
  - assert (Sh : shl_align M e (fexp prec emax (d + e)) = (M, e)).
    { rewrite fexp_normal by lia. unfold shl_align.
      destruct (d + e - 53 - e) eqn:Ed; try reflexivity. lia. }
    destruct (binary_round_aux_normal sx M e ltac:(fold d; lia) ltac:(fold d; lia))
      as (m' & e' & Rd & D' & Le & B' & _ & Err).
    exists m', e'. unfold binary_round. fold d. rewrite Sh.
    split; [exact Rd | split; [exact D' | split; [exact B' |]]].
    now apply relative_error_Q.
Qed.

Lemma aligned_value m e e' m' :
  e' <= e -> Zpos m' = Zpos m * 2 ^ (e - e') ->
  (inject_Z (Zpos m') * 2 ^ e' == inject_Z (Zpos m) * 2 ^ e)%Q.
Proof.
  intros Le V. rewrite V, inject_Z_mult, (Qpower_2_split e' e Le). ring.
Qed.

(** The difference of two positive normal numbers, the smaller first,
    when it is in the range of the normal numbers: a negative normal
    number within a relative error of [2^-53] of the exact difference. *)
Lemma sub_normal lx hx ly hy x y :
  normal_between lx hx x -> normal_between ly hy y ->
  -1074 <= lx -> -1074 <= ly -> hy <= 970 ->
  (2 ^ (-1021) <= exact y - exact x)%Q ->
  exists m e,
    Prim2SF (x - y)%float = S754_finite true m e /\
    Zpos (digits2_pos m) = 53 /\ -1074 <= e <= 971 /\
    (Qabs (inject_Z (Zpos m) * 2 ^ e - (exact y - exact x))
     <= (1 # 2 ^ 53) * (exact y - exact x))%Q.
Proof.
  intros (mx & ex & Ex & Dx & Bx) (my & ey & Ey & Dy & By) Lx Ly Hy Lo.
  unfold exact in *. rewrite Ex, Ey in *. cbn [SF2Q] in *.
  rewrite FloatAxioms.sub_spec, Ex, Ey. unfold SF64sub, SFsub. cbn [cond_Zopp].
  destruct (shl_align_value mx ex (Z.min ex ey) ltac:(lia)) as (mx' & -> & Vx).
  destruct (shl_align_value my ey (Z.min ex ey) ltac:(lia)) as (my' & -> & Vy).
  cbn [fst]. cbv zeta.
  set (ez := Z.min ex ey) in *.
  pose proof (aligned_value mx ex ez mx' ltac:(lia) Vx) as Qx.
  pose proof (aligned_value my ey ez my' ltac:(lia) Vy) as Qy.
  pose proof (Qpower_2_pos ez) as T.
  assert (P1021 : (0 < 2 ^ (-1021))%Q) by apply Qpower_2_pos.
  assert (Lt : Zpos mx' < Zpos my').
  { rewrite Zlt_Qlt. rewrite <- Qx, <- Qy in Lo. nra. }
  destruct (Zpos mx' - Zpos my') as [| M | M] eqn:EM; try lia.
  assert (VM : (inject_Z (Zpos M) * 2 ^ ez
                == inject_Z (Zpos my) * 2 ^ ey - inject_Z (Zpos mx) * 2 ^ ex)%Q).
  { rewrite <- Qx, <- Qy. replace (Zpos M) with (Zpos my' - Zpos mx') by lia.
    unfold Z.sub. rewrite inject_Z_plus, inject_Z_opp. ring. }
  unfold binary_normalize.
  pose proof (value_bounds M ez) as [VL VU].
  pose proof (value_bounds my ey) as [_ YU]. rewrite Dy in YU.
  assert (PX : (0 < inject_Z (Zpos mx) * 2 ^ ex)%Q).
  { apply Qmult_lt_0_compat; [reflexivity | apply Qpower_2_pos]. }
  assert (R1 : -1021 < Zpos (digits2_pos M) + ez).
  { apply Qpower_2_lt_inv. lra. }
  assert (R2 : Zpos (digits2_pos M) + ez - 1 < 53 + ey).
  { apply Qpower_2_lt_inv. lra. }
  destruct (binary_round_normal true M ez ltac:(lia) ltac:(lia))
    as (m' & e' & Rd & D' & B' & Err).
  exists m', e'. split; [exact Rd | split; [exact D' | split; [exact B' |]]].
  rewrite <- VM. exact Err.
Qed.

(** Two positive normal numbers compare as their values do. *)
Lemma SFleb_normal m1 e1 m2 e2 :
  Zpos (digits2_pos m1) = 53 -> Zpos (digits2_pos m2) = 53 ->
  (inject_Z (Zpos m1) * 2 ^ e1 <= inject_Z (Zpos m2) * 2 ^ e2)%Q ->
  SFleb (S754_finite false m1 e1) (S754_finite false m2 e2) = true.
Proof.
  intros D1 D2 H.
  pose proof (digits2_pos_bounds m1) as [L1 U1]. rewrite D1 in L1, U1.
  pose proof (digits2_pos_bounds m2) as [L2 U2]. rewrite D2 in L2, U2.
  change (2 ^ (53 - 1)) with (2 ^ 52) in *.
  unfold SFleb, SFcompare.
  change (Pos.compare_cont Eq m1 m2) with (Pos.compare m1 m2).
  destruct (Z.compare_spec e1 e2) as [E | Lt | Gt]; [| reflexivity |].
  - subst e2. pose proof (Qpower_2_pos e1) as T.
    assert (Le : Zpos m1 <= Zpos m2).
    { rewrite Zle_Qle. nra. }
    destruct (Pos.compare_spec m1 m2); try reflexivity. lia.
  - exfalso.
    rewrite (Qpower_2_split e2 e1) in H by lia.
    pose proof (Qpower_2_pos e2) as T.
    assert (K : 2 <= 2 ^ (e1 - e2)).
    { change 2 with (2 ^ 1) at 1. apply Z.pow_le_mono_r; lia. }
    assert (Le : Zpos m1 * 2 ^ (e1 - e2) <= Zpos m2).
    { rewrite Zle_Qle, inject_Z_mult. nra. }
    nia.
Qed.

Lemma normal_between_abs lo hi x :
  normal_between lo hi x ->
  normal_between lo hi (PrimFloat.abs x) /\ exact (PrimFloat.abs x) = exact x.
Proof.
  intros (m & e & E & D & B).
  assert (A : Prim2SF (PrimFloat.abs x) = S754_finite false m e).
  { now rewrite FloatAxioms.abs_spec, E. }
  split.
  - exists m, e. now repeat split.
  - unfold exact. now rewrite A, E.
Qed.

(** The test [|a - p| <= tol * |p|], evaluated in binary64, succeeds
    when the exact values pass it with a margin for the roundings. *)
Lemma within_tolerance_normal tol a p lt ht la ha lp hp :
  normal_between lt ht tol -> normal_between la ha a -> normal_between lp hp p ->
  -1074 <= la -> -1074 <= lp -> hp <= 970 ->
  -1074 <= lt + lp + 52 -> ht + hp + 54 <= 971 ->
  (2 ^ (-1021) <= exact p - exact a)%Q ->
  ((1 + (1 # 2 ^ 53)) * (exact p - exact a)
   <= (1 - (1 # 2 ^ 53)) * (exact tol * exact p))%Q ->
  within_tolerance tol a p = true.
Proof.
  intros Nt Na Np La Lp Hp Lo Hi D Margin.
  destruct (sub_normal _ _ _ _ _ _ Na Np La Lp Hp D) as (md & ed & Ed & Dd & Bd & Errd).
  destruct (normal_between_abs _ _ _ Np) as [Nabs Eabs].
  destruct (mul_normal _ _ _ _ _ _ Nt Nabs Lo Hi) as [(mt & et & Et & Dt & Bt) Errt].
  unfold within_tolerance.
  rewrite FloatAxioms.leb_spec, FloatAxioms.abs_spec, Ed, Et. cbn [SFabs].
  apply SFleb_normal; [exact Dd | exact Dt |].
  unfold exact at 1 in Errt. rewrite Et in Errt. cbn [SF2Q] in Errt.
  rewrite Eabs in Errt.
  apply Qabs_Qle_condition in Errd, Errt.
  change (1 # 2 ^ 53)%Q with (1 # 9007199254740992)%Q in *.
  set (vd := (inject_Z (Zpos md) * 2 ^ ed)%Q) in *.
  set (vt := (inject_Z (Zpos mt) * 2 ^ et)%Q) in *.
  set (d := (exact p - exact a)%Q) in *.
  set (tp := (exact tol * exact p)%Q) in *.
  lra.
Qed.

Lemma normal_M_PI : normal_between (-51) (-51) M_PI.
Proof.
  exists 7074237752028440%positive, (-51). split; [reflexivity | split; [reflexivity | lia]].
Qed.

Lemma normal_2_M_PI : normal_between (-50) (-50) (2 * M_PI)%float.
Proof.
  exists 7074237752028440%positive, (-50). split; [reflexivity | split; [reflexivity | lia]].
Qed.

Lemma normal_1e_6 : normal_between (-72) (-72) 1e-6%float.
Proof.
  exists 4722366482869645%positive, (-72). split; [reflexivity | split; [reflexivity | lia]].
Qed.

Lemma exact_M_PI : (3.14159265358979 <= exact M_PI <= 3.14159265358980)%Q.
Proof.
  split; vm_compute; discriminate.
Qed.

Lemma exact_2_M_PI : (exact (2 * M_PI)%float == 2 * exact M_PI)%Q.
Proof.
  vm_compute. reflexivity.
Qed.

Lemma exact_1e_6 : (0.00000099999999 <= exact 1e-6%float)%Q.
Proof.
  vm_compute. discriminate.
Qed.

Lemma exact_at_least lo hi x :
  normal_between lo hi x -> (2 ^ (lo + 52) <= exact x)%Q.
Proof.
  intros (m & e & E & D & B). unfold exact. rewrite E. cbn [SF2Q].
  pose proof (value_bounds m e) as [L _]. rewrite D in L.
  pose proof (Qpower_2_le (lo + 52) (53 + e - 1) ltac:(lia)). lra.
Qed.

(** A positive normal constant times the radius, and times the radius
    again: the value of the product, up to the two roundings. *)
Lemma times_radius_twice k r lk hk :
  normal_between lk hk k -> normal_between (-552) 448 r ->
  -1074 <= lk + -552 + 52 + -552 + 52 -> hk + 448 + 54 + 448 + 54 <= 971 ->
  normal_between (lk + -552 + 52 + -552 + 52) (hk + 448 + 54 + 448 + 54) (k * r * r)%float /\
  ((1 - (1 # 2 ^ 53)) * ((1 - (1 # 2 ^ 53)) * (exact k * (exact r * exact r)))
   <= exact (k * r * r)%float
   <= (1 + (1 # 2 ^ 53)) * ((1 + (1 # 2 ^ 53)) * (exact k * (exact r * exact r))))%Q.
Proof.
  intros Nk Nr Lo Hi.
  pose proof (normal_between_exact_pos _ _ _ Nr) as Px.
  pose proof (normal_between_exact_pos _ _ _ Nk) as Pk.
  destruct (mul_normal _ _ _ _ _ _ Nk Nr ltac:(lia) ltac:(lia)) as [N1 E1].
  destruct (mul_normal _ _ _ _ _ _ N1 Nr ltac:(lia) ltac:(lia)) as [N2 E2].
  split; [exact N2 |].
  apply Qabs_Qle_condition in E1, E2.
  change (1 # 2 ^ 53)%Q with (1 # 9007199254740992)%Q in *.
  set (x := exact r) in *. set (c := exact k) in *.
  set (a1 := exact (k * r)%float) in *. set (a := exact (k * r * r)%float) in *.
  assert (Pcx : (0 < c * x)%Q) by (apply Qmult_lt_0_compat; assumption).
  set (cx := (c * x)%Q) in *.
  set (u := (1 # 9007199254740992)%Q) in *.
  assert (A1x : ((1 - u) * (cx * x) <= a1 * x <= (1 + u) * (cx * x))%Q).
  { destruct E1 as [E1l E1h]. split; nra. }
  assert (Ecz : (cx * x == c * (x * x))%Q) by (unfold cx; ring).
  rewrite Ecz in A1x.
  set (a1x := (a1 * x)%Q) in *. set (cz := (c * (x * x))%Q) in *.
  subst u. split; lra.
Qed.

Lemma times_radius k r lk hk :
  normal_between lk hk k -> normal_between (-552) 448 r ->
  -1074 <= lk + -552 + 52 -> hk + 448 + 54 <= 971 ->
  normal_between (lk + -552 + 52) (hk + 448 + 54) (k * r)%float /\
  ((1 - (1 # 2 ^ 53)) * (exact k * exact r)
   <= exact (k * r)%float
   <= (1 + (1 # 2 ^ 53)) * (exact k * exact r))%Q.
Proof.
  intros Nk Nr Lo Hi.
  destruct (mul_normal _ _ _ _ _ _ Nk Nr ltac:(lia) ltac:(lia)) as [N1 E1].
  split; [exact N1 |].
  apply Qabs_Qle_condition in E1.
  change (1 # 2 ^ 53)%Q with (1 # 9007199254740992)%Q in *.
  set (kx := (exact k * exact r)%Q) in *.
  split; lra.
Qed.

Lemma Circle_within_tolerance (r : float) :
  (0x1p-500 <=? r)%float = true -> (r <=? 0x1p+500)%float = true ->
  within_tolerance 1e-6 (area (Circle r)) (M_PI * r * r) = true /\
  within_tolerance 1e-6 (perimeter (Circle r)) (2 * M_PI * r) = true.
Proof.
  intros Lo Hi.
  pose proof (normal_between_powers r Lo Hi) as Nr.
  pose proof (normal_between_exact_pos _ _ _ Nr) as Px.
  pose proof (exact_at_least _ _ _ Nr) as Xl. change (-552 + 52) with (-500) in Xl.
  destruct (times_radius_twice _ _ _ _ normal_3_14159 Nr ltac:(lia) ltac:(lia)) as [Na Ba].
  destruct (times_radius_twice _ _ _ _ normal_M_PI Nr ltac:(lia) ltac:(lia)) as [Np Bp].
  destruct (times_radius _ _ _ _ normal_6_28318 Nr ltac:(lia) ltac:(lia)) as [Na' Ba'].
  destruct (times_radius _ _ _ _ normal_2_M_PI Nr ltac:(lia) ltac:(lia)) as [Np' Bp'].
  change (area (Circle r)) with (3.14159 * r * r)%float.
  change (perimeter (Circle r)) with (2 * 3.14159 * r)%float.
  pose proof exact_3_14159 as [Cl Ch]. pose proof exact_M_PI as [Pl Ph].
  pose proof exact_1e_6 as Tl.
  rewrite exact_6_28318 in Ba'. rewrite exact_2_M_PI in Bp'.
  change (1 # 2 ^ 53)%Q with (1 # 9007199254740992)%Q in *.
  assert (P500 : (0 < 2 ^ (-500))%Q) by apply Qpower_2_pos.
  assert (E1000 : (2 ^ (-1021) == (1 # 2097152) * (2 ^ (-500) * 2 ^ (-500)))%Q).
  { rewrite <- Qpower_plus by discriminate.
    change (1 # 2097152)%Q with (2 ^ (-21))%Q.
    rewrite <- Qpower_plus by discriminate. reflexivity. }
  assert (E521 : (2 ^ (-1021) == (2 ^ (-521)) * 2 ^ (-500))%Q).
  { rewrite <- Qpower_plus by discriminate. reflexivity. }
  assert (S521 : (2 ^ (-521) <= 1 # 2097152)%Q).
  { change (1 # 2097152)%Q with (2 ^ (-21))%Q. apply Qpower_2_le. lia. }
  assert (P521 : (0 < 2 ^ (-521))%Q) by apply Qpower_2_pos.
  set (x := exact r) in *. set (c := exact 3.14159%float) in *.
  set (pi := exact M_PI) in *. set (tol := exact 1e-6%float) in *.
  set (a := exact (3.14159 * r * r)%float) in *.
  set (p := exact (M_PI * r * r)%float) in *.
  set (a' := exact (2 * 3.14159 * r)%float) in *.
  set (p' := exact (2 * M_PI * r)%float) in *.
  set (t := (2 ^ (-500))%Q) in *. set (t' := (2 ^ (-521))%Q) in *.
  assert (Pz : (t * t <= x * x)%Q) by nra.
  assert (Cz : (3.14158999999999 * (x * x) <= c * (x * x) <= 3.14159000000001 * (x * x))%Q)
    by (split; nra).
  assert (Qz : (3.14159265358979 * (x * x) <= pi * (x * x) <= 3.14159265358980 * (x * x))%Q)
    by (split; nra).
  assert (Cx : (3.14158999999999 * x <= c * x <= 3.14159000000001 * x)%Q) by (split; nra).
  assert (Qx : (3.14159265358979 * x <= pi * x <= 3.14159265358980 * x)%Q) by (split; nra).
  assert (T't : (t' * t <= (1 # 2097152) * x)%Q) by nra.
  assert (Ecx : (2 * c * x == 2 * (c * x))%Q) by ring.
  assert (Epx : (2 * pi * x == 2 * (pi * x))%Q) by ring.
  rewrite Ecx in Ba'. rewrite Epx in Bp'.
  set (z := (x * x)%Q) in *. set (cz := (c * z)%Q) in *. set (pz := (pi * z)%Q) in *.
  set (cx := (c * x)%Q) in *. set (px := (pi * x)%Q) in *.
  set (tt := (t * t)%Q) in *. set (t't := (t' * t)%Q) in *.
  assert (Pp : (0 < p)%Q) by lra.
  assert (Pp' : (0 < p')%Q) by lra.
  assert (Tp : (0.00000099999999 * p <= tol * p)%Q) by nra.
  assert (Tp' : (0.00000099999999 * p' <= tol * p')%Q) by nra.
  set (tp := (tol * p)%Q) in *. set (tp' := (tol * p')%Q) in *.
  split.
  - apply (within_tolerance_normal _ _ _ _ _ _ _ _ _ normal_1e_6 Na Np); try lia.
    + fold a p. lra.
    + fold a p tol tp. change (1 # 2 ^ 53)%Q with (1 # 9007199254740992)%Q. lra.
  - apply (within_tolerance_normal _ _ _ _ _ _ _ _ _ normal_1e_6 Na' Np'); try lia.
    + fold a' p'. lra.
    + fold a' p' tol tp'. change (1 # 2 ^ 53)%Q with (1 # 9007199254740992)%Q. lra.
Qed.

(** The area and the perimeter of a circle against the exact products
    with a number close to pi. *)
Lemma Circle_exact_error (r : float) (q : Q) :
  (0x1p-500 <=? r)%float = true -> (r <=? 0x1p+500)%float = true ->
  (3.14159265358979 <= q <= 3.14159265358980)%Q ->
  PrimFloat.is_finite (area (Circle r)) = true /\
  PrimFloat.is_finite (perimeter (Circle r)) = true /\
  (0.0000008 * (q * exact r * exact r) <= q * exact r * exact r - exact (area (Circle r))
   <= 0.000001 * (q * exact r * exact r))%Q /\
  (0.0000008 * (2 * q * exact r) <= 2 * q * exact r - exact (perimeter (Circle r))
   <= 0.000001 * (2 * q * exact r))%Q.
Proof.
  intros Lo Hi Hq.
  pose proof (normal_between_powers r Lo Hi) as Nr.
  pose proof (normal_between_exact_pos _ _ _ Nr) as Px.
  destruct (mul_normal _ _ _ _ _ _ normal_3_14159 Nr ltac:(lia) ltac:(lia)) as [N1 E1].
  destruct (mul_normal _ _ _ _ _ _ N1 Nr ltac:(lia) ltac:(lia)) as [N2 E2].
  destruct (mul_normal _ _ _ _ _ _ normal_6_28318 Nr ltac:(lia) ltac:(lia)) as [N3 E3].
  change (area (Circle r)) with (3.14159 * r * r)%float.
  change (perimeter (Circle r)) with (2 * 3.14159 * r)%float.
  split; [exact (normal_between_finite _ _ _ N2) |].
  split; [exact (normal_between_finite _ _ _ N3) |].
  pose proof exact_3_14159 as [Cl Ch].
  rewrite exact_6_28318 in E3.
  set (x := exact r) in *. set (c := exact 3.14159%float) in *.
  set (a1 := exact (3.14159 * r)%float) in *.
  set (a := exact (3.14159 * r * r)%float) in *.
  set (p := exact (2 * 3.14159 * r)%float) in *.
  apply Qabs_Qle_condition in E1, E2, E3.
  change (1 # 2 ^ 53)%Q with (1 # 9007199254740992)%Q in *.
  destruct Hq as [Ql Qh].
  assert (Pc : (0 < c)%Q) by lra.
  assert (Pcx : (0 < c * x)%Q) by nra.
  set (cx := (c * x)%Q) in *.
  assert (Pa1 : (0 < a1)%Q) by lra.
  set (u := (1 # 9007199254740992)%Q) in *.
  assert (A1x : ((1 - u) * (cx * x) <= a1 * x <= (1 + u) * (cx * x))%Q).
  { destruct E1 as [E1l E1h]. split; nra. }
  set (z := (x * x)%Q) in *.
  assert (Pz : (0 < z)%Q) by (unfold z; nra).
  assert (Ecz : (cx * x == c * z)%Q) by (unfold cx, z; ring).
  assert (Eqz : (q * x * x == q * z)%Q) by (unfold z; ring).
  assert (Cz : (3.14158999999999 * z <= c * z <= 3.14159000000001 * z)%Q) by (split; nra).
  assert (Qz : (3.14159265358979 * z <= q * z <= 3.14159265358980 * z)%Q) by (split; nra).
  assert (Cx : (3.14158999999999 * x <= cx <= 3.14159000000001 * x)%Q) by (unfold cx; split; nra).
  assert (Qx : (3.14159265358979 * x <= q * x <= 3.14159265358980 * x)%Q) by (split; nra).
  rewrite Eqz. rewrite Ecz in A1x.
  set (a1x := (a1 * x)%Q) in *. set (cz := (c * z)%Q) in *. set (qz := (q * z)%Q) in *.
  set (qx := (q * x)%Q) in *.
  assert (Eqx : (2 * q * x == 2 * qx)%Q) by (unfold qx; ring).
  rewrite Eqx.
  assert (Ecx : (2 * c * x == 2 * cx)%Q) by (unfold cx; ring).
  rewrite Ecx in E3.
  assert (U : (u = (1 # 9007199254740992))%Q) by reflexivity.
  clearbody u.
  split; [split | split].
  - subst u. nra.
  - subst u. nra.
  - subst u. lra.
  - subst u. lra.
Qed.

(** ** Insertion sort meets the promise of the library *)

Section InsertionSorts.

Variable cmp : Shape -> Shape -> bool.
Variable good : Shape -> Prop.

Hypothesis cmp_asym :
  forall x y, good x -> good y -> cmp x y = true -> cmp y x = false.
Hypothesis cmp_negtrans :
  forall x y z, good x -> good y -> good z ->
                cmp y x = false -> cmp z y = false -> cmp z x = false.

Let not_after := not_after cmp.

Lemma StronglySorted_sorted_wrt l : StronglySorted not_after l -> sorted_wrt cmp l.
Proof.
  induction 1 as [| a l SS IH Fa]; intros i j x y Lt Hi Hj.
  - destruct i; discriminate.
  - destruct j as [| j]; [lia |]. simpl in Hj.
    destruct i as [| i]; simpl in Hi.
    + injection Hi as <-. apply nth_error_In in Hj.
      rewrite Forall_forall in Fa. now apply Fa.
    + apply (IH i j); [lia | assumption | assumption].
Qed.

Lemma insert_after_perm x l : Permutation (x :: l) (insert_after cmp x l).
Proof.
  induction l as [| y ys IH]; simpl; [reflexivity |].
  destruct (cmp x y); [reflexivity |].
  rewrite perm_swap. now apply perm_skip.
Qed.

Lemma insert_after_sorted x l :
  good x -> Forall good l -> StronglySorted not_after l ->
  StronglySorted not_after (insert_after cmp x l).
Proof.
  intros Gx Gl SS. induction SS as [| y ys SS IH Fy]; simpl.
  - repeat constructor.
  - apply Forall_cons_iff in Gl. destruct Gl as [Gy Gys].
    destruct (cmp x y) eqn:C.
    + constructor; [now constructor |].
      constructor; [now apply cmp_asym |].
      rewrite Forall_forall in *. intros z Hz. unfold not_after.
      apply (cmp_negtrans x y z); auto. now apply Fy.
    + constructor; [now apply IH |].
      apply (Permutation_Forall (insert_after_perm x ys)).
      now constructor.
Qed.

(** Folding an insertion that keeps the accumulator sorted and adds
    the element sorts the list. *)
Lemma fold_insert_sorts (ins : Shape -> list Shape -> list Shape) :
  (forall x l, Permutation (x :: l) (ins x l)) ->
  (forall x l, good x -> Forall good l -> StronglySorted not_after l ->
               StronglySorted not_after (ins x l)) ->
  forall l acc, Forall good l -> Forall good acc -> StronglySorted not_after acc ->
    Permutation (acc ++ l) (fold_left (fun a x => ins x a) l acc) /\
    sorted_wrt cmp (fold_left (fun a x => ins x a) l acc).
Proof.
  intros P S. induction l as [| x l IH]; intros acc Gl Ga SS; simpl.
  - rewrite app_nil_r. split; [reflexivity | now apply StronglySorted_sorted_wrt].
  - apply Forall_cons_iff in Gl. destruct Gl as [Gx Gl].
    destruct (IH (ins x acc)) as [IP IS]; auto.
    + apply (Permutation_Forall (P x acc)). now constructor.
    + split; [| exact IS].
      rewrite <- IP, <- (P x acc). simpl. symmetry. apply Permutation_middle.
Qed.

End InsertionSorts.

Lemma comp_asym x y :
  PrimFloat.is_nan (area x) = false -> PrimFloat.is_nan (area y) = false ->
  comp x y = true -> comp y x = false.
Proof. unfold comp. intros. now apply ltb_asym. Qed.

Lemma comp_negtrans x y z :
  PrimFloat.is_nan (area x) = false -> PrimFloat.is_nan (area y) = false ->
  PrimFloat.is_nan (area z) = false ->
  comp y x = false -> comp z y = false -> comp z x = false.
Proof. unfold comp. intros ? ? ?. now apply ltb_negtrans. Qed.

Lemma insertion_sort_conforming : conforming insertion_sort.
Proof.
  intros l N. unfold std_sort_post, insertion_sort.
  apply (fold_insert_sorts comp _ (insert_after comp)
           (insert_after_perm comp)
           (insert_after_sorted comp _ comp_asym comp_negtrans) l []);
    [exact N | constructor | constructor].
Qed.

Lemma sorted_wrt_ascending l :
  nan_free l -> sorted_wrt comp l -> ascending_area l.
Proof.
  intros N S i j x y Lt Hi Hj.
  unfold nan_free in N. rewrite Forall_forall in N.
  apply leb_of_not_ltb.
  - apply N. eapply nth_error_In; eauto.
  - apply N. eapply nth_error_In; eauto.
  - apply (S i j x y Lt Hi Hj).
Qed.

(** ** The library sort sorts *)

Section Arrays.

Import libstdcxx.
Local Open Scope nat_scope.

Context {T : Type}.
Implicit Types (v : list T) (x y : T) (i j k : nat).

Lemma length_store v i x : List.length (store v i x) = List.length v.
Proof.
  revert i. induction v as [| a v IH]; intros [| i]; simpl; auto.
Qed.

Lemma nth_error_store_eq v i x :
  (i < List.length v)%nat -> nth_error (store v i x) i = Some x.
Proof.
  revert i. induction v as [| a v IH]; intros [| i] H; simpl in *; try lia; auto.
  apply IH. lia.
Qed.

Lemma nth_error_store_neq v i j x :
  i <> j -> nth_error (store v i x) j = nth_error v j.
Proof.
  revert i j. induction v as [| a v IH]; intros [| i] [| j] H; simpl; auto; try lia.
Qed.

Lemma store_same v i x : nth_error v i = Some x -> store v i x = v.
Proof.
  revert i. induction v as [| a v IH]; intros [| i] H; simpl in *; try discriminate.
  - now injection H as ->.
  - f_equal. now apply IH.
Qed.

Lemma store_store v i x y : store (store v i x) i y = store v i y.
Proof.
  revert i. induction v as [| a v IH]; intros [| i]; simpl; auto. now rewrite IH.
Qed.

Lemma store_app_l v w i x :
  (i < List.length v)%nat -> store (v ++ w) i x = store v i x ++ w.
Proof.
  revert i. induction v as [| a v IH]; intros [| i] H; simpl in *; try lia; auto.
  f_equal. apply IH. lia.
Qed.

Lemma store_app_r v w i x :
  (List.length v <= i)%nat -> store (v ++ w) i x = v ++ store w (i - List.length v) x.
Proof.
  revert i. induction v as [| a v IH]; intros i H; simpl in *.
  - now rewrite Nat.sub_0_r.
  - destruct i as [| i]; [lia |]. simpl. f_equal. apply IH. lia.
Qed.

Lemma Forall_store (P : T -> Prop) v i x : Forall P v -> P x -> Forall P (store v i x).
Proof.
  intros F Px. revert i. induction F as [| a v Pa F IH]; intros [| i]; simpl; auto.
Qed.

(** Overwriting an element replaces it in the multiset of the elements. *)
Lemma Permutation_store v i x y :
  nth_error v i = Some x -> Permutation (y :: v) (x :: store v i y).
Proof.
  revert i. induction v as [| a v IH]; intros [| i] H; simpl in *; try discriminate.
  - injection H as ->. apply perm_swap.
  - apply perm_trans with (a :: y :: v); [apply perm_swap |].
    apply perm_trans with (a :: x :: store v i y); [| apply perm_swap].
    apply perm_skip. now apply IH.
Qed.

Lemma Permutation_swap v i j x y :
  nth_error v i = Some x -> nth_error v j = Some y ->
  Permutation v (store (store v i y) j x).
Proof.
  revert i j. induction v as [| a v IH]; intros [| i] [| j] Hi Hj; simpl in *;
    try discriminate.
  - injection Hi as ->. injection Hj as ->. reflexivity.
  - injection Hi as ->. now apply Permutation_store.
  - injection Hj as ->. now apply Permutation_store.
  - apply perm_skip. now apply IH.
Qed.

Lemma nth_error_Some_lt v i x : nth_error v i = Some x -> (i < List.length v)%nat.
Proof.
  intros H. apply nth_error_Some. congruence.
Qed.

Lemma nth_error_lt_Some v i : (i < List.length v)%nat -> exists x, nth_error v i = Some x.
Proof.
  intros H. destruct (nth_error v i) as [x |] eqn:E; [now exists x |].
  apply nth_error_None in E. lia.
Qed.

Lemma In_firstn v k x : In x (firstn k v) -> In x v.
Proof.
  intros H. rewrite <- (firstn_skipn k v). apply in_or_app. now left.
Qed.

Lemma In_skipn v k x : In x (skipn k v) -> In x v.
Proof.
  intros H. rewrite <- (firstn_skipn k v). apply in_or_app. now right.
Qed.

End Arrays.

Section Insertion.

Import libstdcxx.
Local Open Scope nat_scope.

Context {T : Type}.
Variable cmp : T -> T -> bool.
Variable good : T -> Prop.

Hypothesis cmp_asym :
  forall x y, good x -> good y -> cmp x y = true -> cmp y x = false.
Hypothesis cmp_negtrans :
  forall x y z, good x -> good y -> good z ->
                cmp y x = false -> cmp z y = false -> cmp z x = false.

Lemma cmp_irrefl x : good x -> cmp x x = false.
Proof.
  intros G. destruct (cmp x x) eqn:E; [| reflexivity].
  now rewrite (cmp_asym x x G G E) in E.
Qed.

Lemma unguarded_linear_insert_spec last : forall pre h post val,
  List.length pre = last ->
  unguarded_linear_insert cmp (pre ++ h :: post) last val
  = option_map (fun r => rev r ++ post) (insert_from_right cmp (rev pre) val).
Proof.
  induction last as [| next IH]; intros pre h post val L.
  - destruct pre; [reflexivity | discriminate].
  - destruct (exists_last (l := pre)) as (pre' & y & ->).
    { intros ->. discriminate. }
    rewrite length_app in L. simpl in L.
    assert (L' : List.length pre' = next) by lia.
    rewrite rev_app_distr. simpl.
    rewrite <- app_assoc. simpl.
    assert (N : nth_error (pre' ++ y :: h :: post) next = Some y).
    { rewrite nth_error_app2 by lia. now replace (next - List.length pre')%nat with 0%nat by lia. }
    rewrite N.
    assert (St : forall z, store (pre' ++ y :: h :: post) (S next) z = pre' ++ y :: z :: post).
    { intros z. rewrite store_app_r by lia.
      now replace (S next - List.length pre')%nat with 1%nat by lia. }
    rewrite St. destruct (cmp val y).
    + rewrite (IH pre' y (y :: post) val L').
      destruct (insert_from_right cmp (rev pre') val) as [r |]; simpl; [| reflexivity].
      now rewrite <- app_assoc.
    + rewrite St. simpl. rewrite rev_involutive, <- !app_assoc. reflexivity.
Qed.

Lemma insert_from_right_sorted rp val :
  good val -> Forall good rp -> descending cmp rp ->
  (exists y, In y rp /\ cmp val y = false) ->
  exists r, insert_from_right cmp rp val = Some r /\
            descending cmp r /\ Permutation (val :: rp) r.
Proof.
  intros Gv Gr D. induction D as [| y t D IH Fy]; intros (s & Hs & Cs).
  - destruct Hs.
  - apply Forall_cons_iff in Gr. destruct Gr as [Gy Gt].
    simpl. destruct (cmp val y) eqn:C.
    + destruct Hs as [-> | Hs]; [congruence |].
      destruct (IH Gt (ex_intro _ s (conj Hs Cs))) as (r & -> & Dr & Pr).
      exists (y :: r). split; [reflexivity |]. split.
      * constructor; [exact Dr |].
        apply (Permutation_Forall Pr). constructor; [| exact Fy].
        now apply cmp_asym.
      * rewrite perm_swap. now apply perm_skip.
    + exists (val :: y :: t). split; [reflexivity |]. split; [| reflexivity].
      constructor; [now constructor |].
      constructor; [exact C |].
      rewrite Forall_forall in *. intros z Hz.
      apply (cmp_negtrans z y val); auto.
Qed.

Lemma descending_snoc rp x :
  descending cmp rp -> Forall (fun z => cmp z x = false) rp ->
  descending cmp (rp ++ [x]).
Proof.
  intros D F. induction D as [| y t D IH Fy]; simpl.
  - repeat constructor.
  - apply Forall_cons_iff in F. destruct F as [Fx Ft].
    constructor; [now apply IH |].
    apply Forall_app. split; [exact Fy | now constructor].
Qed.

Lemma descending_sorted rp : descending cmp rp -> in_order cmp (rev rp).
Proof.
  induction 1 as [| y t D IH Fy]; intros i j a b Lt Hi Hj.
  - destruct i; discriminate.
  - simpl in Hi, Hj.
    assert (Lj : (j < List.length (rev t ++ [y]))%nat) by (apply nth_error_Some; congruence).
    rewrite length_app in Lj. simpl in Lj.
    rewrite nth_error_app1 in Hi by lia.
    destruct (Nat.eq_dec j (List.length (rev t))) as [-> | Nj].
    + rewrite nth_error_app2, Nat.sub_diag in Hj by lia. injection Hj as <-.
      rewrite Forall_forall in Fy. apply Fy. apply in_rev.
      now apply nth_error_In in Hi.
    + rewrite nth_error_app1 in Hj by lia. now apply (IH i j).
Qed.

Lemma skipn_nth_error (v0 : list T) i x :
  nth_error v0 i = Some x -> skipn i v0 = x :: skipn (S i) v0.
Proof.
  revert i. induction v0 as [| a v0 IH]; intros [| i] H; simpl in *; try discriminate.
  - now injection H as ->.
  - now apply IH.
Qed.

Lemma firstn_S_nth_error (v0 : list T) i x :
  nth_error v0 i = Some x -> firstn (S i) v0 = firstn i v0 ++ [x].
Proof.
  revert i. induction v0 as [| a v0 IH]; intros [| i] H; simpl in *; try discriminate.
  - now injection H as ->.
  - f_equal. now apply IH.
Qed.

(** One unguarded insertion, when an element before is not greater. *)
Lemma unguarded_step v0 i v x :
  Forall good v0 ->
  nth_error v0 i = Some x ->
  inserted cmp v0 i v ->
  (exists y, In y (firstn i v0) /\ cmp x y = false) ->
  nth_error v i = Some x /\
  exists v', unguarded_linear_insert cmp v i x = Some v' /\ inserted cmp v0 (S i) v'.
Proof.
  intros G Hx Inv (y & Hy & Cy).
  destruct Inv as (rp & -> & L & D & P).
  assert (Gx : good x).
  { rewrite Forall_forall in G. apply G. now apply nth_error_In in Hx. }
  assert (Grp : Forall good rp).
  { apply (Permutation_Forall (Permutation_sym P)).
    rewrite Forall_forall in *. intros z Hz. apply G. eapply In_firstn; eauto. }
  rewrite (skipn_nth_error _ _ _ Hx).
  split.
  - rewrite nth_error_app2 by (rewrite length_rev; lia).
    now rewrite length_rev, L, Nat.sub_diag.
  - rewrite unguarded_linear_insert_spec by (rewrite length_rev; exact L).
    rewrite rev_involutive.
    destruct (insert_from_right_sorted rp x Gx Grp D) as (r & -> & Dr & Pr).
    { exists y. split; [| exact Cy]. now apply (Permutation_in _ (Permutation_sym P)). }
    simpl. eexists. split; [reflexivity |].
    exists r. split; [reflexivity |]. split; [| split; [exact Dr |]].
    + rewrite <- (Permutation_length Pr). simpl. lia.
    + rewrite (firstn_S_nth_error _ _ _ Hx), <- Pr, P. apply Permutation_cons_append.
Qed.

Lemma descending_app l1 l2 a b :
  descending cmp (l1 ++ l2) -> In a l1 -> In b l2 -> cmp a b = false.
Proof.
  induction l1 as [| c l1 IH]; intros D Ha Hb; [destruct Ha |].
  simpl in D. inversion D as [| ? ? D' F]; subst.
  destruct Ha as [-> | Ha].
  - rewrite Forall_forall in F. apply F. apply in_or_app. now right.
  - now apply IH.
Qed.

(** One pass of the guarded loop. *)
Lemma insertion_sort_step_inserted v0 i v x :
  Forall good v0 -> (1 <= i)%nat ->
  nth_error v0 i = Some x ->
  inserted cmp v0 i v ->
  exists v', insertion_sort_step cmp v i = Some v' /\ inserted cmp v0 (S i) v'.
Proof.
  intros G Hi Hx Inv.
  pose proof Inv as (rp & E & L & D & P).
  assert (Gx : good x).
  { rewrite Forall_forall in G. apply G. now apply nth_error_In in Hx. }
  assert (Grp : Forall good rp).
  { apply (Permutation_Forall (Permutation_sym P)).
    rewrite Forall_forall in *. intros z Hz. apply G. eapply In_firstn; eauto. }
  destruct (exists_last (l := rp)) as (q & f & Eq).
  { intros ->. simpl in L. lia. }
  assert (Hf : In f rp) by (rewrite Eq; apply in_or_app; right; now left).
  assert (Gf : good f) by (rewrite Forall_forall in Grp; now apply Grp).
  assert (N0 : nth_error v 0 = Some f).
  { rewrite E, Eq, rev_app_distr. reflexivity. }
  unfold insertion_sort_step.
  destruct (cmp x f) eqn:C.
  - assert (Nx : nth_error v i = Some x).
    { rewrite E, (skipn_nth_error _ _ _ Hx).
      rewrite nth_error_app2 by (rewrite length_rev; lia).
      now rewrite length_rev, L, Nat.sub_diag. }
    rewrite Nx, N0, C. eexists. split; [reflexivity |].
    exists (rp ++ [x]). split; [| split; [| split]].
    + assert (Lr : List.length (rev rp) = i) by (rewrite length_rev; exact L).
      assert (F1 : firstn i v = rev rp).
      { rewrite E, firstn_app, Lr, Nat.sub_diag, firstn_all2 by lia.
        rewrite firstn_O. apply app_nil_r. }
      assert (F2 : skipn (S i) v = skipn (S i) v0).
      { rewrite E, (skipn_nth_error _ _ _ Hx), skipn_app, Lr, skipn_all2 by lia.
        now replace (S i - i)%nat with 1%nat by lia. }
      rewrite F1, F2, rev_app_distr. reflexivity.
    + rewrite length_app. simpl. lia.
    + apply descending_snoc; [exact D |].
      rewrite Forall_forall. intros z Hz.
      assert (Gz : good z) by (rewrite Forall_forall in Grp; now apply Grp).
      apply (cmp_negtrans x f z); auto.
      rewrite Eq in Hz, D. apply in_app_or in Hz. destruct Hz as [Hz | [<- | []]].
      * apply (descending_app q [f]); auto. now left.
      * now apply cmp_irrefl.
    + rewrite (firstn_S_nth_error _ _ _ Hx). now apply Permutation_app_tail.
  - destruct (unguarded_step v0 i v x G Hx Inv) as (Nx & v' & U & Inv').
    { exists f. split; [| exact C]. now apply (Permutation_in _ P). }
    rewrite Nx, N0, C. now exists v'.
Qed.

Lemma insertion_sort_loop_inserted count : forall v0 i v,
  Forall good v0 -> (1 <= i)%nat -> (i + count <= List.length v0)%nat ->
  inserted cmp v0 i v ->
  exists v', insertion_sort_loop cmp count v i = Some v' /\ inserted cmp v0 (i + count) v'.
Proof.
  induction count as [| count IH]; intros v0 i v G Hi Hn Inv; simpl.
  - exists v. now rewrite Nat.add_0_r.
  - destruct (nth_error_lt_Some v0 i ltac:(lia)) as (x & Hx).
    destruct (insertion_sort_step_inserted v0 i v x G Hi Hx Inv) as (v1 & -> & Inv1).
    destruct (IH v0 (S i) v1 G ltac:(lia) ltac:(lia) Inv1) as (v' & E & Inv').
    exists v'. split; [exact E |]. now replace (i + S count)%nat with (S i + count)%nat by lia.
Qed.

Lemma unguarded_insertion_sort_loop_inserted k count : forall v0 i v,
  Forall good v0 -> guarded_from cmp k v0 -> (k <= i)%nat -> (i + count <= List.length v0)%nat ->
  inserted cmp v0 i v ->
  exists v', unguarded_insertion_sort_loop cmp count v i = Some v' /\
             inserted cmp v0 (i + count) v'.
Proof.
  induction count as [| count IH]; intros v0 i v G Gd Hi Hn Inv; simpl.
  - exists v. now rewrite Nat.add_0_r.
  - destruct (nth_error_lt_Some v0 i ltac:(lia)) as (x & Hx).
    destruct (unguarded_step v0 i v x G Hx Inv (Gd i x Hi Hx)) as (-> & v1 & -> & Inv1).
    destruct (IH v0 (S i) v1 G Gd ltac:(lia) ltac:(lia) Inv1) as (v' & E & Inv').
    exists v'. split; [exact E |]. now replace (i + S count)%nat with (S i + count)%nat by lia.
Qed.

Lemma inserted_start v0 a : nth_error v0 0 = Some a -> inserted cmp v0 1 v0.
Proof.
  intros H. destruct v0 as [| b v0]; [discriminate |]. injection H as ->.
  exists [a]. repeat split; repeat constructor.
Qed.

Lemma inserted_all v0 v :
  inserted cmp v0 (List.length v0) v -> Permutation v0 v /\ in_order cmp v.
Proof.
  intros (rp & -> & L & D & P).
  rewrite skipn_all, app_nil_r. rewrite firstn_all in P. split.
  - rewrite <- P. apply Permutation_rev.
  - now apply descending_sorted.
Qed.

(** The final pass sorts every array in which the elements from the
    threshold on are guarded. *)
Lemma final_insertion_sort_sorts v0 :
  Forall good v0 -> guarded_from cmp S_threshold v0 ->
  exists v', final_insertion_sort cmp v0 = Some v' /\
             Permutation v0 v' /\ in_order cmp v'.
Proof.
  intros G Gd. unfold final_insertion_sort.
  destruct (Nat.ltb_spec S_threshold (List.length v0)) as [Long | Short].
  - destruct (nth_error_lt_Some v0 0 ltac:(unfold S_threshold in *; lia)) as (a & Ha).
    unfold insertion_sort. change S_threshold with 16%nat in *.
    destruct (insertion_sort_loop_inserted 15 v0 1 v0 G ltac:(lia) ltac:(lia)
                (inserted_start v0 a Ha)) as (v1 & -> & Inv1).
    assert (L1 : List.length v1 = List.length v0).
    { destruct Inv1 as (rp & -> & L & _ & _).
      rewrite length_app, length_rev, length_skipn. simpl in *. lia. }
    rewrite L1.
    destruct (unguarded_insertion_sort_loop_inserted 16 (List.length v0 - 16) v0 16 v1 G Gd
                ltac:(lia) ltac:(lia) Inv1) as (v' & -> & Inv').
    exists v'. split; [reflexivity |]. apply inserted_all.
    now replace (List.length v0) with (16 + (List.length v0 - 16))%nat by lia.
  - unfold insertion_sort. destruct (List.length v0) as [| n] eqn:L.
    + destruct v0; [| discriminate]. exists []. split; [reflexivity |]. split; [constructor |].
      intros i j x y _ Hi. destruct i; discriminate.
    + destruct (nth_error_lt_Some v0 0 ltac:(lia)) as (a & Ha).
      destruct (insertion_sort_loop_inserted n v0 1 v0 G ltac:(lia) ltac:(lia)
                  (inserted_start v0 a Ha)) as (v' & -> & Inv').
      exists v'. split; [reflexivity |]. apply inserted_all.
      now rewrite L.
Qed.

End Insertion.

Section Partition.

Import libstdcxx.
Local Open Scope nat_scope.

Context {T : Type}.
Variable cmp : T -> T -> bool.
Variable good : T -> Prop.

Hypothesis cmp_asym :
  forall x y, good x -> good y -> cmp x y = true -> cmp y x = false.
Hypothesis cmp_negtrans :
  forall x y z, good x -> good y -> good z ->
                cmp y x = false -> cmp z y = false -> cmp z x = false.

Lemma Forall_firstn_nth (P : T -> Prop) (v : list T) k :
  (forall i x, (i < k)%nat -> nth_error v i = Some x -> P x) -> Forall P (firstn k v).
Proof.
  intros H. apply Forall_forall. intros x Hx.
  apply In_nth_error in Hx. destruct Hx as (i & Hi).
  rewrite nth_error_firstn in Hi.
  destruct (Nat.ltb_spec i k); [| discriminate]. now apply (H i).
Qed.

Lemma Forall_skipn_nth (P : T -> Prop) (v : list T) k :
  (forall j x, (k <= j)%nat -> nth_error v j = Some x -> P x) -> Forall P (skipn k v).
Proof.
  intros H. apply Forall_forall. intros x Hx.
  apply In_nth_error in Hx. destruct Hx as (i & Hi).
  rewrite nth_error_skipn in Hi. apply (H (k + i)%nat); [lia | exact Hi].
Qed.

(** The upward scan stops at the first element that is not less than
    the pivot, when there is one. *)
Lemma scan_up_spec p l : forall first k0 y0,
  nth_error l k0 = Some y0 -> cmp y0 p = false ->
  exists k x, scan_up cmp p l first = Some (first + k)%nat /\ (k <= k0)%nat /\
              nth_error l k = Some x /\ cmp x p = false /\
              (forall i z, (i < k)%nat -> nth_error l i = Some z -> cmp z p = true).
Proof.
  induction l as [| a l IH]; intros first k0 y0 H0 C0.
  - destruct k0; discriminate.
  - simpl. destruct (cmp a p) eqn:C.
    + destruct k0 as [| k0]; [simpl in H0; congruence |]. simpl in H0.
      destruct (IH (S first) k0 y0 H0 C0) as (k & x & E & Le & Hx & Cx & Before).
      exists (S k), x. rewrite E. split; [f_equal; lia |]. split; [lia |].
      split; [exact Hx |]. split; [exact Cx |].
      intros [| i] z Hi Hz; simpl in Hz; [congruence |]. apply (Before i); [lia | exact Hz].
    + exists 0%nat, a. rewrite Nat.add_0_r. repeat split; try lia; auto.
Qed.

Lemma scan_down_eq (v : list T) p last :
  scan_down cmp v p last
  = match nth_error v last with
    | None => None
    | Some y =>
        if cmp p y then
          match last with
          | O => None
          | S l => scan_down cmp v p l
          end
        else Some last
    end.
Proof.
  destruct last; reflexivity.
Qed.

(** The downward scan stops at the last element, from [last] down,
    that is not greater than the pivot, when there is one. *)
Lemma scan_down_spec (v : list T) p : forall last k0 y0,
  (last < List.length v)%nat -> (k0 <= last)%nat ->
  nth_error v k0 = Some y0 -> cmp p y0 = false ->
  exists l x, scan_down cmp v p last = Some l /\ (k0 <= l <= last)%nat /\
              nth_error v l = Some x /\ cmp p x = false /\
              (forall j z, (l < j <= last)%nat -> nth_error v j = Some z -> cmp p z = true).
Proof.
  induction last as [| last IH]; intros k0 y0 Hl Hk H0 C0.
  - assert (k0 = 0)%nat as -> by lia. rewrite scan_down_eq, H0, C0.
    exists 0%nat, y0. repeat split; try lia; auto.
  - destruct (nth_error_lt_Some v (S last) Hl) as (y & Hy).
    rewrite scan_down_eq, Hy.
    destruct (cmp p y) eqn:C.
    + assert (k0 <> S last) by (intros ->; congruence).
      destruct (IH k0 y0 ltac:(lia) ltac:(lia) H0 C0) as (l & x & E & Le & Hx & Cx & After).
      exists l, x. split; [exact E |]. split; [lia |]. split; [exact Hx |].
      split; [exact Cx |].
      intros j z Hj Hz. destruct (Nat.eq_dec j (S last)) as [-> | Nj].
      * congruence.
      * apply (After j); [lia | exact Hz].
    + exists (S last), y. repeat split; try lia; auto.
Qed.

Lemma good_nth (v : list T) i x : Forall good v -> nth_error v i = Some x -> good x.
Proof.
  intros G H. rewrite Forall_forall in G. apply G. now apply nth_error_In in H.
Qed.

Lemma unguarded_partition_eq fuel (v : list T) first last pivot :
  unguarded_partition cmp (S fuel) v first last pivot
  = match nth_error v pivot with
    | None => None
    | Some p =>
        match scan_up cmp p (skipn first v) first with
        | None => None
        | Some first =>
            match last with
            | O => None
            | S last =>
                match scan_down cmp v p last with
                | None => None
                | Some last =>
                    if negb (first <? last)%nat then Some (first, v)
                    else
                      match iter_swap v first last with
                      | None => None
                      | Some v => unguarded_partition cmp fuel v (S first) last pivot
                      end
                end
            end
        end
    end.
Proof.
  reflexivity.
Qed.

(** The loop of [__unguarded_partition], from a state in which the
    elements before [first] are not greater than the pivot, the
    elements from [last] on are not less, and something stops the
    first upward scan. *)
Lemma unguarded_partition_spec p fuel : forall v first last,
  Forall good v -> nth_error v 0 = Some p ->
  (1 <= first <= last)%nat -> (last <= List.length v)%nat -> (last - first < fuel)%nat ->
  (forall i x, (1 <= i < first)%nat -> nth_error v i = Some x -> cmp p x = false) ->
  (forall j y, (last <= j)%nat -> nth_error v j = Some y -> cmp y p = false) ->
  (last = List.length v ->
   exists k y, (first <= k)%nat /\ nth_error v k = Some y /\ cmp y p = false) ->
  exists cut v',
    unguarded_partition cmp fuel v first last 0 = Some (cut, v') /\
    Permutation v v' /\ (1 <= cut < List.length v)%nat /\
    Forall (fun x => cmp p x = false) (firstn cut v') /\
    Forall (fun y => cmp y p = false) (skipn cut v').
Proof.
  induction fuel as [| fuel IH]; intros v first last G Hp B1 B2 F I2 I3 I4; [lia |].
  assert (Gp : good p) by exact (good_nth v 0 p G Hp).
  rewrite unguarded_partition_eq, Hp.
  (* the upward scan *)
  assert (Up : exists k0 y0, (first <= k0)%nat /\ (last < List.length v -> k0 = last) /\
                             nth_error v k0 = Some y0 /\ cmp y0 p = false).
  { destruct (Nat.eq_dec last (List.length v)) as [E | N].
    - destruct (I4 E) as (k & y & Hk & Hy & Cy). exists k, y. repeat split; auto. lia.
    - destruct (nth_error_lt_Some v last ltac:(lia)) as (y & Hy).
      exists last, y. repeat split; auto; try lia. now apply (I3 last). }
  destruct Up as (k0 & y0 & Hk0 & Kl & Hy0 & Cy0).
  destruct (scan_up_spec p (skipn first v) first (k0 - first) y0) as (k & x & -> & Lk & Hx & Cx & Before).
  { rewrite nth_error_skipn. now replace (first + (k0 - first))%nat with k0 by lia. }
  { exact Cy0. }
  rewrite nth_error_skipn in Hx.
  set (f' := (first + k)%nat) in *.
  assert (Bf : (f' < List.length v)%nat) by exact (nth_error_Some_lt _ _ _ Hx).
  assert (Bf' : (last < List.length v -> f' <= last)%nat) by (intros L; specialize (Kl L); lia).
  assert (Passed_up : forall i z, (first <= i < f')%nat -> nth_error v i = Some z ->
                                  cmp p z = false).
  { intros i z Hi Hz. apply cmp_asym; auto; [exact (good_nth v i z G Hz) |].
    apply (Before (i - first)%nat); [lia |].
    rewrite nth_error_skipn. now replace (first + (i - first))%nat with i by lia. }
  (* the downward scan *)
  destruct last as [| last1]; [lia |].
  destruct (scan_down_spec v p last1 0%nat p ltac:(lia) ltac:(lia) Hp (cmp_irrefl cmp good cmp_asym p Gp))
    as (l' & x' & -> & Ll & Hx' & Cx' & After).
  assert (Passed_down : forall j z, (l' < j <= last1)%nat -> nth_error v j = Some z ->
                                    cmp z p = false).
  { intros j z Hj Hz. apply cmp_asym; auto; [exact (good_nth v j z G Hz) |].
    now apply (After j). }
  destruct (Nat.ltb_spec f' l') as [Lt | Ge]; simpl negb; cbv iota.
  - (* exchange and go on *)
    unfold iter_swap. rewrite Hx, Hx'.
    set (v1 := store (store v f' x') l' x).
    assert (L1 : List.length v1 = List.length v) by (unfold v1; now rewrite !length_store).
    assert (N1 : forall i, i <> f' -> i <> l' -> nth_error v1 i = nth_error v i).
    { intros i N N'. unfold v1. now rewrite !nth_error_store_neq by congruence. }
    assert (Nf : nth_error v1 f' = Some x').
    { unfold v1. rewrite nth_error_store_neq by lia. now apply nth_error_store_eq. }
    assert (Nl : nth_error v1 l' = Some x).
    { unfold v1. apply nth_error_store_eq. rewrite length_store. lia. }
    destruct (IH v1 (S f') l') as (cut & v' & E & P & Bc & Fl & Fr).
    + unfold v1. apply Forall_store; [apply Forall_store |]; auto.
      * exact (good_nth v l' x' G Hx').
      * exact (good_nth v f' x G Hx).
    + rewrite N1 by lia. exact Hp.
    + lia.
    + lia.
    + lia.
    + intros i z Hi Hz. destruct (Nat.eq_dec i f') as [-> | Ni].
      * congruence.
      * rewrite N1 in Hz by lia.
        destruct (Nat.lt_ge_cases i first); [apply (I2 i) | apply (Passed_up i)]; auto; lia.
    + intros j z Hj Hz. destruct (Nat.eq_dec j l') as [-> | Nj].
      * congruence.
      * rewrite N1 in Hz by lia.
        destruct (Nat.le_gt_cases j last1); [apply (Passed_down j) | apply (I3 j)]; auto; lia.
    + intros El. lia.
    + exists cut, v'. split; [exact E |]. split; [| split; [lia | now split]].
      rewrite <- P. unfold v1. now apply Permutation_swap.
  - (* the scans have met *)
    exists f', v. split; [reflexivity |]. split; [reflexivity |]. split; [lia |]. split.
    + apply Forall_firstn_nth. intros i z Hi Hz.
      destruct (Nat.eq_dec i 0) as [-> | Ni].
      * assert (z = p) by congruence. subst z. now apply (cmp_irrefl cmp good cmp_asym).
      * destruct (Nat.lt_ge_cases i first); [apply (I2 i) | apply (Passed_up i)]; auto; lia.
    + apply Forall_skipn_nth. intros j z Hj Hz.
      destruct (Nat.le_gt_cases j last1) as [Le | Gt].
      * destruct (Nat.eq_dec j f') as [-> | Nj]; [congruence |].
        apply (Passed_down j); auto. lia.
      * apply (I3 j); auto.
Qed.

Lemma iter_swap_first (v : list T) idx z m k y :
  nth_error v 0 = Some z -> nth_error v idx = Some m ->
  idx <> 0%nat -> k <> 0%nat -> k <> idx ->
  nth_error v k = Some y -> cmp y m = false ->
  exists v0, iter_swap v 0 idx = Some v0 /\ Permutation v v0 /\
             nth_error v0 0 = Some m /\
             exists k y, (1 <= k)%nat /\ nth_error v0 k = Some y /\ cmp y m = false.
Proof.
  intros Hz Hm N0 Nk Nki Hy C.
  unfold iter_swap. rewrite Hz, Hm. eexists. split; [reflexivity |].
  split; [now apply Permutation_swap |]. split.
  - rewrite nth_error_store_neq by congruence.
    apply nth_error_store_eq. now apply nth_error_Some_lt in Hz.
  - exists k, y. split; [lia |]. split; [| exact C].
    now rewrite !nth_error_store_neq by congruence.
Qed.

(** The median of three goes to the front, and one of the two others,
    left in place, is not less than it. *)
Lemma move_median_to_first_spec (v : list T) :
  Forall good v -> (3 < List.length v)%nat ->
  exists v0 p,
    move_median_to_first cmp v 0 1 (List.length v / 2) (List.length v - 1) = Some v0 /\
    Permutation v v0 /\ nth_error v0 0 = Some p /\
    exists k y, (1 <= k)%nat /\ nth_error v0 k = Some y /\ cmp y p = false.
Proof.
  intros G L.
  set (n := List.length v) in *. set (mid := (n / 2)%nat).
  assert (Hmid : (2 <= mid < n - 1)%nat).
  { unfold mid. split.
    - apply Nat.div_le_lower_bound; lia.
    - apply Nat.Div0.div_lt_upper_bound; lia. }
  destruct (nth_error_lt_Some v 0 ltac:(lia)) as (z & Hz).
  destruct (nth_error_lt_Some v 1 ltac:(lia)) as (a & Ha).
  destruct (nth_error_lt_Some v mid ltac:(lia)) as (b & Hb).
  destruct (nth_error_lt_Some v (n - 1) ltac:(lia)) as (c & Hc).
  pose proof (good_nth v _ _ G Ha) as Ga.
  pose proof (good_nth v _ _ G Hb) as Gb.
  pose proof (good_nth v _ _ G Hc) as Gc.
  unfold move_median_to_first. rewrite Ha, Hb, Hc.
  destruct (cmp a b) eqn:Cab; [destruct (cmp b c) eqn:Cbc; [| destruct (cmp a c) eqn:Cac]
                               | destruct (cmp a c) eqn:Cac; [| destruct (cmp b c) eqn:Cbc]].
  - destruct (iter_swap_first v mid z b (n - 1)%nat c Hz Hb) as (v0 & E & R); auto; try lia.
    exists v0, b. now split.
  - destruct (iter_swap_first v (n - 1)%nat z c mid b Hz Hc) as (v0 & E & R); auto; try lia.
    exists v0, c. now split.
  - destruct (iter_swap_first v 1%nat z a mid b Hz Ha) as (v0 & E & R); auto; try lia.
    exists v0, a. now split.
  - destruct (iter_swap_first v 1%nat z a (n - 1)%nat c Hz Ha) as (v0 & E & R); auto; try lia.
    exists v0, a. now split.
  - destruct (iter_swap_first v (n - 1)%nat z c 1%nat a Hz Hc) as (v0 & E & R); auto; try lia.
    exists v0, c. now split.
  - destruct (iter_swap_first v mid z b 1%nat a Hz Hb) as (v0 & E & R); auto; try lia.
    exists v0, b. now split.
Qed.

(** [__unguarded_partition_pivot] on a range of more than three
    elements: both parts are not empty, no element of the first is
    greater than the pivot, no element of the second is less. *)
Lemma unguarded_partition_pivot_spec (s : list T) :
  Forall good s -> (3 < List.length s)%nat ->
  exists cut s' p,
    unguarded_partition_pivot cmp s = Some (cut, s') /\
    Permutation s s' /\ (1 <= cut < List.length s)%nat /\ good p /\
    Forall (fun x => cmp p x = false) (firstn cut s') /\
    Forall (fun y => cmp y p = false) (skipn cut s').
Proof.
  intros G L.
  destruct (move_median_to_first_spec s G L) as (s0 & p & E & P & Hp & k & y & Hk & Hy & Cy).
  unfold unguarded_partition_pivot. rewrite E.
  assert (G0 : Forall good s0) by exact (Permutation_Forall P G).
  assert (L0 : List.length s0 = List.length s) by (symmetry; now apply Permutation_length).
  destruct (unguarded_partition_spec p (List.length s0) s0 1 (List.length s0) G0 Hp)
    as (cut & s' & E' & P' & Bc & Fl & Fr).
  - lia.
  - lia.
  - lia.
  - intros i x Hi. lia.
  - intros j z Hj Hz. apply nth_error_Some_lt in Hz. lia.
  - intros _. now exists k, y.
  - exists cut, s', p. split; [exact E' |]. split; [now rewrite P |].
    split; [lia |]. split; [exact (good_nth s0 0 p G0 Hp) | now split].
Qed.

End Partition.

Section Heap.

Import libstdcxx.
Local Open Scope nat_scope.

Context {T : Type}.
Variable cmp : T -> T -> bool.
Variable good : T -> Prop.

Hypothesis cmp_asym :
  forall x y, good x -> good y -> cmp x y = true -> cmp y x = false.
Hypothesis cmp_negtrans :
  forall x y z, good x -> good y -> good z ->
                cmp y x = false -> cmp z y = false -> cmp z x = false.

Lemma parent_left h : ((2 * h + 1 - 1) / 2 = h)%nat.
Proof.
  replace (2 * h + 1 - 1)%nat with (h * 2)%nat by lia. apply Nat.div_mul. lia.
Qed.

Lemma parent_right h : ((2 * h + 2 - 1) / 2 = h)%nat.
Proof.
  replace (2 * h + 2 - 1)%nat with (1 + h * 2)%nat by lia.
  rewrite Nat.div_add by lia. reflexivity.
Qed.

Lemma parent_child c : (1 <= c)%nat -> (c = 2 * ((c - 1) / 2) + 1 \/ c = 2 * ((c - 1) / 2) + 2)%nat.
Proof.
  intros H. pose proof (Nat.div_mod_eq (c - 1) 2) as E.
  pose proof (Nat.mod_upper_bound (c - 1) 2 ltac:(lia)) as U. lia.
Qed.

Lemma parent_lt c : (1 <= c)%nat -> ((c - 1) / 2 < c)%nat.
Proof.
  intros H. destruct (parent_child c H); lia.
Qed.

Lemma below_ge top h : below top h -> (top <= h)%nat.
Proof.
  induction 1; lia.
Qed.

Lemma below_parent top h :
  below top h -> (top < h)%nat -> below top ((h - 1) / 2) /\ (top <= (h - 1) / 2)%nat.
Proof.
  intros B. destruct B as [| h B | h B]; intros Lt.
  - lia.
  - rewrite parent_left. split; [exact B | now apply below_ge].
  - rewrite parent_right. split; [exact B | now apply below_ge].
Qed.

(** Moving the hole: the element of another position goes into the
    hole and its position becomes the hole. *)
Lemma Permutation_move_hole (u : list T) h c uc x :
  h <> c -> (h < List.length u)%nat -> nth_error u c = Some uc ->
  Permutation (store (store u h uc) c x) (store u h x).
Proof.
  intros N L Hc.
  assert (E : store (store u h uc) c x = store (store (store u h x) h uc) c x)
    by now rewrite store_store.
  rewrite E. symmetry. apply Permutation_swap.
  - now apply nth_error_store_eq.
  - now rewrite nth_error_store_neq.
Qed.


Lemma half_spec n : (n = 2 * (n / 2) \/ n = 2 * (n / 2) + 1)%nat.
Proof.
  pose proof (Nat.div_mod_eq n 2) as E.
  pose proof (Nat.mod_upper_bound n 2 ltac:(lia)) as U. lia.
Qed.

Lemma even_half n : Nat.even n = true -> (n = 2 * (n / 2))%nat.
Proof.
  intros E. apply Nat.even_spec in E. destruct E as [m E].
  destruct (half_spec n); lia.
Qed.

Lemma odd_half n : Nat.even n = false -> (n = 2 * (n / 2) + 1)%nat.
Proof.
  intros E. assert (O : Nat.odd n = true) by (rewrite <- Nat.negb_even, E; reflexivity).
  apply Nat.odd_spec in O. destruct O as [m O].
  destruct (half_spec n); lia.
Qed.

Section Adjust.

Variable v : list T.
Variables top len : nat.
Hypothesis len_le : (len <= List.length v)%nat.

(** The hole moves down to a child that is not less than the other. *)
Lemma hole_down h u c uc :
  Forall good u -> hole_state cmp v top len h u ->
  ((c - 1) / 2 = h)%nat -> (1 <= c < len)%nat -> nth_error u c = Some uc ->
  (forall s us, (1 <= s < len)%nat -> ((s - 1) / 2 = h)%nat -> s <> c ->
                nth_error u s = Some us -> cmp uc us = false) ->
  Forall good (store u h uc) /\ hole_state cmp v top len c (store u h uc).
Proof.
  intros G (L & B & Hl & P & (Links & Above) & Out) Pc Bc Hc Sib.
  assert (Guc : good uc) by exact (good_nth good u c uc G Hc).
  assert (Nhc : h <> c) by (pose proof (parent_lt c ltac:(lia)); lia).
  assert (Bh : (top <= h)%nat) by now apply below_ge.
  split; [now apply Forall_store |].
  split; [now rewrite length_store |].
  split; [destruct (parent_child c ltac:(lia)) as [E | E]; rewrite E, Pc; now constructor |].
  split; [lia |]. split; [| split; [split |]].
  - intros x. rewrite <- (P x). apply Permutation_move_hole; auto. lia.
  - intros d pv dv Bd Td Nd Npd Hp Hd.
    destruct (Nat.eq_dec d h) as [-> | Ndh].
    + (* the node above the old hole *)
      pose proof (parent_lt h ltac:(lia)) as Ph.
      rewrite nth_error_store_eq in Hd by lia. injection Hd as <-.
      rewrite nth_error_store_neq in Hp by lia.
      apply (Above ltac:(lia) c pv uc); auto; lia.
    + rewrite nth_error_store_neq in Hd by congruence.
      destruct (Nat.eq_dec ((d - 1) / 2) h) as [Eh | Nh].
      * (* the other child of the old hole *)
        rewrite Eh, nth_error_store_eq in Hp by lia. injection Hp as <-.
        apply (Sib d); auto.
      * rewrite nth_error_store_neq in Hp by congruence.
        apply (Links d); auto.
  - intros _ d pv dv Bd Pd Pos Hp Hd.
    rewrite Pc, nth_error_store_eq in Hp by lia. injection Hp as <-.
    pose proof (parent_lt d ltac:(lia)) as Pd'. pose proof (parent_lt c ltac:(lia)) as Pc'.
    rewrite nth_error_store_neq in Hd by lia.
    apply (Links d); auto; try lia. now rewrite Pd.
  - intros i Hi. rewrite nth_error_store_neq by lia. now apply Out.
Qed.

Lemma adjust_heap_down_eq fuel (u : list T) holeIndex secondChild :
  adjust_heap_down cmp (S fuel) u holeIndex secondChild len
  = if (secondChild <? (len - 1) / 2)%nat then
      match nth_error u (2 * (secondChild + 1)), nth_error u (2 * (secondChild + 1) - 1) with
      | Some r, Some l =>
          match nth_error u (if cmp r l then (2 * (secondChild + 1) - 1)%nat
                             else (2 * (secondChild + 1))%nat) with
          | None => None
          | Some c =>
              adjust_heap_down cmp fuel (store u holeIndex c)
                (if cmp r l then (2 * (secondChild + 1) - 1)%nat
                 else (2 * (secondChild + 1))%nat)
                (if cmp r l then (2 * (secondChild + 1) - 1)%nat
                 else (2 * (secondChild + 1))%nat) len
          end
      | _, _ => None
      end
    else Some (u, holeIndex, secondChild).
Proof.
  reflexivity.
Qed.

(** The first loop of [__adjust_heap]: the hole goes down, each time
    to the child that is not less than the other, until it has at most
    one child. *)
Lemma adjust_heap_down_spec fuel : forall u h,
  Forall good u -> hole_state cmp v top len h u -> (len - h <= fuel)%nat ->
  exists u' h',
    adjust_heap_down cmp fuel u h h len = Some (u', h', h') /\
    Forall good u' /\ hole_state cmp v top len h' u' /\ ((len - 1) / 2 <= h')%nat.
Proof.
  induction fuel as [| fuel IH]; intros u h G St F.
  - destruct St as (_ & _ & Hl & _). lia.
  - rewrite adjust_heap_down_eq.
    pose proof St as (L & _ & Hl & _).
    destruct (Nat.ltb_spec h ((len - 1) / 2)) as [Lt | Ge].
    + assert (Bc : (2 * (h + 1) < len)%nat) by (destruct (half_spec (len - 1)); lia).
      destruct (nth_error_lt_Some u (2 * (h + 1)) ltac:(lia)) as (r & Hr).
      destruct (nth_error_lt_Some u (2 * (h + 1) - 1) ltac:(lia)) as (l & Hl').
      rewrite Hr, Hl'.
      pose proof (good_nth good u _ _ G Hr) as Gr.
      pose proof (good_nth good u _ _ G Hl') as Gl.
      replace (2 * (h + 1))%nat with (2 * h + 2)%nat in * by lia.
      replace (2 * h + 2 - 1)%nat with (2 * h + 1)%nat in * by lia.
      destruct (cmp r l) eqn:C.
      * rewrite Hl'.
        destruct (hole_down h u (2 * h + 1) l G St) as [G' St'].
        { apply parent_left. }
        { lia. }
        { exact Hl'. }
        { intros s us Bs Ps Ns Hs.
          destruct (parent_child s ltac:(lia)) as [Es | Es]; rewrite Ps in Es; [lia |].
          subst s. assert (us = r) by congruence. subst us. now apply cmp_asym. }
        destruct (IH _ (2 * h + 1)%nat G' St' ltac:(lia)) as (u' & h' & Eq & R).
        exists u', h'. split; [exact Eq | exact R].
      * rewrite Hr.
        destruct (hole_down h u (2 * h + 2) r G St) as [G' St'].
        { apply parent_right. }
        { lia. }
        { exact Hr. }
        { intros s us Bs Ps Ns Hs.
          destruct (parent_child s ltac:(lia)) as [Es | Es]; rewrite Ps in Es; [| lia].
          subst s. assert (us = l) by congruence. subst us. exact C. }
        destruct (IH _ (2 * h + 2)%nat G' St' ltac:(lia)) as (u' & h' & Eq & R).
        exists u', h'. split; [exact Eq | exact R].
    + exists u, h. split; [reflexivity |]. split; [exact G |]. split; [exact St | exact Ge].
Qed.

(** The hole moves up over a node that is less than [value]. *)
Lemma hole_up h u p value :
  Forall good u -> good value -> hole_state cmp v top len h u ->
  above_children cmp len h u value ->
  (top < h)%nat -> nth_error u ((h - 1) / 2) = Some p -> cmp p value = true ->
  Forall good (store u h p) /\ hole_state cmp v top len ((h - 1) / 2) (store u h p) /\
  above_children cmp len ((h - 1) / 2) (store u h p) value.
Proof.
  intros G Gv (L & B & Hl & P & (Links & Above) & Out) Ch Lt Hp C.
  assert (Gp : good p) by exact (good_nth good u _ p G Hp).
  pose proof (parent_lt h ltac:(lia)) as Ph.
  destruct (below_parent top h B Lt) as [Bp Tp].
  set (par := ((h - 1) / 2)%nat) in *.
  assert (Link_par : forall d dv, (1 <= d < len)%nat -> ((d - 1) / 2 = par)%nat -> d <> h ->
                                  nth_error u d = Some dv -> cmp p dv = false).
  { intros d dv Bd Pd Nd Hd. apply (Links d p dv); auto; try lia.
    now rewrite Pd. }
  split; [now apply Forall_store |]. split; [| ].
  - split; [now rewrite length_store |]. split; [exact Bp |]. split; [lia |].
    split; [| split; [split |]].
    + intros x. rewrite <- (P x). apply Permutation_move_hole; auto; lia.
    + intros d pv dv Bd Td Nd Npd Hpv Hdv.
      assert (Ndh : d <> h) by (intros ->; now apply Npd).
      rewrite nth_error_store_neq in Hdv by congruence.
      destruct (Nat.eq_dec ((d - 1) / 2) h) as [Eh | Nh].
      * rewrite Eh, nth_error_store_eq in Hpv by lia. injection Hpv as <-.
        apply (Above Lt d p dv); auto; lia.
      * rewrite nth_error_store_neq in Hpv by congruence.
        apply (Links d); auto.
    + intros Tlt d pv dv Bd Pd Pos Hpv Hdv.
      pose proof (parent_lt par ltac:(lia)) as Pp.
      destruct (below_parent top par Bp Tlt) as [_ Tgp].
      rewrite nth_error_store_neq in Hpv by lia.
      assert (Gpv : good pv) by exact (good_nth good u _ pv G Hpv).
      assert (Cgp : cmp pv p = false).
      { apply (Links par pv p); auto; lia. }
      destruct (Nat.eq_dec d h) as [-> | Ndh].
      * rewrite nth_error_store_eq in Hdv by lia. now injection Hdv as <-.
      * rewrite nth_error_store_neq in Hdv by congruence.
        apply (cmp_negtrans dv p pv);
          [exact (good_nth good u _ dv G Hdv) | exact Gp | exact Gpv
          | now apply (Link_par d) | exact Cgp].
    + intros i Hi. rewrite nth_error_store_neq by lia. now apply Out.
  - intros d dv Bd Pd Hdv.
    destruct (Nat.eq_dec d h) as [-> | Ndh].
    + rewrite nth_error_store_eq in Hdv by lia. injection Hdv as <-. now apply cmp_asym.
    + rewrite nth_error_store_neq in Hdv by congruence.
      apply (cmp_negtrans dv p value);
        [exact (good_nth good u _ dv G Hdv) | exact Gp | exact Gv
        | now apply (Link_par d) | now apply cmp_asym].
Qed.

Lemma push_heap_eq fuel (u : list T) holeIndex value :
  push_heap cmp (S fuel) u holeIndex top value
  = if (top <? holeIndex)%nat then
      match nth_error u ((holeIndex - 1) / 2) with
      | None => None
      | Some p =>
          if cmp p value
          then push_heap cmp fuel (store u holeIndex p) ((holeIndex - 1) / 2) top value
          else Some (store u holeIndex value)
      end
    else Some (store u holeIndex value).
Proof.
  reflexivity.
Qed.

(** Putting [value] into the hole when it is not less than the nodes
    below and not greater than the node above. *)
Lemma hole_filled h u value :
  Forall good u -> good value -> hole_state cmp v top len h u ->
  above_children cmp len h u value ->
  ((top < h)%nat -> forall p, nth_error u ((h - 1) / 2) = Some p -> cmp p value = false) ->
  Forall good (store u h value) /\ List.length (store u h value) = List.length v /\
  heap_from cmp top len (store u h value) /\
  Permutation (store u h value) (store v top value) /\
  (forall i, (i < top \/ len <= i)%nat -> nth_error (store u h value) i = nth_error v i).
Proof.
  intros G Gv (L & B & Hl & P & (Links & Above) & Out) Ch Up.
  pose proof (below_ge top h B) as Th.
  split; [now apply Forall_store |]. split; [now rewrite length_store |].
  split; [| split; [apply P |]].
  - intros d pv dv Bd Td Hpv Hdv.
    pose proof (parent_lt d ltac:(lia)) as Pd.
    destruct (Nat.eq_dec d h) as [-> | Ndh].
    + rewrite nth_error_store_eq in Hdv by lia. injection Hdv as <-.
      rewrite nth_error_store_neq in Hpv by lia.
      apply (Up ltac:(lia) pv Hpv).
    + rewrite nth_error_store_neq in Hdv by congruence.
      destruct (Nat.eq_dec ((d - 1) / 2) h) as [Eh | Nh].
      * rewrite Eh, nth_error_store_eq in Hpv by lia. injection Hpv as <-.
        now apply (Ch d).
      * rewrite nth_error_store_neq in Hpv by congruence.
        apply (Links d); auto.
  - intros i Hi. rewrite nth_error_store_neq by lia. now apply Out.
Qed.

Lemma push_heap_spec value fuel : forall u h,
  Forall good u -> good value -> hole_state cmp v top len h u ->
  above_children cmp len h u value -> (h < fuel)%nat ->
  exists w,
    push_heap cmp fuel u h top value = Some w /\
    Forall good w /\ List.length w = List.length v /\ heap_from cmp top len w /\
    Permutation w (store v top value) /\
    (forall i, (i < top \/ len <= i)%nat -> nth_error w i = nth_error v i).
Proof.
  induction fuel as [| fuel IH]; intros u h G Gv St Ch F; [lia |].
  rewrite push_heap_eq.
  pose proof St as (L & B & Hl & _).
  destruct (Nat.ltb_spec top h) as [Lt | Ge].
  - pose proof (parent_lt h ltac:(lia)) as Ph.
    destruct (nth_error_lt_Some u ((h - 1) / 2) ltac:(lia)) as (p & Hp).
    rewrite Hp. destruct (cmp p value) eqn:C.
    + destruct (hole_up h u p value G Gv St Ch Lt Hp C) as (G' & St' & Ch').
      apply (IH _ _ G' Gv St' Ch'). lia.
    + eexists. split; [reflexivity |].
      apply hole_filled; auto. intros _ p' Hp'. congruence.
  - eexists. split; [reflexivity |].
    apply hole_filled; auto. intros Lt. lia.
Qed.

End Adjust.

(** [__adjust_heap]: with the heap in order below [hole], [value]
    takes its place among the nodes from [hole] down. *)
Lemma adjust_heap_spec (v : list T) hole len value :
  Forall good v -> good value -> (hole < len <= List.length v)%nat ->
  heap_from cmp (S hole) len v ->
  exists w,
    adjust_heap cmp v hole len value = Some w /\
    Forall good w /\ List.length w = List.length v /\ heap_from cmp hole len w /\
    Permutation w (store v hole value) /\
    (forall i, (i < hole \/ len <= i)%nat -> nth_error w i = nth_error v i).
Proof.
  intros G Gv B H.
  assert (St : hole_state cmp v hole len hole v).
  { split; [reflexivity |]. split; [constructor |]. split; [lia |].
    split; [reflexivity |]. split; [split |].
    - intros c pv cv Bc Tc Nc Npc Hpv Hcv. apply (H c pv cv); auto. lia.
    - intros Lt. lia.
    - reflexivity. }
  destruct (adjust_heap_down_spec v hole len ltac:(lia) (S len) v hole G St ltac:(lia))
    as (u & h & E & Gu & Stu & Low).
  unfold adjust_heap. rewrite E.
  pose proof Stu as (L & Bh & Hl & _).
  destruct (Nat.even len && (h =? (len - 2) / 2)%nat)%bool eqn:Single.
  - apply andb_prop in Single. destruct Single as [Ev Eh].
    apply Nat.eqb_eq in Eh. pose proof (even_half len Ev) as El.
    assert (Eh' : (2 * h + 1 = len - 1)%nat) by (destruct (half_spec (len - 2)); lia).
    replace (2 * (h + 1) - 1)%nat with (2 * h + 1)%nat by lia.
    destruct (nth_error_lt_Some u (2 * h + 1) ltac:(lia)) as (c & Hc).
    rewrite Hc.
    destruct (hole_down v hole len ltac:(lia) h u (2 * h + 1) c Gu Stu) as [G' St'].
    { apply parent_left. }
    { lia. }
    { exact Hc. }
    { intros s us Bs Ps Ns Hs.
      destruct (parent_child s ltac:(lia)) as [Es | Es]; rewrite Ps in Es; lia. }
    apply (push_heap_spec v hole len ltac:(lia) value (S len) _ _ G' Gv St'); [| lia].
    intros d dv Bd Pd Hd. destruct (parent_child d ltac:(lia)) as [Ed | Ed]; rewrite Pd in Ed; lia.
  - apply (push_heap_spec v hole len ltac:(lia) value (S len) _ _ Gu Gv Stu); [| lia].
    intros d dv Bd Pd Hd. exfalso.
    apply andb_false_iff in Single.
    destruct (parent_child d ltac:(lia)) as [Ed | Ed]; rewrite Pd in Ed.
    all: destruct (Nat.even len) eqn:Ev;
      [ pose proof (even_half len Ev) | pose proof (odd_half len Ev) ].
    all: destruct Single as [Single | Single]; try discriminate.
    all: try apply Nat.eqb_neq in Single.
    all: destruct (half_spec (len - 1)); destruct (half_spec (len - 2)); lia.
Qed.

Lemma heap_from_weaken k k' len (v : list T) :
  (k <= k')%nat -> heap_from cmp k len v -> heap_from cmp k' len v.
Proof.
  intros Le H c pv cv Bc Tc. apply H; auto. lia.
Qed.

(** In a heap no element is greater than the first. *)
Lemma heap_root (v : list T) len r :
  Forall good v -> (len <= List.length v)%nat -> heap_from cmp 0 len v ->
  nth_error v 0 = Some r ->
  forall i x, (i < len)%nat -> nth_error v i = Some x -> cmp r x = false.
Proof.
  intros G L H Hr i. induction i as [i IH] using lt_wf_ind. intros x Hi Hx.
  assert (Gr : good r) by exact (good_nth good v 0 r G Hr).
  destruct (Nat.eq_dec i 0) as [-> | Ni].
  - assert (x = r) by congruence. subst x. now apply (cmp_irrefl cmp good cmp_asym).
  - pose proof (parent_lt i ltac:(lia)) as Pi.
    destruct (nth_error_lt_Some v ((i - 1) / 2) ltac:(lia)) as (pv & Hpv).
    apply (cmp_negtrans x pv r);
      [exact (good_nth good v i x G Hx) | exact (good_nth good v _ pv G Hpv) | exact Gr | |].
    + apply (H i pv x); auto; lia.
    + apply (IH ((i - 1) / 2)%nat); auto; lia.
Qed.

Lemma make_heap_loop_eq (v : list T) len parent :
  make_heap_loop cmp v len parent
  = match nth_error v parent with
    | None => None
    | Some value =>
        match adjust_heap cmp v parent len value with
        | None => None
        | Some v =>
            match parent with
            | O => Some v
            | S parent' => make_heap_loop cmp v len parent'
            end
        end
    end.
Proof.
  destruct parent; reflexivity.
Qed.

Lemma make_heap_loop_spec len : forall parent (v : list T),
  Forall good v -> (parent < len <= List.length v)%nat ->
  heap_from cmp (S parent) len v ->
  exists w, make_heap_loop cmp v len parent = Some w /\
            Forall good w /\ List.length w = List.length v /\ heap_from cmp 0 len w /\
            Permutation w v /\
            (forall i, (len <= i)%nat -> nth_error w i = nth_error v i).
Proof.
  induction parent as [| parent IH]; intros v G B H.
  - destruct (nth_error_lt_Some v 0 ltac:(lia)) as (value & Hv).
    destruct (adjust_heap_spec v 0 len value G (good_nth good v 0 value G Hv) B H)
      as (w & E & Gw & Lw & Hw & Pw & Ow).
    rewrite make_heap_loop_eq, Hv, E. exists w.
    split; [reflexivity |]. split; [exact Gw |]. split; [exact Lw |]. split; [exact Hw |].
    split.
    + now rewrite Pw, (store_same v 0 value Hv).
    + intros i Hi. apply Ow. lia.
  - destruct (nth_error_lt_Some v (S parent) ltac:(lia)) as (value & Hv).
    destruct (adjust_heap_spec v (S parent) len value G (good_nth good v _ value G Hv) B H)
      as (w & E & Gw & Lw & Hw & Pw & Ow).
    destruct (IH w Gw ltac:(lia) Hw) as (w' & E' & Gw' & Lw' & Hw' & Pw' & Ow').
    rewrite make_heap_loop_eq, Hv, E, E'. exists w'.
    split; [reflexivity |]. split; [exact Gw' |]. split; [lia |]. split; [exact Hw' |].
    split.
    + now rewrite Pw', Pw, (store_same v _ value Hv).
    + intros i Hi. rewrite Ow' by lia. apply Ow. lia.
Qed.

Lemma make_heap_spec (v : list T) :
  Forall good v ->
  exists w, make_heap cmp v (List.length v) = Some w /\
            Forall good w /\ List.length w = List.length v /\ heap_from cmp 0 (List.length v) w /\
            Permutation w v.
Proof.
  intros G. unfold make_heap.
  destruct (Nat.ltb_spec (List.length v) 2) as [Small | Big].
  - exists v. split; [reflexivity |]. split; [exact G |]. split; [reflexivity |].
    split; [| reflexivity]. intros c pv cv Bc Tc Hp Hc. lia.
  - destruct (make_heap_loop_spec (List.length v) ((List.length v - 2) / 2) v G)
      as (w & E & Gw & Lw & Hw & Pw & _).
    + destruct (half_spec (List.length v - 2)); lia.
    + intros c pv cv Bc Tc Hp Hc. exfalso.
      pose proof (parent_child c ltac:(lia)).
      destruct (half_spec (List.length v - 2)); lia.
    + exists w. split; [exact E |]. split; [exact Gw |]. split; [exact Lw |].
      split; [exact Hw | exact Pw].
Qed.

Lemma Permutation_firstn (w w' : list T) k :
  Permutation w w' -> (forall i, (k <= i)%nat -> nth_error w i = nth_error w' i) ->
  Permutation (firstn k w) (firstn k w').
Proof.
  intros P Out.
  assert (E : skipn k w = skipn k w').
  { apply nth_error_ext. intros n. rewrite !nth_error_skipn. apply Out. lia. }
  rewrite <- (firstn_skipn k w), <- (firstn_skipn k w'), E in P.
  now apply Permutation_app_inv_r in P.
Qed.

Lemma sort_heap_eq (v : list T) last :
  sort_heap cmp v (S last)
  = if (1 <? S last)%nat then
      match pop_heap cmp v last last with
      | None => None
      | Some v => sort_heap cmp v last
      end
    else Some v.
Proof.
  reflexivity.
Qed.

(** [__sort_heap]: the greatest element of the heap goes behind it,
    again and again, so that in the end no element is less than the
    first. *)
Lemma sort_heap_spec : forall last (v : list T),
  Forall good v -> (1 <= last <= List.length v)%nat ->
  heap_from cmp 0 last v -> tail_not_less cmp last v ->
  exists w, sort_heap cmp v last = Some w /\
            Forall good w /\ Permutation w v /\ tail_not_less cmp 1 w.
Proof.
  induction last as [| last IH]; intros v G B H Tl; [lia |].
  rewrite sort_heap_eq.
  destruct (Nat.ltb_spec 1 (S last)) as [Big | Small].
  - destruct (nth_error_lt_Some v last ltac:(lia)) as (value & Hv).
    destruct (nth_error_lt_Some v 0 ltac:(lia)) as (r & Hr).
    pose proof (good_nth good v _ _ G Hv) as Gv.
    pose proof (good_nth good v _ _ G Hr) as Gr.
    unfold pop_heap. rewrite Hv, Hr.
    set (v1 := store v last r).
    assert (G1 : Forall good v1) by now apply Forall_store.
    assert (L1 : List.length v1 = List.length v) by apply length_store.
    assert (H1 : heap_from cmp 1 last v1).
    { intros c pv cv Bc Tc Hp Hc. pose proof (parent_lt c ltac:(lia)).
      unfold v1 in Hp, Hc. rewrite nth_error_store_neq in Hp, Hc by lia.
      apply (H c pv cv); auto; lia. }
    destruct (adjust_heap_spec v1 0 last value G1 Gv ltac:(lia) H1)
      as (w & E & Gw & Lw & Hw & Pw & Ow).
    rewrite E.
    assert (Pv : Permutation w v).
    { rewrite Pw. unfold v1. symmetry. now apply Permutation_swap. }
    assert (Nw : forall i, (last <= i)%nat -> nth_error w i = nth_error v1 i).
    { intros i Hi. apply Ow. lia. }
    assert (In_first : forall x, In x (firstn last w) -> In x (firstn (S last) v)).
    { intros x Hx.
      assert (Nw' : forall i, (last <= i)%nat ->
                              nth_error w i = nth_error (store v1 0 value) i).
      { intros i Hi. rewrite nth_error_store_neq by lia. now apply Nw. }
      apply (Permutation_in _ (Permutation_firstn w _ last Pw Nw')) in Hx.
      apply In_nth_error in Hx. destruct Hx as (i & Hi).
      rewrite nth_error_firstn in Hi. destruct (Nat.ltb_spec i last) as [Li |]; [| discriminate].
      destruct (Nat.eq_dec i 0) as [-> | Ni].
      - rewrite nth_error_store_eq in Hi by lia. injection Hi as <-.
        apply (nth_error_In (firstn (S last) v) last).
        rewrite nth_error_firstn. destruct (Nat.ltb_spec last (S last)); [exact Hv | lia].
      - unfold v1 in Hi. rewrite !nth_error_store_neq in Hi by lia.
        apply (nth_error_In (firstn (S last) v) i).
        rewrite nth_error_firstn. destruct (Nat.ltb_spec i (S last)); [exact Hi | lia]. }
    destruct (IH w Gw ltac:(lia) Hw) as (w' & E' & Gw' & Pw' & Tw').
    + intros x y Hx Hy. apply In_first in Hx.
      apply In_nth_error in Hy. destruct Hy as (j & Hj).
      rewrite nth_error_skipn, Nw in Hj by lia.
      destruct (Nat.eq_dec j 0) as [-> | Nj].
      * rewrite Nat.add_0_r in Hj. unfold v1 in Hj.
        rewrite nth_error_store_eq in Hj by lia. injection Hj as <-.
        apply In_nth_error in Hx. destruct Hx as (i & Hi).
        rewrite nth_error_firstn in Hi.
        destruct (Nat.ltb_spec i (S last)) as [Li |]; [| discriminate].
        now apply (heap_root v (S last) r G ltac:(lia) H Hr i).
      * unfold v1 in Hj. rewrite nth_error_store_neq in Hj by lia.
        apply (Tl x y Hx). apply (nth_error_In _ (j - 1)).
        rewrite nth_error_skipn. now replace (S last + (j - 1))%nat with (last + j)%nat by lia.
    + exists w'. split; [exact E' |]. split; [exact Gw' |]. split; [| exact Tw'].
      now rewrite Pw'.
  - assert (last = 0)%nat as -> by lia.
    exists v. split; [reflexivity |]. split; [exact G |]. split; [reflexivity | exact Tl].
Qed.

(** [__partial_sort] over a whole range leaves a permutation of it in
    which no element is less than the first. *)
Lemma partial_sort_spec (s : list T) :
  Forall good s -> (1 <= List.length s)%nat ->
  exists s', partial_sort cmp s = Some s' /\
             Forall good s' /\ Permutation s s' /\ tail_not_less cmp 1 s'.
Proof.
  intros G L. unfold partial_sort.
  destruct (make_heap_spec s G) as (w & -> & Gw & Lw & Hw & Pw).
  destruct (sort_heap_spec (List.length w) w Gw ltac:(lia)) as (s' & E & Gs & Ps & Ts).
  - now rewrite Lw.
  - intros x y _ Hy. rewrite skipn_all in Hy. destruct Hy.
  - exists s'. split; [exact E |]. split; [exact Gs |]. split; [| exact Ts].
    now rewrite Ps, Pw.
Qed.

End Heap.

Section Introsort.

Import libstdcxx.
Local Open Scope nat_scope.

Context {T : Type}.
Variable cmp : T -> T -> bool.
Variable good : T -> Prop.

Hypothesis cmp_asym :
  forall x y, good x -> good y -> cmp x y = true -> cmp y x = false.
Hypothesis cmp_negtrans :
  forall x y z, good x -> good y -> good z ->
                cmp y x = false -> cmp z y = false -> cmp z x = false.

Lemma introsort_loop_eq depth_limit (s : list T) :
  introsort_loop cmp depth_limit s
  = if (S_threshold <? List.length s)%nat then
      match depth_limit with
      | O => partial_sort cmp s
      | S depth_limit =>
          match unguarded_partition_pivot cmp s with
          | None => None
          | Some (cut, s) =>
              match introsort_loop cmp depth_limit (skipn cut s) with
              | None => None
              | Some upper =>
                  match introsort_loop cmp depth_limit (firstn cut s) with
                  | None => None
                  | Some lower => Some (lower ++ upper)
                  end
              end
          end
      end
    else Some s.
Proof.
  destruct depth_limit; reflexivity.
Qed.

Lemma tail_not_less_guarded k (s : list T) :
  (1 <= k)%nat -> tail_not_less cmp 1 s -> guarded_from cmp k s.
Proof.
  intros Hk Tl i x Hi Hx.
  destruct s as [| y s]; [destruct i; discriminate |].
  destruct i as [| i]; [lia |].
  exists y. split; [now left |].
  apply Tl; [now left |]. simpl in *. now apply nth_error_In in Hx.
Qed.

(** [__introsort_loop] leaves a permutation of the range in which
    every element from the threshold on has an element before it that
    is not greater. *)
Lemma introsort_loop_spec : forall depth_limit (s : list T),
  Forall good s ->
  exists s', introsort_loop cmp depth_limit s = Some s' /\
             Permutation s s' /\ guarded_from cmp S_threshold s'.
Proof.
  induction depth_limit as [| depth IH]; intros s G; rewrite introsort_loop_eq.
  all: destruct (Nat.ltb_spec S_threshold (List.length s)) as [Long | Short].
  - destruct (partial_sort_spec cmp good cmp_asym cmp_negtrans s G
                ltac:(unfold S_threshold in *; lia)) as (s' & E & Gs & Ps & Ts).
    exists s'. split; [exact E |]. split; [exact Ps |].
    apply tail_not_less_guarded; [unfold S_threshold; lia | exact Ts].
  - exists s. split; [reflexivity |]. split; [reflexivity |].
    intros i x Hi Hx. apply nth_error_Some_lt in Hx. lia.
  - destruct (unguarded_partition_pivot_spec cmp good cmp_asym s G
                ltac:(unfold S_threshold in *; lia))
      as (cut & s1 & p & -> & P1 & Bc & Gp & Fl & Fr).
    assert (G1 : Forall good s1) by exact (Permutation_Forall P1 G).
    assert (L1 : List.length s1 = List.length s) by (symmetry; now apply Permutation_length).
    assert (Gl : Forall good (firstn cut s1)).
    { rewrite Forall_forall in *. intros x Hx. apply G1. eapply In_firstn; eauto. }
    assert (Gr : Forall good (skipn cut s1)).
    { rewrite Forall_forall in *. intros x Hx. apply G1. eapply In_skipn; eauto. }
    destruct (IH _ Gr) as (upper & -> & Pu & _).
    destruct (IH _ Gl) as (lower & -> & Pl & Gdl).
    exists (lower ++ upper). split; [reflexivity |]. split.
    + rewrite P1, <- (firstn_skipn cut s1) at 1. now apply Permutation_app.
    + assert (Ll : List.length lower = cut).
      { rewrite <- (Permutation_length Pl), length_firstn. lia. }
      intros i x Hi Hx.
      destruct (Nat.lt_ge_cases i (List.length lower)) as [Lt | Ge].
      * rewrite nth_error_app1 in Hx by exact Lt.
        destruct (Gdl i x Hi Hx) as (y & Hy & Cy).
        exists y. split; [| exact Cy].
        rewrite firstn_app. apply in_or_app. now left.
      * rewrite nth_error_app2 in Hx by exact Ge.
        apply nth_error_In in Hx.
        destruct lower as [| y lower]; [simpl in Ll; lia |].
        exists y. split.
        -- rewrite firstn_app. apply in_or_app. left.
           rewrite firstn_all2 by lia. now left.
        -- assert (Hy : In y (firstn cut s1)).
           { apply (Permutation_in _ (Permutation_sym Pl)). now left. }
           assert (Hx' : In x (skipn cut s1)).
           { now apply (Permutation_in _ (Permutation_sym Pu)). }
           rewrite Forall_forall in Fl, Fr, Gl, Gr.
           apply (cmp_negtrans y p x); auto.
  - exists s. split; [reflexivity |]. split; [reflexivity |].
    intros i x Hi Hx. apply nth_error_Some_lt in Hx. lia.
Qed.

(** The library sort returns, and returns a in_order permutation of its
    input, whenever the comparison is a strict weak ordering on the
    elements. *)
Theorem sort_sorts (v : list T) :
  Forall good v ->
  exists v', sort cmp v = Some v' /\ Permutation v v' /\ in_order cmp v'.
Proof.
  intros G. unfold sort. destruct v as [| a v].
  - exists []. split; [reflexivity |]. split; [constructor |].
    intros i j x y _ Hi. destruct i; discriminate.
  - destruct (introsort_loop_spec (lg (List.length (a :: v)) * 2) (a :: v) G) as (v1 & -> & P1 & Gd).
    destruct (final_insertion_sort_sorts cmp good cmp_asym cmp_negtrans v1
                (Permutation_Forall P1 G) Gd) as (v' & E & P & S).
    exists v'. split; [exact E |]. split; [now rewrite P1 | exact S].
Qed.

End Introsort.

(** The library sort on shapes ordered by area. *)
Lemma libstdcxx_sort_returns l :
  nan_free l ->
  exists l', libstdcxx.sort comp l = Some l' /\ Permutation l l' /\ sorted_wrt comp l'.
Proof.
  intros N.
  exact (sort_sorts comp (fun s => PrimFloat.is_nan (area s) = false)
           comp_asym comp_negtrans l N).
Qed.

Lemma libstdcxx_sort_conforming : conforming libstdcxx_sort.
Proof.
  intros l N. unfold std_sort_post, libstdcxx_sort.
  destruct (libstdcxx_sort_returns l N) as (l' & R & P & S).
  rewrite R. now split.
Qed.

(** ** The aggregation pass *)

Lemma count_cons p s l : count p (s :: l) = (if p s then 1 else 0) + count p l.
Proof.
  unfold count. simpl. destruct (p s); simpl List.length; lia.
Qed.

Lemma count_nonneg p l : 0 <= count p l.
Proof. unfold count. lia. Qed.

Lemma count_perm p l l' : Permutation l l' -> count p l = count p l'.
Proof.
  induction 1 as [| x l l' P IH | x y l | l l' l'' P1 IH1 P2 IH2].
  - reflexivity.
  - rewrite !count_cons. lia.
  - rewrite !count_cons. lia.
  - lia.
Qed.

Lemma count_polygons l :
  count is_Polygon l = count is_Rectangle l + count is_Square l + count is_Triangle l.
Proof.
  induction l as [| s l IH]; [reflexivity |].
  rewrite !count_cons, IH.
  destruct s; cbv [is_Polygon as_Polygon is_Rectangle is_Square is_Triangle]; lia.
Qed.

Lemma fold_totalPerimeter l t0 :
  totalPerimeter (fold_left accumulate l t0)
  = fold_left (fun acc s => (acc + perimeter s)%float) l (totalPerimeter t0).
Proof.
  revert t0. induction l as [| s l IH]; intros t0; simpl; [reflexivity |].
  rewrite IH. unfold accumulate. now destruct (as_Polygon s).
Qed.

Lemma fold_totalPolygons l t0 :
  0 <= totalPolygons t0 < 2 ^ UINT_WIDTH ->
  totalPolygons (fold_left accumulate l t0)
  = (totalPolygons t0 + count is_Polygon l) mod 2 ^ UINT_WIDTH.
Proof.
  revert t0. induction l as [| s l IH]; intros t0 B; simpl fold_left.
  - unfold count. simpl. rewrite Z.add_0_r. symmetry. now apply Z.mod_small.
  - rewrite count_cons. unfold is_Polygon at 1, accumulate at 2.
    destruct (as_Polygon s) as [polygon |]; rewrite IH; simpl totalPolygons.
    + unfold unsigned_incr, unsigned_wrap.
      rewrite Zplus_mod_idemp_l. f_equal. lia.
    + unfold unsigned_incr, unsigned_wrap. apply Z.mod_pos_bound. 
      unfold UINT_WIDTH. lia.
    + f_equal. 
    + exact B.
Qed.

Lemma fold_totalPolygonSides l t0 k :
  Forall constructed l ->
  totalPolygonSides t0 = double_of_Z k -> 0 <= k ->
  k + (4 * (count is_Rectangle l + count is_Square l) + 3 * count is_Triangle l) <= 2 ^ 53 ->
  totalPolygonSides (fold_left accumulate l t0)
  = double_of_Z (k + (4 * (count is_Rectangle l + count is_Square l) + 3 * count is_Triangle l)).
Proof.
  intros C. revert t0 k. induction C as [| s l Cs Cl IH]; intros t0 k E Hk B; simpl fold_left.
  - unfold count. simpl. now rewrite Z.add_0_r.
  - rewrite !count_cons in *.
    pose proof (count_nonneg is_Rectangle l). pose proof (count_nonneg is_Square l).
    pose proof (count_nonneg is_Triangle l).
    destruct Cs as [r | len w | side | a b c];
      cbv [is_Rectangle is_Square is_Triangle Circle Rectangle Square Triangle] in *.
    + rewrite (IH _ k); [f_equal; lia | exact E | exact Hk | lia].
    + rewrite (IH _ (k + 4)); [f_equal; lia | | lia | lia].
      simpl. rewrite E. apply double_of_Z_add; lia.
    + rewrite (IH _ (k + 4)); [f_equal; lia | | lia | lia].
      simpl. rewrite E. apply double_of_Z_add; lia.
    + rewrite (IH _ (k + 3)); [f_equal; lia | | lia | lia].
      simpl. rewrite E. apply double_of_Z_add; lia.
Qed.

Lemma fold_no_polygon l t0 :
  Forall (fun s => as_Polygon s = None) l ->
  totalPolygons (fold_left accumulate l t0) = totalPolygons t0 /\
  totalPolygonSides (fold_left accumulate l t0) = totalPolygonSides t0.
Proof.
  intros F. revert t0. induction F as [| s l Hs F IH]; intros t0; simpl; [now split |].
  destruct (IH (accumulate t0 s)) as [-> ->]. unfold accumulate. now rewrite Hs.
Qed.

Lemma count_zero_no_polygon l :
  count is_Polygon l = 0 -> Forall (fun s => as_Polygon s = None) l.
Proof.
  induction l as [| s l IH]; intros H; constructor.
  - rewrite count_cons in H. pose proof (count_nonneg is_Polygon l).
    unfold is_Polygon at 1 in H. destruct (as_Polygon s); [lia | reflexivity].
  - apply IH. rewrite count_cons in H. pose proof (count_nonneg is_Polygon l).
    destruct (is_Polygon s); lia.
Qed.

(** ** The whole run *)

Lemma main_opened srt uninit fs text :
  fs "shapes.txt" = Some text ->
  main srt uninit fs =
    {| exit_status := 0;
       cout := fold_left print_shape
                 (srt comp (fst (loadList_loop uninit 0 (getlines text) [] []))) []
               ++ summary (srt comp (fst (loadList_loop uninit 0 (getlines text) [] [])))
                    (aggregate (srt comp (fst (loadList_loop uninit 0 (getlines text) [] []))));
       cerr := snd (loadList_loop uninit 0 (getlines text) [] []) |}.
Proof.
  intros E. unfold main, loadList. rewrite E.
  now destruct (loadList_loop uninit 0 (getlines text) [] []).
Qed.

Lemma main_not_opened srt uninit fs :
  fs "shapes.txt" = None ->
  main srt uninit fs = {| exit_status := EXIT_FAILURE; cout := []; cerr := [] |}.
Proof.
  intros E. unfold main, loadList. now rewrite E.
Qed.

Lemma Permutation_nil_sort (srt : (Shape -> Shape -> bool) -> list Shape -> list Shape) :
  Permutation [] (srt comp []) -> srt comp [] = [].
Proof.
  intros P. now apply Permutation_nil.
Qed.

Lemma count_repeat_Square n :
  count is_Polygon (repeat (Square 1) n) = Z.of_nat n /\
  count is_Square (repeat (Square 1) n) = Z.of_nat n.
Proof.
  induction n as [| n [IH1 IH2]]; [split; reflexivity |].
  change (repeat (Square 1) (S n)) with (Square 1 :: repeat (Square 1) n).
  rewrite !count_cons, IH1, IH2.
  cbv [is_Polygon as_Polygon is_Square Square]. split; lia.
Qed.

Lemma totalPolygons_count l :
  totalPolygons (aggregate l) = count is_Polygon l mod 2 ^ 32.
Proof.
  unfold aggregate. rewrite fold_totalPolygons; [reflexivity |].
  split; reflexivity.
Qed.

Lemma getlines_squares_text n : getlines (squares_text n) = repeat "S 1" n.
Proof.
  induction n as [| n IH]; [reflexivity |].
  simpl. now rewrite IH.
Qed.

Lemma loadList_loop_squares uninit n i shapes err :
  loadList_loop uninit i (repeat "S 1" n) shapes err
  = (shapes ++ repeat (Square 1) n, err).
Proof.
  revert i shapes. induction n as [| n IH]; intros i shapes; simpl repeat.
  - simpl. now rewrite app_nil_r.
  - simpl loadList_loop.
    change (loadList_body (uninit i) "S 1" shapes err) with (shapes ++ [Square 1], err).
    rewrite IH, <- app_assoc. reflexivity.
Qed.

(** * The claims *)

(** C1 (as amended).  When no loaded shape has a not-a-number area,
    the sort [main] performs, [std::sort] as the GNU library
    implements it, returns, and [main] prints the loaded shapes, each
    once, in ascending order of area.  Nothing is said about the order
    of shapes of equal area. *)
Theorem main_prints_ascending_area uninit fs text :
  fs "shapes.txt" = Some text ->
  nan_free (fst (loadList_loop uninit 0 (getlines text) [] [])) ->
  exists sorted,
    libstdcxx.sort comp (fst (loadList_loop uninit 0 (getlines text) [] [])) = Some sorted /\
    Permutation (fst (loadList_loop uninit 0 (getlines text) [] [])) sorted /\
    ascending_area sorted /\
    cout (main libstdcxx_sort uninit fs)
    = fold_left print_shape sorted [] ++ summary sorted (aggregate sorted).
Proof.
  intros E N.
  destruct (libstdcxx_sort_returns _ N) as (sorted & R & P & S).
  exists sorted. split; [exact R |]. split; [exact P |]. split.
  - apply sorted_wrt_ascending; [| exact S].
    unfold nan_free in *. now apply (Permutation_Forall P).
  - rewrite (main_opened _ _ _ _ E). unfold libstdcxx_sort. now rewrite R.
Qed.

(** The run on the file of the lines [C 2] and [S 3]. *)
Lemma main_prints_ascending_area_witness :
  exists sorted,
    libstdcxx.sort comp (fst (loadList_loop stale_locals 0 (getlines scenario1_text) [] []))
    = Some sorted /\
    Permutation (fst (loadList_loop stale_locals 0 (getlines scenario1_text) [] [])) sorted /\
    ascending_area sorted /\
    cout (main libstdcxx_sort stale_locals (only_shapes_txt scenario1_text))
    = fold_left print_shape sorted [] ++ summary sorted (aggregate sorted).
Proof.
  apply (main_prints_ascending_area stale_locals (only_shapes_txt scenario1_text)
           scenario1_text).
  - reflexivity.
  - vm_compute. repeat constructor.
Defined.

(** C1 (as stated) fails: the sort is not stable.  In a file of
    seventeen lines, a 1 by 1 rectangle followed by sixteen squares of
    side 1, all shapes have the same area; the library sort moves the
    rectangle of the first line to the tenth place, and [main] prints
    nine squares before it. *)
Lemma std_sort_not_stable :
  fst (loadList_loop stale_locals 0 (getlines seventeen_text) [] [])
  = Rectangle 1 1 :: repeat (Square 1) 16 /\
  nan_free (Rectangle 1 1 :: repeat (Square 1) 16) /\
  area (Rectangle 1 1) = area (Square 1) /\
  libstdcxx.sort comp (Rectangle 1 1 :: repeat (Square 1) 16)
  = Some (repeat (Square 1) 9 ++ Rectangle 1 1 :: repeat (Square 1) 7) /\
  ~ stable comp (Rectangle 1 1 :: repeat (Square 1) 16)
                (libstdcxx_sort comp (Rectangle 1 1 :: repeat (Square 1) 16)) /\
  firstn 2 (cout (main libstdcxx_sort stale_locals (only_shapes_txt seventeen_text)))
  = [OStr "Square"; OEndl] /\
  nth_error (cout (main libstdcxx_sort stale_locals (only_shapes_txt seventeen_text))) 18
  = Some (OStr "Rectangle").
Proof.
  split; [reflexivity |].
  split; [repeat constructor |].
  split; [reflexivity |].
  split; [vm_compute; reflexivity |].
  split; [| split; vm_compute; reflexivity].
  intros St. specialize (St (Square 1)). vm_compute in St. discriminate St.
Qed.

(** C2 (as amended).  For every radius between [2^-500] and [2^500]
    the area and the perimeter of a circle are finite; the area is
    below [q * r * r], and the perimeter below [2 * q * r], by a
    relative error between 8 and 10 parts in ten million, for every
    number [q] that agrees with pi to fourteen decimals, as [M_PI]
    does (the program multiplies by 3.14159); and the test
    [|x - y| <= 1e-6 * |y|] against [M_PI * r * r] and [2 * M_PI * r],
    evaluated in binary64, succeeds. *)
Theorem Circle_close_to_pi (r : float) (q : Q) :
  (0x1p-500 <=? r)%float = true -> (r <=? 0x1p+500)%float = true ->
  (3.14159265358979 <= q <= 3.14159265358980)%Q ->
  PrimFloat.is_finite (area (Circle r)) = true /\
  PrimFloat.is_finite (perimeter (Circle r)) = true /\
  (0.0000008 * (q * exact r * exact r)
   <= q * exact r * exact r - exact (area (Circle r))
   <= 0.000001 * (q * exact r * exact r))%Q /\
  (0.0000008 * (2 * q * exact r)
   <= 2 * q * exact r - exact (perimeter (Circle r))
   <= 0.000001 * (2 * q * exact r))%Q /\
  (3.14159265358979 <= exact M_PI <= 3.14159265358980)%Q /\
  within_tolerance 1e-6 (area (Circle r)) (M_PI * r * r) = true /\
  within_tolerance 1e-6 (perimeter (Circle r)) (2 * M_PI * r) = true.
Proof.
  intros Lo Hi Hq.
  destruct (Circle_exact_error r q Lo Hi Hq) as (Fa & Fp & Ea & Ep).
  destruct (Circle_within_tolerance r Lo Hi) as [Ta Tp].
  split; [exact Fa |]. split; [exact Fp |]. split; [exact Ea |]. split; [exact Ep |].
  split; [exact exact_M_PI |]. split; [exact Ta | exact Tp].
Qed.

(** The circle of radius 2. *)
Lemma Circle_close_to_pi_witness :
  PrimFloat.is_finite (area (Circle 2)) = true /\
  PrimFloat.is_finite (perimeter (Circle 2)) = true /\
  (0.0000008 * (3.14159265358979 * exact 2 * exact 2)
   <= 3.14159265358979 * exact 2 * exact 2 - exact (area (Circle 2))
   <= 0.000001 * (3.14159265358979 * exact 2 * exact 2))%Q /\
  (0.0000008 * (2 * 3.14159265358979 * exact 2)
   <= 2 * 3.14159265358979 * exact 2 - exact (perimeter (Circle 2))
   <= 0.000001 * (2 * 3.14159265358979 * exact 2))%Q /\
  (3.14159265358979 <= exact M_PI <= 3.14159265358980)%Q /\
  within_tolerance 1e-6 (area (Circle 2)) (M_PI * 2 * 2) = true /\
  within_tolerance 1e-6 (perimeter (Circle 2)) (2 * M_PI * 2) = true.
Proof.
  apply (Circle_close_to_pi 2 3.14159265358979).
  - reflexivity.
  - reflexivity.
  - split; vm_compute; discriminate.
Defined.

(** C2 (as stated) fails for radii at the ends of the range of
    [double].  At radius [1e200] the area is infinite, and the test of
    closeness to [M_PI * r * r] fails whatever the tolerance.  At
    radius [2.346126947528625e-162] the area is three units of the
    smallest positive [double] where [M_PI * r * r] is four: they
    differ by a quarter, and the test fails at a tolerance of one part
    in ten.  Even at radius 1 the area and the perimeter are not
    within one part in ten million of the values computed with
    [M_PI]. *)
Lemma Circle_not_pi :
  (0 <? 1e200)%float = true /\
  area (Circle 1e200) = infinity /\
  (forall tol, within_tolerance tol (area (Circle 1e200)) (M_PI * 1e200 * 1e200) = false) /\
  (0 <? 2.346126947528625e-162)%float = true /\
  area (Circle 2.346126947528625e-162) = 0x3p-1074%float /\
  (M_PI * 2.346126947528625e-162 * 2.346126947528625e-162)%float = 0x4p-1074%float /\
  within_tolerance 0.1 (area (Circle 2.346126947528625e-162))
    (M_PI * 2.346126947528625e-162 * 2.346126947528625e-162) = false /\
  within_tolerance 1e-7 (area (Circle 1)) (M_PI * 1 * 1) = false /\
  within_tolerance 1e-7 (perimeter (Circle 1)) (2 * M_PI * 1) = false.
Proof.
  split; [reflexivity |]. split; [reflexivity |]. split; [| repeat split].
  intros tol. unfold within_tolerance.
  change (PrimFloat.abs (area (Circle 1e200) - M_PI * 1e200 * 1e200)) with nan.
  rewrite FloatAxioms.leb_spec. reflexivity.
Qed.

(** C3.  When no loaded shape is a polygon, the polygon counter and the
    side total are still zero at the end of the pass, and the last
    summary line carries the quotient of zero by zero, a not-a-number,
    with no test in between.  In particular a file whose only line has
    the code X loads no shape, reports a size of 0 and prints that
    quotient. *)
Theorem zero_polygons_divide_by_zero srt uninit fs text :
  fs "shapes.txt" = Some text ->
  Permutation (fst (loadList_loop uninit 0 (getlines text) [] []))
              (srt comp (fst (loadList_loop uninit 0 (getlines text) [] []))) ->
  (count is_Polygon (fst (loadList_loop uninit 0 (getlines text) [] [])) = 0 ->
   exists names total_perimeter,
     cout (main srt uninit fs)
     = names ++
       [ OStr (String newline "Total Shapes: ");
         OSize (Z.of_nat (List.length (fst (loadList_loop uninit 0 (getlines text) [] []))));
         OEndl;
         OStr "Total Perimeter of all shapes: "; ODouble total_perimeter; OEndl;
         OStr "Total Polygons: "; OUnsigned 0; OEndl;
         OStr "Average Polygon Sides: "; ODouble (0 / double_of_Z 0)%float; OEndl ] /\
     PrimFloat.is_nan (0 / double_of_Z 0)%float = true) /\
  (forall line rest,
     getlines text = [line] -> skipws line = String "X" rest ->
     main srt uninit fs
     = {| exit_status := 0;
          cout := [ OStr (String newline "Total Shapes: "); OSize 0; OEndl;
                    OStr "Total Perimeter of all shapes: "; ODouble 0; OEndl;
                    OStr "Total Polygons: "; OUnsigned 0; OEndl;
                    OStr "Average Polygon Sides: "; ODouble PrimFloat.nan; OEndl ];
          cerr := [ OStr "Unknown shape: "; OChar "X"; OEndl ] |}).
Proof.
  intros E P. rewrite (main_opened _ _ _ _ E). split.
  - intros Z0.
    set (shapes := fst (loadList_loop uninit 0 (getlines text) [] [])) in *.
    rewrite (count_perm _ _ _ P) in Z0.
    destruct (fold_no_polygon (srt comp shapes) Totals_init (count_zero_no_polygon _ Z0))
      as [TP TS].
    exists (fold_left print_shape (srt comp shapes) []),
           (totalPerimeter (aggregate (srt comp shapes))).
    split; [| reflexivity].
    simpl cout. unfold summary, aggregate. rewrite TP, TS.
    rewrite (Permutation_length P). reflexivity.
  - intros line rest L W. rewrite L in *. simpl loadList_loop in *.
    rewrite (loadList_body_unknown _ _ _ _ _ _ W eq_refl) in *. simpl fst in *. simpl snd.
    rewrite (Permutation_nil_sort _ P). reflexivity.
Qed.

(** The run on the file whose only line is [X 1 2]. *)
Lemma zero_polygons_divide_by_zero_witness :
  (exists names total_perimeter,
     cout (main insertion_sort stale_locals (only_shapes_txt scenario2_text))
     = names ++
       [ OStr (String newline "Total Shapes: "); OSize 0; OEndl;
         OStr "Total Perimeter of all shapes: "; ODouble total_perimeter; OEndl;
         OStr "Total Polygons: "; OUnsigned 0; OEndl;
         OStr "Average Polygon Sides: "; ODouble (0 / double_of_Z 0)%float; OEndl ] /\
     PrimFloat.is_nan (0 / double_of_Z 0)%float = true) /\
  main insertion_sort stale_locals (only_shapes_txt scenario2_text)
  = {| exit_status := 0;
       cout := [ OStr (String newline "Total Shapes: "); OSize 0; OEndl;
                 OStr "Total Perimeter of all shapes: "; ODouble 0; OEndl;
                 OStr "Total Polygons: "; OUnsigned 0; OEndl;
                 OStr "Average Polygon Sides: "; ODouble PrimFloat.nan; OEndl ];
       cerr := [ OStr "Unknown shape: "; OChar "X"; OEndl ] |}.
Proof.
  destruct (zero_polygons_divide_by_zero insertion_sort stale_locals
              (only_shapes_txt scenario2_text) scenario2_text) as [Zero Only].
  - reflexivity.
  - vm_compute. constructor.
  - split.
    + apply Zero. reflexivity.
    + apply (Only "X 1 2" " 1 2"); reflexivity.
Defined.

(** C4 (as amended).  For the shapes loaded from any file, after the
    pass over the sorted shapes [totalPerimeter] is the running
    binary64 sum of the perimeters in the order of the pass,
    [totalPolygons] is the number of rectangles, squares and triangles
    reduced modulo [2^32], and [totalPolygonSides] is four times the
    rectangles and squares plus three times the triangles whenever that
    number is at most [2^53]; with fewer than [2^32] polygons both
    counters are exact. *)
Theorem aggregation_totals srt uninit text (shapes : list Shape) :
  shapes = fst (loadList_loop uninit 0 (getlines text) [] []) ->
  Permutation shapes (srt comp shapes) ->
  totalPerimeter (aggregate (srt comp shapes)) = sum_perimeters (srt comp shapes) /\
  totalPolygons (aggregate (srt comp shapes))
  = (count is_Rectangle shapes + count is_Square shapes + count is_Triangle shapes)
      mod 2 ^ 32 /\
  (4 * (count is_Rectangle shapes + count is_Square shapes) + 3 * count is_Triangle shapes
     <= 2 ^ 53 ->
   totalPolygonSides (aggregate (srt comp shapes))
   = double_of_Z (4 * (count is_Rectangle shapes + count is_Square shapes)
                  + 3 * count is_Triangle shapes)) /\
  (count is_Rectangle shapes + count is_Square shapes + count is_Triangle shapes < 2 ^ 32 ->
   totalPolygons (aggregate (srt comp shapes))
   = count is_Rectangle shapes + count is_Square shapes + count is_Triangle shapes /\
   totalPolygonSides (aggregate (srt comp shapes))
   = double_of_Z (4 * (count is_Rectangle shapes + count is_Square shapes)
                  + 3 * count is_Triangle shapes)).
Proof.
  intros L P.
  assert (C : Forall constructed shapes).
  { subst shapes. apply loadList_loop_constructed. constructor. }
  assert (C' : Forall constructed (srt comp shapes)) by now apply (Permutation_Forall P).
  clear L. rewrite !(count_perm _ _ _ P).
  pose proof (count_nonneg is_Rectangle (srt comp shapes)).
  pose proof (count_nonneg is_Square (srt comp shapes)).
  pose proof (count_nonneg is_Triangle (srt comp shapes)).
  assert (TP : totalPolygons (aggregate (srt comp shapes))
               = (count is_Rectangle (srt comp shapes) + count is_Square (srt comp shapes)
                  + count is_Triangle (srt comp shapes)) mod 2 ^ 32).
  { now rewrite totalPolygons_count, count_polygons. }
  assert (TS : 4 * (count is_Rectangle (srt comp shapes) + count is_Square (srt comp shapes))
               + 3 * count is_Triangle (srt comp shapes) <= 2 ^ 53 ->
               totalPolygonSides (aggregate (srt comp shapes))
               = double_of_Z (4 * (count is_Rectangle (srt comp shapes)
                                   + count is_Square (srt comp shapes))
                              + 3 * count is_Triangle (srt comp shapes))).
  { intros B. unfold aggregate.
    rewrite (fold_totalPolygonSides _ _ 0 C'); [reflexivity | reflexivity | lia | lia]. }
  split; [| split; [exact TP | split; [exact TS |]]].
  - unfold aggregate, sum_perimeters. now rewrite fold_totalPerimeter.
  - intros B. split.
    + rewrite TP. apply Z.mod_small. lia.
    + apply TS. lia.
Qed.

(** A rectangle, a circle, a square and a triangle: three polygons,
    eleven sides. *)
Lemma aggregation_totals_witness :
  totalPerimeter (aggregate (insertion_sort comp [Rectangle 1 2; Circle 1; Square 3; Triangle 3 4 5]))
  = sum_perimeters (insertion_sort comp [Rectangle 1 2; Circle 1; Square 3; Triangle 3 4 5]) /\
  totalPolygons (aggregate (insertion_sort comp [Rectangle 1 2; Circle 1; Square 3; Triangle 3 4 5]))
  = 3 /\
  totalPolygonSides
    (aggregate (insertion_sort comp [Rectangle 1 2; Circle 1; Square 3; Triangle 3 4 5]))
  = double_of_Z 11.
Proof.
  destruct (aggregation_totals insertion_sort stale_locals
              ("R 1 2" ++ String newline ("C 1" ++ String newline
                 ("S 3" ++ String newline "T 3 4 5")))
              [Rectangle 1 2; Circle 1; Square 3; Triangle 3 4 5])
    as (Perim & _ & _ & Exact).
  - reflexivity.
  - vm_compute. do 2 apply perm_skip. apply perm_swap.
  - split; [exact Perim |]. apply Exact. vm_compute. reflexivity.
Defined.

(** C4 (as stated) fails at the width of the counter: a file of [2^32]
    lines [S 1] loads [2^32] squares, and after the pass over them, in
    whatever order the sort left them, [totalPolygons] is back to zero. *)
Lemma totalPolygons_wraps :
  fst (loadList_loop stale_locals 0 (getlines (squares_text (Z.to_nat (2 ^ 32)))) [] [])
  = repeat (Square 1) (Z.to_nat (2 ^ 32)) /\
  count is_Square (repeat (Square 1) (Z.to_nat (2 ^ 32))) = 2 ^ 32 /\
  (forall srt,
     Permutation (repeat (Square 1) (Z.to_nat (2 ^ 32)))
                 (srt comp (repeat (Square 1) (Z.to_nat (2 ^ 32)))) ->
     totalPolygons (aggregate (srt comp (repeat (Square 1) (Z.to_nat (2 ^ 32))))) = 0).
Proof.
  generalize (Z2Nat.id (2 ^ 32) ltac:(lia)).
  generalize (Z.to_nat (2 ^ 32)). intros n E.
  split; [| split].
  - now rewrite getlines_squares_text, loadList_loop_squares.
  - now rewrite (proj2 (count_repeat_Square n)).
  - intros srt P.
    rewrite totalPolygons_count, <- (count_perm _ _ _ P),
            (proj1 (count_repeat_Square n)), E.
    reflexivity.
Qed.

(** C5.  A square of side [s] has the area and the perimeter of the
    rectangle of length and width [s]; a rectangle has area
    [l * w] and perimeter [2 * (l + w)]. *)
Theorem Square_is_Rectangle (s l w : float) :
  area (Square s) = area (Rectangle s s) /\
  perimeter (Square s) = perimeter (Rectangle s s) /\
  area (Rectangle l w) = (l * w)%float /\
  perimeter (Rectangle l w) = (2 * (l + w))%float.
Proof.
  repeat split.
Qed.

(** C6.  On the file made of the lines [C 2] and [S 3] the square is
    listed before the circle (areas 9 and 12.56636), and the summary
    reports 2 shapes, a total perimeter of 24.56636, 1 polygon and an
    average of 4 sides. *)
Theorem scenario_circle_square srt uninit fs :
  fs "shapes.txt" = Some scenario1_text ->
  std_sort_post comp [Circle 2; Square 3] (srt comp [Circle 2; Square 3]) ->
  main srt uninit fs
  = {| exit_status := 0;
       cout := [ OStr "Square"; OEndl; OStr "Circle"; OEndl;
                 OStr (String newline "Total Shapes: "); OSize 2; OEndl;
                 OStr "Total Perimeter of all shapes: "; ODouble 24.56636; OEndl;
                 OStr "Total Polygons: "; OUnsigned 1; OEndl;
                 OStr "Average Polygon Sides: "; ODouble 4; OEndl ];
       cerr := [] |} /\
  area (Square 3) = 9%float /\
  area (Circle 2) = 12.56636%float /\
  (12.566 <=? area (Circle 2))%float = true /\
  (area (Circle 2) <? 12.567)%float = true /\
  (24.566 <=? 24.56636)%float = true /\
  (24.56636 <? 24.567)%float = true.
Proof.
  intros E [P S].
  assert (L : fst (loadList_loop uninit 0 (getlines scenario1_text) [] [])
              = [Circle 2; Square 3]) by reflexivity.
  assert (Lerr : snd (loadList_loop uninit 0 (getlines scenario1_text) [] []) = [])
    by reflexivity.
  assert (Srt : srt comp [Circle 2; Square 3] = [Square 3; Circle 2]).
  { apply Permutation_length_2_inv in P. destruct P as [Eq | Eq]; [| exact Eq].
    rewrite Eq in S.
    specialize (S 0%nat 1%nat (Circle 2) (Square 3) ltac:(lia) eq_refl eq_refl).
    vm_compute in S. discriminate S. }
  rewrite (main_opened _ _ _ _ E), L, Lerr, Srt.
  repeat split.
Qed.

(** The same run with insertion sort as the library sort. *)
Lemma scenario_circle_square_witness :
  main insertion_sort stale_locals (only_shapes_txt scenario1_text)
  = {| exit_status := 0;
       cout := [ OStr "Square"; OEndl; OStr "Circle"; OEndl;
                 OStr (String newline "Total Shapes: "); OSize 2; OEndl;
                 OStr "Total Perimeter of all shapes: "; ODouble 24.56636; OEndl;
                 OStr "Total Polygons: "; OUnsigned 1; OEndl;
                 OStr "Average Polygon Sides: "; ODouble 4; OEndl ];
       cerr := [] |} /\
  area (Square 3) = 9%float /\
  area (Circle 2) = 12.56636%float /\
  (12.566 <=? area (Circle 2))%float = true /\
  (area (Circle 2) <? 12.567)%float = true /\
  (24.566 <=? 24.56636)%float = true /\
  (24.56636 <? 24.567)%float = true.
Proof.
  apply (scenario_circle_square insertion_sort stale_locals (only_shapes_txt scenario1_text)).
  - reflexivity.
  - split.
    + vm_compute. apply perm_swap.
    + intros i j x y Lt Hi Hj.
      destruct i as [| [| i]], j as [| [| [| j]]]; try lia; vm_compute in Hi, Hj;
        try discriminate; injection Hi as <-; injection Hj as <-; reflexivity.
Defined.

(** C7.  A line whose first character after white space is none of
    C, T, R, S adds one warning naming that character to [cerr] and no
    shape to the vector, the loop goes on with the lines that follow,
    and whenever the file was opened the exit status is 0. *)
Theorem unknown_code_skipped uninit i before line after ch rest shapes err :
  skipws line = String ch rest ->
  known_code ch = false ->
  loadList_body (uninit (i + List.length before)%nat) line
    (fst (loadList_loop uninit i before shapes err))
    (snd (loadList_loop uninit i before shapes err))
  = (fst (loadList_loop uninit i before shapes err),
     snd (loadList_loop uninit i before shapes err)
       ++ [OStr "Unknown shape: "; OChar ch; OEndl]) /\
  loadList_loop uninit i (before ++ line :: after) shapes err
  = loadList_loop uninit (S (i + List.length before)) after
      (fst (loadList_loop uninit i before shapes err))
      (snd (loadList_loop uninit i before shapes err)
         ++ [OStr "Unknown shape: "; OChar ch; OEndl]) /\
  (forall srt fs text,
     fs "shapes.txt" = Some text -> exit_status (main srt uninit fs) = 0).
Proof.
  intros W K. split; [| split].
  - apply (loadList_body_unknown _ _ _ _ _ _ W K).
  - rewrite loadList_loop_app. simpl loadList_loop.
    now rewrite (loadList_body_unknown _ _ _ _ _ _ W K).
  - intros srt fs text E. now rewrite (main_opened _ _ _ _ E).
Qed.

(** The line [X 1 2] between the lines [C 2] and [S 3]. *)
Lemma unknown_code_skipped_witness :
  loadList_body (stale_locals (0 + List.length ["C 2"])%nat) "X 1 2"
    (fst (loadList_loop stale_locals 0 ["C 2"] [] []))
    (snd (loadList_loop stale_locals 0 ["C 2"] [] []))
  = (fst (loadList_loop stale_locals 0 ["C 2"] [] []),
     snd (loadList_loop stale_locals 0 ["C 2"] [] [])
       ++ [OStr "Unknown shape: "; OChar "X"; OEndl]) /\
  loadList_loop stale_locals 0 (["C 2"] ++ "X 1 2" :: ["S 3"]) [] []
  = loadList_loop stale_locals (S (0 + List.length ["C 2"])) ["S 3"]
      (fst (loadList_loop stale_locals 0 ["C 2"] [] []))
      (snd (loadList_loop stale_locals 0 ["C 2"] [] [])
         ++ [OStr "Unknown shape: "; OChar "X"; OEndl]) /\
  (forall srt fs text,
     fs "shapes.txt" = Some text -> exit_status (main srt stale_locals fs) = 0).
Proof.
  apply (unknown_code_skipped stale_locals 0%nat ["C 2"] "X 1 2" ["S 3"] "X"%char " 1 2");
    reflexivity.
Defined.

(** C8.  When [shapes.txt] cannot be opened the process ends at once
    with the failure status, which is not zero, and nothing was written
    to [cout]; a run ends with a status other than zero only then. *)
Theorem open_failure_is_fatal srt uninit fs :
  (fs "shapes.txt" = None ->
   main srt uninit fs = {| exit_status := EXIT_FAILURE; cout := []; cerr := [] |}) /\
  EXIT_FAILURE <> 0 /\
  (exit_status (main srt uninit fs) <> 0 -> fs "shapes.txt" = None).
Proof.
  split; [apply main_not_opened | split; [discriminate |]].
  destruct (fs "shapes.txt") as [text |] eqn:E; [| reflexivity].
  rewrite (main_opened _ _ _ _ E). simpl. congruence.
Qed.

(** C9 (as amended).  A line with a type code that carries fewer
    numbers than the code requires still appends one shape and writes
    no warning.  Each parameter for which a number was read has that
    number.  The first parameter that could not be read has the value
    its variable held when the line ends there, zero when what follows
    is not a number, and the largest finite [double] of the sign when
    the number is out of range.  Every later parameter has the value
    its variable held. *)
Theorem short_line_builds u line code rest vs s shapes err :
  skipws line = String code rest ->
  known_code code = true ->
  numbers (required code) {| unread := rest; failbit := false |} = (vs, Some s) ->
  loadList_body u line shapes err
  = (shapes ++ [construct code (param_short vs s 0 (l_a u)) (param_short vs s 1 (l_b u))
                               (param_short vs s 2 (l_c u))], err) /\
  (List.length vs < required code)%nat /\
  (forall k held, (k < List.length vs)%nat -> param_short vs s k held = nth k vs 0%float) /\
  (forall held, param_short vs s (List.length vs) held = stored s held) /\
  (forall k held, (List.length vs < k)%nat -> param_short vs s k held = held) /\
  (forall held, stored AtEnd held = held) /\
  (forall held, stored NotANumber held = 0%float).
Proof.
  intros W K N. split; [| split; [| split; [| split; [| split; [| split]]]]].
  - assert (S0 : short_state vs s 0 (required code) {| unread := rest; failbit := false |}).
    { left. simpl. repeat split; [exact N | lia]. }
    destruct (short_state_step _ _ _ _ _ (l_a u) S0) as (ss1 & G1 & S1).
    destruct (short_state_step _ _ _ _ _ (l_b u) S1) as (ss2 & G2 & S2).
    destruct (short_state_step _ _ _ _ _ (l_c u) S2) as (ss3 & G3 & S3).
    unfold loadList_body, construct. rewrite (get_char_first _ _ _ _ W).
    unfold known_code in K.
    destruct (Ascii.eqb code "C"); [now rewrite G1 |].
    destruct (Ascii.eqb code "T"); [now rewrite G1, G2, G3 |].
    destruct (Ascii.eqb code "R"); [now rewrite G1, G2 |].
    destruct (Ascii.eqb code "S"); [now rewrite G1 | discriminate].
  - exact (numbers_length _ _ _ _ N).
  - intros k held L. unfold param_short.
    apply Nat.ltb_lt in L as L'. rewrite L'. now apply nth_indep.
  - intros held. unfold param_short. now rewrite Nat.ltb_irrefl, Nat.eqb_refl.
  - intros k held L. unfold param_short.
    destruct (Nat.ltb_spec k (List.length vs)); [lia |].
    destruct (Nat.eqb_spec k (List.length vs)); [lia | reflexivity].
  - reflexivity.
  - reflexivity.
Qed.

(** The line [T 3 4]: the third side is what the variable held. *)
Lemma short_line_builds_witness :
  loadList_body (stale_locals 0) "T 3 4" [] []
  = ([] ++ [construct "T" (param_short [3%float; 4%float] AtEnd 0 (l_a (stale_locals 0)))
                          (param_short [3%float; 4%float] AtEnd 1 (l_b (stale_locals 0)))
                          (param_short [3%float; 4%float] AtEnd 2 (l_c (stale_locals 0)))], []) /\
  loadList_body (stale_locals 0) "T 3 4" [] [] = ([Triangle 3 4 9], []).
Proof.
  destruct (short_line_builds (stale_locals 0) "T 3 4" "T"%char " 3 4" [3%float; 4%float]
              AtEnd [] []) as [B _].
  - reflexivity.
  - reflexivity.
  - reflexivity.
  - split; [exact B | reflexivity].
Defined.

(** C9 (as stated) fails: on the line [T 3 x] the second parameter
    is not read, and it does not keep the value 8 its variable held:
    the failed extraction stores zero. *)
Lemma short_line_token_overwrites :
  skipws "T 3 x" = String "T" " 3 x" /\
  known_code "T" = true /\
  numbers (required "T") {| unread := " 3 x"; failbit := false |}
  = ([3%float], Some NotANumber) /\
  l_b (stale_locals 0) = 8%float /\
  loadList_body (stale_locals 0) "T 3 x" [] [] = ([Triangle 3 0 9], []).
Proof.
  repeat split.
Qed.

(** C10.  The codes are matched with their case: a line whose first
    character, after white space if any, is one of c, t, r, s builds no
    shape and is reported as an unknown shape. *)
Theorem lowercase_code_unknown u line ch rest shapes err :
  skipws line = String ch rest ->
  In ch ["c"; "t"; "r"; "s"]%char ->
  known_code ch = false /\
  loadList_body u line shapes err
  = (shapes, err ++ [OStr "Unknown shape: "; OChar ch; OEndl]).
Proof.
  intros W I.
  assert (K : known_code ch = false).
  { simpl in I. destruct I as [<- | [<- | [<- | [<- | []]]]]; reflexivity. }
  split; [exact K | apply (loadList_body_unknown _ _ _ _ _ _ W K)].
Qed.

(** The line [c 2]. *)
Lemma lowercase_code_unknown_witness :
  known_code "c" = false /\
  loadList_body (stale_locals 0) "c 2" [Square 3] []
  = ([Square 3], [] ++ [OStr "Unknown shape: "; OChar "c"; OEndl]).
Proof.
  apply (lowercase_code_unknown (stale_locals 0) "c 2" "c"%char " 2" [Square 3] []).
  - reflexivity.
  - simpl. auto.
Defined.

(** * Further properties *)

(** ** More binary64 facts *)

Lemma SFmul_comm x y : SF64mul x y = SF64mul y x.
Proof.
  unfold SF64mul, SFmul.
  destruct x as [sx | sx | | sx mx ex], y as [sy | sy | | sy my ey];
    try reflexivity; try (now rewrite xorb_comm).
  now rewrite xorb_comm, Pos.mul_comm, Z.add_comm.
Qed.

Lemma SFadd_comm x y : SF64add x y = SF64add y x.
Proof.
  unfold SF64add, SFadd.
  destruct x as [sx | sx | | sx mx ex], y as [sy | sy | | sy my ey];
    try reflexivity; try (destruct sx, sy; reflexivity).
  now rewrite Z.min_comm, Z.add_comm.
Qed.

Lemma float_mul_comm (x y : float) : (x * y)%float = (y * x)%float.
Proof.
  apply Prim2SF_inj. rewrite !FloatAxioms.mul_spec. apply SFmul_comm.
Qed.

Lemma float_add_comm (x y : float) : (x + y)%float = (y + x)%float.
Proof.
  apply Prim2SF_inj. rewrite !FloatAxioms.add_spec. apply SFadd_comm.
Qed.

(** Rounding keeps the sign it is given. *)
Lemma binary_round_aux_opp sx m e l :
  binary_round_aux prec emax (negb sx) m e l = SFopp (binary_round_aux prec emax sx m e l).
Proof.
  unfold binary_round_aux.
  destruct (shr_fexp prec emax m e l) as [mrs' e'].
  destruct (shr_fexp prec emax _ e' loc_Exact) as [mrs'' e''].
  destruct (shr_m mrs''); try reflexivity.
  now destruct (e'' <=? emax - prec).
Qed.

Lemma SFmul_opp_r x y : SF64mul x (SFopp y) = SFopp (SF64mul x y).
Proof.
  unfold SF64mul, SFmul.
  destruct x as [sx | sx | | sx mx ex], y as [sy | sy | | sy my ey]; simpl;
    try reflexivity; try (now rewrite xorb_negb_r || (destruct sx, sy; reflexivity)).
  replace (xorb sx (negb sy)) with (negb (xorb sx sy)) by (now destruct sx, sy).
  apply binary_round_aux_opp.
Qed.

Lemma SFmul_opp_l x y : SF64mul (SFopp x) y = SFopp (SF64mul x y).
Proof.
  now rewrite SFmul_comm, SFmul_opp_r, SFmul_comm.
Qed.

Lemma SFopp_involutive x : SFopp (SFopp x) = x.
Proof.
  destruct x; simpl; now rewrite ?negb_involutive.
Qed.

Lemma float_mul_opp_r (x y : float) : (x * - y)%float = (- (x * y))%float.
Proof.
  apply Prim2SF_inj.
  now rewrite FloatAxioms.mul_spec, !FloatAxioms.opp_spec, FloatAxioms.mul_spec, SFmul_opp_r.
Qed.

Lemma float_mul_opp_l (x y : float) : (- x * y)%float = (- (x * y))%float.
Proof.
  now rewrite float_mul_comm, float_mul_opp_r, float_mul_comm.
Qed.

Lemma float_opp_involutive (x : float) : (- - x)%float = x.
Proof.
  apply Prim2SF_inj. now rewrite !FloatAxioms.opp_spec, SFopp_involutive.
Qed.

Lemma binary_round_aux_not_negative m e l :
  SF_not_negative (binary_round_aux prec emax false m e l).
Proof.
  unfold binary_round_aux.
  destruct (shr_fexp prec emax m e l) as [mrs' e'].
  destruct (shr_fexp prec emax _ e' loc_Exact) as [mrs'' e''].
  destruct (shr_m mrs''); [exact I | | exact I].
  destruct (e'' <=? emax - prec); reflexivity.
Qed.

Lemma SFsqrt_not_negative x : SF_not_negative (SF64sqrt x).
Proof.
  unfold SF64sqrt, SFsqrt. destruct x as [s | [|] | | [|] m e]; simpl; auto.
  destruct (SFsqrt_core_binary prec emax (Z.pos m) e) as [[mz ez] lz].
  apply binary_round_aux_not_negative.
Qed.

Lemma SFmul_not_negative m e y :
  SF_not_negative y -> SF_not_negative (SF64mul (S754_finite false m e) y).
Proof.
  unfold SF64mul, SFmul. destruct y as [s | s | | s my ey]; simpl; auto.
  intros ->. apply binary_round_aux_not_negative.
Qed.

Lemma SFltb_zero_not_negative x s :
  SF_not_negative x -> SFltb x (S754_zero s) = false.
Proof.
  destruct x as [sx | sx | | sx m e]; simpl; auto; intros ->; reflexivity.
Qed.

Lemma is_nan_true_Prim2SF x : PrimFloat.is_nan x = true -> Prim2SF x = S754_nan.
Proof.
  unfold PrimFloat.is_nan. rewrite FloatAxioms.eqb_spec. unfold SFeqb, SFcompare.
  destruct (Prim2SF x) as [s | [|] | | [|] m e]; simpl; try discriminate; auto;
    rewrite Z.compare_refl, Pos.compare_cont_refl; discriminate.
Qed.

Lemma float_ltb_nan_l x y : PrimFloat.is_nan x = true -> (x <? y)%float = false.
Proof.
  intros N. rewrite FloatAxioms.ltb_spec, (is_nan_true_Prim2SF _ N). reflexivity.
Qed.

Lemma float_ltb_nan_r x y : PrimFloat.is_nan y = true -> (x <? y)%float = false.
Proof.
  intros N. rewrite FloatAxioms.ltb_spec, (is_nan_true_Prim2SF _ N).
  unfold SFltb, SFcompare. now destruct (Prim2SF x).
Qed.

Lemma float_ltb_irrefl x : (x <? x)%float = false.
Proof.
  rewrite FloatAxioms.ltb_spec. unfold SFltb, SFcompare.
  destruct (Prim2SF x) as [s | [|] | | [|] m e]; simpl; auto;
    now rewrite Z.compare_refl, Pos.compare_cont_refl.
Qed.

Lemma float_ltb_trans x y z :
  (x <? y)%float = true -> (y <? z)%float = true -> (x <? z)%float = true.
Proof.
  intros H1 H2.
  assert (Nx : PrimFloat.is_nan x = false).
  { destruct (PrimFloat.is_nan x) eqn:N; [| reflexivity]. now rewrite float_ltb_nan_l in H1. }
  assert (Ny : PrimFloat.is_nan y = false).
  { destruct (PrimFloat.is_nan y) eqn:N; [| reflexivity]. now rewrite float_ltb_nan_l in H2. }
  assert (Nz : PrimFloat.is_nan z = false).
  { destruct (PrimFloat.is_nan z) eqn:N; [| reflexivity]. now rewrite float_ltb_nan_r in H2. }
  rewrite FloatAxioms.ltb_spec in *.
  rewrite SFltb_key in * by auto using is_nan_Prim2SF.
  unfold key_lt in *.
  destruct (SF_key (Prim2SF x)) as [[? ?] ?], (SF_key (Prim2SF y)) as [[? ?] ?],
           (SF_key (Prim2SF z)) as [[? ?] ?]. lia.
Qed.

(** ** Shapes *)

Lemma SF_signed_exists x : exists s, SF_signed s x.
Proof.
  destruct x as [s | s | | s m e]; [exists s | exists s | exists false | exists s]; simpl; auto.
Qed.

Lemma binary_round_aux_signed sx m e l :
  SF_signed sx (binary_round_aux prec emax sx m e l).
Proof.
  unfold binary_round_aux.
  destruct (shr_fexp prec emax m e l) as [mrs' e'].
  destruct (shr_fexp prec emax _ e' loc_Exact) as [mrs'' e''].
  destruct (shr_m mrs''); [reflexivity | | exact I].
  destruct (e'' <=? emax - prec); reflexivity.
Qed.

Lemma SFmul_signed s1 s2 x y :
  SF_signed s1 x -> SF_signed s2 y -> SF_signed (xorb s1 s2) (SF64mul x y).
Proof.
  unfold SF64mul, SFmul.
  destruct x as [sx | sx | | sx mx ex], y as [sy | sy | | sy my ey]; simpl;
    try (intros; exact I); try (intros -> ->; reflexivity).
  intros -> ->. apply binary_round_aux_signed.
Qed.

Lemma SF_signed_not_negative x : SF_signed false x -> SF_not_negative x.
Proof.
  destruct x; simpl; auto.
Qed.

(** Swapping the length and the width of a rectangle changes neither
    its area nor its perimeter, bit for bit. *)
Theorem Rectangle_swap (l w : float) :
  area (Rectangle l w) = area (Rectangle w l) /\
  perimeter (Rectangle l w) = perimeter (Rectangle w l).
Proof.
  split.
  - apply float_mul_comm.
  - change ((2 * (l + w))%float = (2 * (w + l))%float).
    now rewrite (float_add_comm l w).
Qed.

(** The sign of the radius is lost in the area of a circle and kept in
    its perimeter. *)
Theorem Circle_negated_radius (r : float) :
  area (Circle (- r)) = area (Circle r) /\
  perimeter (Circle (- r)) = (- perimeter (Circle r))%float.
Proof.
  change ((3.14159 * - r * - r)%float = (3.14159 * r * r)%float /\
          (2 * 3.14159 * - r)%float = (- (2 * 3.14159 * r))%float).
  split.
  - now rewrite !float_mul_opp_r, float_mul_opp_l, float_opp_involutive.
  - apply float_mul_opp_r.
Qed.

(** The areas of circles and triangles are never below zero, whatever
    the radius and the sides. *)
Theorem Circle_Triangle_area_not_negative (r a b c : float) :
  (area (Circle r) <? 0)%float = false /\
  (area (Triangle a b c) <? 0)%float = false.
Proof.
  split.
  - change (area (Circle r)) with (3.14159 * r * r)%float.
    rewrite FloatAxioms.ltb_spec, !FloatAxioms.mul_spec.
    apply SFltb_zero_not_negative, SF_signed_not_negative.
    destruct (SF_signed_exists (Prim2SF r)) as [s Hs].
    replace false with (xorb (xorb false s) s) by (now destruct s).
    apply SFmul_signed; [| exact Hs].
    apply SFmul_signed; [reflexivity | exact Hs].
  - change (area (Triangle a b c))
      with (0.25 * PrimFloat.sqrt ((a + b + c) * (- a + b + c) * (a - b + c) * (a + b - c)))%float.
    rewrite FloatAxioms.ltb_spec, FloatAxioms.mul_spec, FloatAxioms.sqrt_spec.
    apply SFltb_zero_not_negative.
    change (Prim2SF 0.25) with (S754_finite false 4503599627370496 (-54)).
    apply SFmul_not_negative, SFsqrt_not_negative.
Qed.

(** ** The comparison of the sort *)

(** [comp] is irreflexive and transitive on all shapes, and where the
    middle shape's area is a number, being equivalent is transitive:
    on shapes whose areas are numbers [comp] is a strict weak ordering,
    as the sort requires. *)
Theorem comp_strict_weak_ordering (x y z : Shape) :
  PrimFloat.is_nan (area y) = false ->
  comp x x = false /\
  (comp x y = true -> comp y z = true -> comp x z = true) /\
  (equiv comp x y = true -> equiv comp y z = true -> equiv comp x z = true).
Proof.
  intros Ny. unfold equiv, comp. split; [apply float_ltb_irrefl | split; [apply float_ltb_trans |]].
  rewrite !andb_true_iff, !negb_true_iff. intros [XY YX] [YZ ZY].
  destruct (PrimFloat.is_nan (area x)) eqn:Nx.
  { now rewrite (float_ltb_nan_l _ _ Nx), (float_ltb_nan_r _ _ Nx). }
  destruct (PrimFloat.is_nan (area z)) eqn:Nz.
  { now rewrite (float_ltb_nan_l _ _ Nz), (float_ltb_nan_r _ _ Nz). }
  split.
  - apply (ltb_negtrans (area z) (area y) (area x)); assumption.
  - apply (ltb_negtrans (area x) (area y) (area z)); assumption.
Qed.

(** A square of side 2 and the rectangles 1 by 4 and 4 by 1. *)
Lemma comp_strict_weak_ordering_witness :
  comp (Square 2) (Square 2) = false /\
  equiv comp (Square 2) (Rectangle 4 1) = true.
Proof.
  destruct (comp_strict_weak_ordering (Square 2) (Rectangle 1 4) (Rectangle 4 1))
    as (Irr & _ & Eq).
  - reflexivity.
  - split; [exact Irr | apply Eq; reflexivity].
Defined.

(** A shape whose area is not a number is equivalent to every shape,
    also to two shapes that are not equivalent to each other: with such
    a shape among shapes of different areas [comp] is no strict weak
    ordering. *)
Theorem comp_nan_breaks_ordering (n x y : Shape) :
  PrimFloat.is_nan (area n) = true ->
  comp x y = true ->
  equiv comp x n = true /\ equiv comp n y = true /\ equiv comp x y = false.
Proof.
  intros N XY. unfold equiv, comp in *.
  rewrite !(float_ltb_nan_l _ _ N), !(float_ltb_nan_r _ _ N), XY. repeat split.
Qed.

Lemma comp_nan_breaks_ordering_witness :
  equiv comp (Square 1) (Triangle 1 1 5) = true /\
  equiv comp (Triangle 1 1 5) (Square 2) = true /\
  equiv comp (Square 1) (Square 2) = false.
Proof.
  apply (comp_nan_breaks_ordering (Triangle 1 1 5) (Square 1) (Square 2)); reflexivity.
Defined.

(** ** More on the loader *)

Lemma skipws_idempotent s : skipws (skipws s) = skipws s.
Proof.
  induction s as [| ch rest IH]; simpl; [reflexivity |].
  destruct (isspace ch) eqn:W; [exact IH |]. simpl. now rewrite W.
Qed.

Lemma get_double_skipws s x :
  get_double {| unread := skipws s; failbit := false |} x
  = get_double {| unread := s; failbit := false |} x.
Proof.
  unfold get_double. simpl. now rewrite skipws_idempotent.
Qed.

Lemma get_double_delivers ss v vs x :
  delivers ss (v :: vs) -> exists ss', get_double ss x = (ss', v) /\ delivers ss' vs.
Proof.
  intros D. inversion D as [| ? ss' ? ? G D']; subst. exists ss'. now split.
Qed.

(** A line with a type code followed by at least the numbers the code
    requires builds the shape of that code from the first of them, in
    order; whatever follows them on the line is ignored. *)
Theorem full_line_builds u line code rest vs shapes err :
  skipws line = String code rest ->
  known_code code = true ->
  delivers {| unread := rest; failbit := false |} vs ->
  (required code <= List.length vs)%nat ->
  loadList_body u line shapes err
  = (shapes ++ [construct code (nth 0 vs 0%float) (nth 1 vs 0%float) (nth 2 vs 0%float)],
     err).
Proof.
  intros W K D R. unfold loadList_body, construct, required, known_code in *.
  rewrite (get_char_first _ _ _ _ W).
  destruct (Ascii.eqb code "C").
  { destruct vs as [| v0 vs]; [simpl in R; lia |].
    destruct (get_double_delivers _ _ _ (l_a u) D) as (ss1 & -> & D1). reflexivity. }
  destruct (Ascii.eqb code "T").
  { destruct vs as [| v0 [| v1 [| v2 vs]]]; try (simpl in R; lia).
    destruct (get_double_delivers _ _ _ (l_a u) D) as (ss1 & -> & D1).
    destruct (get_double_delivers _ _ _ (l_b u) D1) as (ss2 & -> & D2).
    destruct (get_double_delivers _ _ _ (l_c u) D2) as (ss3 & -> & D3). reflexivity. }
  destruct (Ascii.eqb code "R").
  { destruct vs as [| v0 [| v1 vs]]; try (simpl in R; lia).
    destruct (get_double_delivers _ _ _ (l_a u) D) as (ss1 & -> & D1).
    destruct (get_double_delivers _ _ _ (l_b u) D1) as (ss2 & -> & D2). reflexivity. }
  destruct (Ascii.eqb code "S"); [| discriminate].
  destruct vs as [| v0 vs]; [simpl in R; lia |].
  destruct (get_double_delivers _ _ _ (l_a u) D) as (ss1 & -> & D1). reflexivity.
Qed.

Lemma full_line_builds_witness :
  loadList_body (stale_locals 0) "  R2.5 4e1 junk" [Circle 1] []
  = ([Circle 1] ++ [construct "R" (nth 0 [2.5; 40]%float 0%float)
                              (nth 1 [2.5; 40]%float 0%float)
                              (nth 2 [2.5; 40]%float 0%float)], []).
Proof.
  apply (full_line_builds (stale_locals 0) "  R2.5 4e1 junk" "R"%char "2.5 4e1 junk"
           [2.5; 40]%float).
  - reflexivity.
  - reflexivity.
  - apply (delivers_cons _ {| unread := " 4e1 junk"; failbit := false |});
      [intros x; reflexivity |].
    apply (delivers_cons _ {| unread := " junk"; failbit := false |});
      [intros x; reflexivity |].
    apply delivers_nil.
  - simpl. unfold required. simpl. lia.
Defined.

(** A line with a type code always appends exactly one shape of that
    code and writes nothing to [cerr], whatever follows the code. *)
Theorem known_code_always_builds u line code rest shapes err :
  skipws line = String code rest ->
  known_code code = true ->
  exists a b c, loadList_body u line shapes err = (shapes ++ [construct code a b c], err).
Proof.
  intros W K. unfold loadList_body, construct, known_code in *.
  rewrite (get_char_first _ _ _ _ W).
  destruct (get_double {| unread := rest; failbit := false |} (l_a u)) as [ss1 a].
  destruct (get_double ss1 (l_b u)) as [ss2 b].
  destruct (get_double ss2 (l_c u)) as [ss3 c].
  exists a, b, c.
  destruct (Ascii.eqb code "C"); [reflexivity |].
  destruct (Ascii.eqb code "T"); [reflexivity |].
  destruct (Ascii.eqb code "R"); [reflexivity |].
  destruct (Ascii.eqb code "S"); [reflexivity | discriminate].
Qed.

Lemma known_code_always_builds_witness :
  exists a b c,
    loadList_body (stale_locals 0) "T one two" [] [] = ([] ++ [construct "T" a b c], []).
Proof.
  apply (known_code_always_builds (stale_locals 0) "T one two" "T"%char " one two");
    reflexivity.
Defined.

(** A line that is empty or all white space is not skipped: the type
    code and the parameters are what the variables held, so the line
    builds a shape from them or is reported as an unknown shape. *)
Theorem blank_line_uses_held_values u line shapes err :
  skipws line = EmptyString ->
  loadList_body u line shapes err
  = if known_code (l_shapeType u)
    then (shapes ++ [construct (l_shapeType u) (l_a u) (l_b u) (l_c u)], err)
    else (shapes, err ++ [OStr "Unknown shape: "; OChar (l_shapeType u); OEndl]).
Proof.
  intros W. unfold loadList_body, get_char, stringstream, construct, known_code. simpl.
  rewrite W. rewrite !get_double_failed by reflexivity.
  destruct (Ascii.eqb (l_shapeType u) "C"); [reflexivity |].
  destruct (Ascii.eqb (l_shapeType u) "T"); [reflexivity |].
  destruct (Ascii.eqb (l_shapeType u) "R"); [reflexivity |].
  destruct (Ascii.eqb (l_shapeType u) "S"); reflexivity.
Qed.

Lemma blank_line_uses_held_values_witness :
  loadList_body {| l_shapeType := "S"; l_a := 3; l_b := 0; l_c := 0 |} "   " [Square 3] []
  = if known_code "S"
    then ([Square 3] ++ [construct "S" 3 0 0], [])
    else ([Square 3], [] ++ [OStr "Unknown shape: "; OChar "S"; OEndl]).
Proof.
  apply (blank_line_uses_held_values
           {| l_shapeType := "S"; l_a := 3; l_b := 0; l_c := 0 |} "   " [Square 3] []).
  reflexivity.
Defined.

(** White space before the type code, and between the code and what
    follows it, makes no difference. *)
Theorem white_space_is_insignificant u line code rest shapes err :
  loadList_body u line shapes err = loadList_body u (skipws line) shapes err /\
  (isspace code = false ->
   loadList_body u (String code rest) shapes err
   = loadList_body u (String code (skipws rest)) shapes err).
Proof.
  split.
  - unfold loadList_body, get_char, stringstream. simpl. now rewrite skipws_idempotent.
  - intros NS. unfold loadList_body, get_char, stringstream. simpl. rewrite NS.
    now rewrite get_double_skipws.
Qed.

(** What one pass through the body does to the vector and to [cerr]
    does not depend on what they hold. *)
Lemma loadList_body_frame u line shapes err :
  loadList_body u line shapes err
  = (shapes ++ fst (loadList_body u line [] []), err ++ snd (loadList_body u line [] [])).
Proof.
  unfold loadList_body.
  destruct (get_char _ _) as [ss shapeType].
  destruct (get_double ss (l_a u)) as [ss1 a].
  destruct (get_double ss1 (l_b u)) as [ss2 b].
  destruct (get_double ss2 (l_c u)) as [ss3 c].
  destruct (Ascii.eqb shapeType "C"); [simpl; now rewrite app_nil_r |].
  destruct (Ascii.eqb shapeType "T"); [simpl; now rewrite app_nil_r |].
  destruct (Ascii.eqb shapeType "R"); [simpl; now rewrite app_nil_r |].
  destruct (Ascii.eqb shapeType "S"); [simpl; now rewrite app_nil_r |].
  simpl. now rewrite app_nil_r.
Qed.

(** One pass adds either one shape and no output, or no shape and the
    three items of a warning. *)
Lemma loadList_body_one u line :
  (List.length (fst (loadList_body u line [] [])) = 1%nat /\
   snd (loadList_body u line [] []) = []) \/
  (fst (loadList_body u line [] []) = [] /\
   List.length (snd (loadList_body u line [] [])) = 3%nat).
Proof.
  unfold loadList_body.
  destruct (get_char _ _) as [ss shapeType].
  destruct (get_double ss (l_a u)) as [ss1 a].
  destruct (get_double ss1 (l_b u)) as [ss2 b].
  destruct (get_double ss2 (l_c u)) as [ss3 c].
  destruct (Ascii.eqb shapeType "C"); [left; now split |].
  destruct (Ascii.eqb shapeType "T"); [left; now split |].
  destruct (Ascii.eqb shapeType "R"); [left; now split |].
  destruct (Ascii.eqb shapeType "S"); [left; now split |].
  right. now split.
Qed.

Lemma loadList_loop_contributions uninit i lines shapes err :
  loadList_loop uninit i lines shapes err
  = (shapes ++ loaded_from uninit i lines, err ++ warned_from uninit i lines).
Proof.
  revert i shapes err. induction lines as [| line more IH]; intros i shapes err; simpl.
  - now rewrite !app_nil_r.
  - rewrite (loadList_body_frame (uninit i) line shapes err), IH.
    now rewrite <- !app_assoc.
Qed.

Lemma one_line_accounting uninit i lines shapes err :
  exists n w,
    (n + w = List.length lines)%nat /\
    List.length (fst (loadList_loop uninit i lines shapes err))
    = (List.length shapes + n)%nat /\
    List.length (snd (loadList_loop uninit i lines shapes err))
    = (List.length err + 3 * w)%nat.
Proof.
  revert i shapes err. induction lines as [| line more IH]; intros i shapes err; simpl.
  - exists 0%nat, 0%nat. simpl. repeat split; lia.
  - rewrite (loadList_body_frame (uninit i) line shapes err).
    destruct (IH (S i) (shapes ++ fst (loadList_body (uninit i) line [] []))
                 (err ++ snd (loadList_body (uninit i) line [] [])))
      as (n & w & E & En & Ew).
    rewrite En, Ew, !length_app.
    destruct (loadList_body_one (uninit i) line) as [[L1 L2] | [L1 L2]]; rewrite L1, L2.
    + exists (S n), w. simpl. repeat split; lia.
    + exists n, (S w). simpl. repeat split; lia.
Qed.

(** ** Reading lines *)

Lemma getlines_nil text : getlines text = [] -> text = EmptyString.
Proof.
  destruct text as [| ch rest]; [reflexivity |]. simpl.
  destruct (Ascii.eqb ch newline); [discriminate |].
  destruct (getlines rest); discriminate.
Qed.

Lemma getlines_no_newline text : Forall (fun line => has_newline line = false) (getlines text).
Proof.
  induction text as [| ch rest IH]; simpl; [constructor |].
  destruct (Ascii.eqb ch newline) eqn:N.
  - constructor; [reflexivity | exact IH].
  - destruct (getlines rest) as [| line more]; [repeat constructor; simpl; now rewrite N |].
    inversion IH; subst. constructor; [simpl; now rewrite N | assumption].
Qed.

(** No character of the file is lost or added by the line loop: the
    lines read, each followed by a newline, are the text of the file,
    with a newline added at the end when the last line has none; and no
    line read holds a newline. *)
Theorem getlines_unlines text :
  unlines (getlines text) = terminate text /\
  Forall (fun line => has_newline line = false) (getlines text).
Proof.
  split; [| apply getlines_no_newline].
  induction text as [| ch rest IH]; [reflexivity |].
  simpl getlines. destruct (Ascii.eqb ch newline) eqn:N.
  - apply Ascii.eqb_eq in N. subst ch. simpl unlines. rewrite IH.
    destruct rest; reflexivity.
  - destruct (getlines rest) as [| line more] eqn:G.
    + apply getlines_nil in G. subst rest. simpl. now rewrite N.
    + simpl unlines in *. rewrite IH.
      destruct rest as [| ch' rest']; [discriminate G | reflexivity].
Qed.

Lemma has_newline_app_false a b :
  has_newline a = false -> getlines (a ++ String newline b) = a :: getlines b.
Proof.
  induction a as [| ch a IH]; intros H; simpl in *.
  - reflexivity.
  - apply orb_false_elim in H. destruct H as [H1 H2].
    rewrite H1, (IH H2). reflexivity.
Qed.

(** Conversely, lines that hold no newline, written out one per line,
    are read back as they were. *)
Theorem getlines_of_unlines lines :
  Forall (fun line => has_newline line = false) lines ->
  getlines (unlines lines) = lines.
Proof.
  induction 1 as [| line more H F IH]; [reflexivity |].
  simpl unlines. rewrite (has_newline_app_false _ _ H). now rewrite IH.
Qed.

Lemma getlines_of_unlines_witness :
  getlines (unlines ["C 2"; ""; "S 3"]) = ["C 2"; ""; "S 3"].
Proof.
  apply (getlines_of_unlines ["C 2"; ""; "S 3"]). repeat constructor.
Defined.

(** ** The whole run, again *)

Lemma fold_print_shape_length l os :
  List.length (fold_left print_shape l os) = (List.length os + 2 * List.length l)%nat.
Proof.
  revert os. induction l as [| s l IH]; intros os; simpl.
  - lia.
  - rewrite IH. unfold print_shape. rewrite length_app. simpl. lia.
Qed.

(** When the file is opened and the sort returns as many shapes as it
    was given, the run accounts for every line of the file: with [n]
    the size it prints, [cout] holds two items for each of the [n]
    shapes and twelve for the summary, [cerr] holds [w] warnings of
    three items, and [n + w] is the number of lines. *)
Theorem main_accounts_for_every_line srt uninit fs text :
  fs "shapes.txt" = Some text ->
  List.length (srt comp (fst (loadList_loop uninit 0 (getlines text) [] [])))
  = List.length (fst (loadList_loop uninit 0 (getlines text) [] [])) ->
  exists n w,
    (n + w = List.length (getlines text))%nat /\
    List.length (cout (main srt uninit fs)) = (2 * n + 12)%nat /\
    nth_error (cout (main srt uninit fs)) (2 * n + 1) = Some (OSize (Z.of_nat n)) /\
    List.length (cerr (main srt uninit fs)) = (3 * w)%nat.
Proof.
  intros E L. rewrite (main_opened _ _ _ _ E). simpl cout. simpl cerr.
  destruct (one_line_accounting uninit 0 (getlines text) [] []) as (n & w & Enw & En & Ew).
  simpl in En, Ew. exists n, w.
  set (sorted := srt comp (fst (loadList_loop uninit 0 (getlines text) [] []))) in *.
  assert (Ls : List.length sorted = n) by lia.
  split; [exact Enw |]. split; [| split; [| exact Ew]].
  - rewrite length_app, fold_print_shape_length. simpl. lia.
  - rewrite nth_error_app2 by (rewrite fold_print_shape_length; simpl; lia).
    rewrite fold_print_shape_length. simpl List.length.
    replace (2 * n + 1 - (0 + 2 * List.length sorted))%nat with 1%nat by lia.
    simpl. now rewrite Ls.
Qed.

(** The file [C 2], [X 1 2], [S 3]: two shapes and one warning. *)
Lemma main_accounts_for_every_line_witness :
  exists n w,
    (n + w = List.length (getlines ("C 2" ++ String newline ("X 1 2" ++ String newline "S 3"))))%nat /\
    List.length (cout (main insertion_sort stale_locals
       (only_shapes_txt ("C 2" ++ String newline ("X 1 2" ++ String newline "S 3")))))
    = (2 * n + 12)%nat /\
    nth_error (cout (main insertion_sort stale_locals
       (only_shapes_txt ("C 2" ++ String newline ("X 1 2" ++ String newline "S 3")))))
      (2 * n + 1) = Some (OSize (Z.of_nat n)) /\
    List.length (cerr (main insertion_sort stale_locals
       (only_shapes_txt ("C 2" ++ String newline ("X 1 2" ++ String newline "S 3")))))
    = (3 * w)%nat.
Proof.
  apply (main_accounts_for_every_line insertion_sort stale_locals
           (only_shapes_txt ("C 2" ++ String newline ("X 1 2" ++ String newline "S 3")))
           ("C 2" ++ String newline ("X 1 2" ++ String newline "S 3")));
    reflexivity.
Defined.

(** ** The loader as a whole *)

Lemma loaded_from_app uninit i lines1 lines2 :
  loaded_from uninit i (lines1 ++ lines2)
  = loaded_from uninit i lines1 ++ loaded_from uninit (i + List.length lines1) lines2.
Proof.
  revert i. induction lines1 as [| line more IH]; intros i; simpl.
  - now rewrite Nat.add_0_r.
  - now rewrite IH, <- app_assoc, Nat.add_succ_r.
Qed.

Lemma warned_from_app uninit i lines1 lines2 :
  warned_from uninit i (lines1 ++ lines2)
  = warned_from uninit i lines1 ++ warned_from uninit (i + List.length lines1) lines2.
Proof.
  revert i. induction lines1 as [| line more IH]; intros i; simpl.
  - now rewrite Nat.add_0_r.
  - now rewrite IH, <- app_assoc, Nat.add_succ_r.
Qed.

(** The loader only appends, line by line and in the order of the
    lines: after the lines of two stretches the vector holds what it
    held, then what the lines of the first stretch add, then what the
    lines of the second add; and so for [cerr].  What one pass of the
    loop body adds is fixed by the text of the line and by what the
    locals hold at that pass, whatever the vector and [cerr] hold: on
    a short or blank line the shape is built from what the locals
    hold, which the program does not fix. *)
Theorem loadList_appends_in_line_order uninit i lines1 lines2 shapes err :
  loadList_loop uninit i (lines1 ++ lines2) shapes err
  = (shapes ++ loaded_from uninit i lines1
            ++ loaded_from uninit (i + List.length lines1) lines2,
     err ++ warned_from uninit i lines1
         ++ warned_from uninit (i + List.length lines1) lines2) /\
  (forall u line held written,
     loadList_body u line held written
     = (held ++ fst (loadList_body u line [] []),
        written ++ snd (loadList_body u line [] []))).
Proof.
  split.
  - now rewrite loadList_loop_contributions, loaded_from_app, warned_from_app.
  - intros u line held written. apply loadList_body_frame.
Qed.

(** When the file can be opened [loadList] returns: it keeps what the
    vector held, appends objects made by the four constructors, one for
    each line that does not end in a warning, and reports the other
    lines with one warning each. *)
Theorem loadList_returns uninit fs filename text shapes :
  fs filename = Some text ->
  exists new warnings n w,
    loadList uninit fs filename shapes = Returned (shapes ++ new, warnings) /\
    Forall constructed new /\
    List.length new = n /\ List.length warnings = (3 * w)%nat /\
    (n + w = List.length (getlines text))%nat.
Proof.
  intros E. unfold loadList. rewrite E.
  destruct (one_line_accounting uninit 0 (getlines text) [] []) as (n & w & Enw & En & Ew).
  rewrite (loadList_loop_contributions uninit 0 (getlines text) [] []) in En, Ew.
  simpl in En, Ew.
  exists (loaded_from uninit 0 (getlines text)), (warned_from uninit 0 (getlines text)), n, w.
  rewrite loadList_loop_contributions. simpl app.
  repeat split; try assumption.
  pose proof (loadList_loop_constructed uninit 0 (getlines text) [] []
                (Forall_nil _)) as C.
  now rewrite loadList_loop_contributions in C.
Qed.

Lemma loadList_returns_witness :
  exists new warnings n w,
    loadList stale_locals (only_shapes_txt scenario1_text) "shapes.txt" [Triangle 3 4 5]
    = Returned ([Triangle 3 4 5] ++ new, warnings) /\
    Forall constructed new /\
    List.length new = n /\ List.length warnings = (3 * w)%nat /\
    (n + w = List.length (getlines scenario1_text))%nat.
Proof.
  apply (loadList_returns stale_locals (only_shapes_txt scenario1_text) "shapes.txt"
           scenario1_text [Triangle 3 4 5]).
  reflexivity.
Defined.

(** ** The aggregation pass, again *)

(** Circles count only towards the total perimeter: the polygon counter
    and the side total after a pass are those of the pass over the
    polygons alone. *)
Theorem polygon_counters_ignore_circles (l : list Shape) :
  totalPolygons (aggregate l) = totalPolygons (aggregate (filter is_Polygon l)) /\
  totalPolygonSides (aggregate l) = totalPolygonSides (aggregate (filter is_Polygon l)).
Proof.
  unfold aggregate. generalize Totals_init as t0.
  assert (G : forall l t t',
             totalPolygons t = totalPolygons t' ->
             totalPolygonSides t = totalPolygonSides t' ->
             totalPolygons (fold_left accumulate l t)
             = totalPolygons (fold_left accumulate (filter is_Polygon l) t') /\
             totalPolygonSides (fold_left accumulate l t)
             = totalPolygonSides (fold_left accumulate (filter is_Polygon l) t')).
  { clear l. induction l as [| s l IH]; intros t t' E1 E2; simpl; [now split |].
    assert (Q : is_Polygon s = match as_Polygon s with Some _ => true | None => false end)
      by reflexivity.
    destruct (as_Polygon s) as [polygon |] eqn:P; rewrite Q.
    - simpl fold_left. apply IH; unfold accumulate; rewrite P; simpl; congruence.
    - apply IH; unfold accumulate; rewrite P; simpl; assumption. }
  intros t0. now apply G.
Qed.
